(** * Revolver: the search core and the self-play training driver

    A shallow embedding of the search ([src/unnamed/part_000]: iterative
    deepening, alpha-beta, quiescence), of the search thread and its clock
    ([src/search.h]) and of the self-play loop of the training driver (the
    second half of [src/search.h]), followed by the properties of the
    specification that concern them.  Line numbers are those of these two
    files.

    The board, the evaluator, the move selector and the transposition table
    live in headers that are not part of the two files embedded here; they
    are consumed through the interface [Engine] below. *)

From Stdlib Require Import ZArith List Bool Lia String.
From stdpp Require Import base list.
Import ListNotations.

Local Open Scope Z_scope.

(** ** Scalar types *)

(** [Score], [Move], [Key] are integer typedefs of [utility.h]; scores are
    computed in C [int] and stay far from its limits, so they are modelled as
    unbounded integers. *)
Definition Score := Z.
Definition Move := Z.
Definition Key := Z.

(** Modelled from the spec: [Depth] is a small unsigned integer whose
    increment overflows after [MAX_DEPTH = 255], i.e. an 8-bit one. *)
Definition Depth := Z.

Definition wrap8 (x : Z) : Z := x mod 256.
Definition wrap64 (x : Z) : Z := x mod 2 ^ 64.

Definition MAX_DEPTH : Depth := 255.
Definition ASPIRATION_WINDOW : Score := 25.

(** Modelled from the spec: [DRAW = 0], and [NO_MOVE] is the falsy move. *)
Definition DRAW : Score := 0.
Definition NO_MOVE : Move := 0.

Inductive Node := ROOT | PV | NON_PV.

Definition Node_eqb (a b : Node) : bool :=
  match a, b with
  | ROOT, ROOT | PV, PV | NON_PV, NON_PV => true
  | _, _ => false
  end.

(** Modelled from the spec: the bound of a table entry is one of three. *)
Inductive Bound := EXACT | LOWER | UPPER.

(** Modelled from the spec: [sideToMove] is falsy for White. *)
Inductive Colour := WHITE | BLACK.

(** The two selector states the search starts from. *)
Inductive MoveSelectorState := TT_MOVE | GET_NON_CAPTURE_MOVES.

(** What [pe->...] reads from a table slot. *)
Record PositionEvaluation := {
  pe_bestMove : Move;
  pe_depth : Depth;
  pe_bound : Bound;
  pe_nodeScore : Score;
  pe_staticEvaluation : Score
}.

Record MoveObject := { mo_move : Move; mo_score : Score }.

(** ** The consumed interface *)

Class Engine := {
  Board : Type;
  Accumulator : Type;
  TT : Type;
  Slot : Type;
  MoveSelector : Type;
  noAccumulator : Accumulator;
  (* utility.h *)
  INFINITE : Score;
  CHECKMATE : Score;
  GUARANTEE_CHECKMATE : Score;
  (* chess_board.h *)
  sideToMove : Board -> Colour;
  isDraw : Board -> bool;
  getCheckers : Board -> bool;
  hasNonPawnMaterial : Board -> Colour -> bool;
  insufficientMaterial : Board -> bool;
  isLegalMove : Board -> Move -> bool;
  makeMove : Board -> Accumulator -> Move -> Board * Accumulator;
  undoMove : Board -> Move -> Board;
  makeNullMove : Board -> Board;
  undoNullMove : Board -> Board;
  getPositionKey : Board -> Key;
  pieceTypes : Board -> Z -> Z;
  getToSquare : Move -> Z;
  getMoveType : Move -> Z;
  EN_PASSANT : Z;
  QUEEN_PROMOTION : Z;
  getFEN : Board -> string;
  moveToString : Move -> string;
  (* nnue.h *)
  evaluation : Accumulator -> Colour -> Score;
  (* transposition_table.h *)
  probeTranspositionTable : TT -> Key -> Slot * bool;
  readSlot : TT -> Slot -> PositionEvaluation;
  savePositionEvaluation :
    TT -> Slot -> Key -> Move -> Depth -> Bound -> Score -> Score -> TT;
  adjustNodeScoreFromTT : Score -> Z -> Score;
  adjustNodeScoreToTT : Score -> Z -> Score;
  (* move_selector.h *)
  createMoveSelector : Board -> MoveSelectorState -> Move -> MoveSelector;
  getNextBestMove : Board -> MoveSelector -> Move * MoveSelector;
  (* the value of the n-th reading of CLOCK_MONOTONIC, in nanoseconds *)
  clock : nat -> Z
}.

(** ** [src/search.h]: the search thread *)

Section Search.
Context {E : Engine}.

#[local] Instance Accumulator_inhabited : Inhabited Accumulator :=
  populate noAccumulator.

(** [startNs], [maxSearchTimeNs] and [nodes] are [uint64_t] fields, their
    values lie in [0, 2^64); [ply] is a [uint8_t]. *)
Record SearchThread := mkSearchThread {
  accumulator : list Accumulator;
  board : Board;
  tt : TT;
  startNs : Z;
  maxSearchTimeNs : Z;
  nodes : Z;
  bestMove : MoveObject;
  ply : Z;
  print : bool;
  stop : bool
}.

Record SearchHelper := { pv : list Move }.

#[local] Instance SearchHelper_inhabited : Inhabited SearchHelper :=
  populate {| pv := [] |}.

(** One line written to the standard output. *)
Inductive Output :=
| InfoLine (depth : Depth) (scoreType : string) (score : Score)
           (nodeCount nps time : Z) (pvString : string)
| BestMoveLine (best : string) (ponder : option string).

(** What a node records about itself when it is counted. *)
Inductive Visit :=
| InAlphaBeta (node : Node) (drawn : bool)
| InQuiescence.

(** The journal of a search, newest event first: it is not part of the C
    state, it only remembers in which order the search counted nodes, polled
    the clock and stored into the table ([alphaBeta_journalled] below ties
    it to the node counter, to the readings of the clock and to the
    table). *)
Inductive Event :=
| EvNode (v : Visit)
| EvPoll (expired : bool)
| EvStore (stopped : bool).

(** The thread together with what the search touches outside of it: the
    [SearchHelper] array of [startSearch], the number of clock readings made
    so far, the standard output and the journal. *)
Record World := mkWorld {
  thread : SearchThread;
  helpers : list SearchHelper;
  ticks : nat;
  stdout : list Output;
  journal : list Event
}.

Definition withThread (f : SearchThread -> SearchThread) (w : World) : World :=
  mkWorld (f (thread w)) (helpers w) (ticks w) (stdout w) (journal w).

Definition withHelpers (f : list SearchHelper -> list SearchHelper) (w : World) : World :=
  mkWorld (thread w) (f (helpers w)) (ticks w) (stdout w) (journal w).

Definition record (e : Event) (w : World) : World :=
  mkWorld (thread w) (helpers w) (ticks w) (stdout w) (e :: journal w).

Definition emit (o : Output) (w : World) : World :=
  mkWorld (thread w) (helpers w) (ticks w) (stdout w ++ [o]) (journal w).

Definition setNodes (n : Z) (st : SearchThread) : SearchThread :=
  mkSearchThread (accumulator st) (board st) (tt st) (startNs st)
    (maxSearchTimeNs st) n (bestMove st) (ply st) (print st) (stop st).

Definition setStop (b : bool) (st : SearchThread) : SearchThread :=
  mkSearchThread (accumulator st) (board st) (tt st) (startNs st)
    (maxSearchTimeNs st) (nodes st) (bestMove st) (ply st) (print st) b.

Definition setPly (p : Z) (st : SearchThread) : SearchThread :=
  mkSearchThread (accumulator st) (board st) (tt st) (startNs st)
    (maxSearchTimeNs st) (nodes st) (bestMove st) p (print st) (stop st).

Definition setBoard (b : Board) (st : SearchThread) : SearchThread :=
  mkSearchThread (accumulator st) b (tt st) (startNs st)
    (maxSearchTimeNs st) (nodes st) (bestMove st) (ply st) (print st) (stop st).

Definition setAccumulator (a : list Accumulator) (st : SearchThread) : SearchThread :=
  mkSearchThread a (board st) (tt st) (startNs st)
    (maxSearchTimeNs st) (nodes st) (bestMove st) (ply st) (print st) (stop st).

Definition setTT (t : TT) (st : SearchThread) : SearchThread :=
  mkSearchThread (accumulator st) (board st) t (startNs st)
    (maxSearchTimeNs st) (nodes st) (bestMove st) (ply st) (print st) (stop st).

Definition setStartNs (t : Z) (st : SearchThread) : SearchThread :=
  mkSearchThread (accumulator st) (board st) (tt st) t
    (maxSearchTimeNs st) (nodes st) (bestMove st) (ply st) (print st) (stop st).

Definition setBestMove (m : MoveObject) (st : SearchThread) : SearchThread :=
  mkSearchThread (accumulator st) (board st) (tt st) (startNs st)
    (maxSearchTimeNs st) (nodes st) m (ply st) (print st) (stop st).

(** ** The monad of the search: state, and [None] when the fuel runs out *)

Definition M (A : Type) : Type := World -> option (A * World).

Definition ret {A} (a : A) : M A := fun w => Some (a, w).

Definition bind {A B} (m : M A) (k : A -> M B) : M B :=
  fun w => match m w with
           | Some (a, w') => k a w'
           | None => None
           end.

Definition fail {A} : M A := fun _ => None.
Definition get : M World := fun w => Some (w, w).
Definition modify (f : World -> World) : M unit := fun w => Some (Datatypes.tt, f w).

End Search.

Declare Scope search_scope.
Delimit Scope search_scope with search.
Notation "x <- m ;; k" := (bind m (fun x => k))
  (at level 100, m at level 99, right associativity) : search_scope.
Notation "m ;; k" := (bind m (fun _ => k))
  (at level 100, right associativity) : search_scope.

Local Open Scope search_scope.

Section SearchCode.
Context {E : Engine}.

#[local] Existing Instance Accumulator_inhabited.
#[local] Existing Instance SearchHelper_inhabited.

(** ** [src/search.h]: the clock *)

(** [getTimeNs]: one more reading of the monotonic clock, as a [uint64_t]. *)
Definition getTimeNs : M Z := fun w =>
  Some (wrap64 (clock (ticks w)),
        mkWorld (thread w) (helpers w) (S (ticks w)) (stdout w) (journal w)).

(** [outOfTime]: [return st->stop = getTimeNs() - st->startNs >= st->maxSearchTimeNs;] *)
Definition outOfTime : M bool :=
  now <- getTimeNs ;;
  w <- get ;;
  let expired :=
    maxSearchTimeNs (thread w) <=? wrap64 (now - startNs (thread w)) in
  modify (fun w => record (EvPoll expired) (withThread (setStop expired) w)) ;;
  ret expired.

(** ** The search: helpers *)

(** The cells [childrenPV] is read from, up to and with its terminator. *)
Fixpoint throughTerminator (l : list Move) : list Move :=
  match l with
  | [] => []
  | m :: r => if m =? NO_MOVE then [m] else m :: throughTerminator r
  end.

(** Writing [src] over the first cells of an array; a write past the end of
    the array, undefined in C, is dropped. *)
Fixpoint overwrite (src dst : list Move) : list Move :=
  match src, dst with
  | [], _ => dst
  | _ :: _, [] => []
  | s :: src', _ :: dst' => s :: overwrite src' dst'
  end.

Definition updatePV (move : Move) (currentPV childrenPV : list Move) : list Move :=
  overwrite (move :: throughTerminator childrenPV) currentPV.

Definition pvAt (l : list Move) (i : nat) : Move := default NO_MOVE (l !! i).

Fixpoint pvTail (l : list Move) : string :=
  match l with
  | [] => EmptyString
  | m :: r =>
      if m =? NO_MOVE then EmptyString
      else String.append " " (String.append (moveToString m) (pvTail r))
  end.

(** [pvToString]: the three strings it fills, [(pvStr, bestMove, ponderMove)]. *)
Definition pvToString (l : list Move) : string * string * string :=
  let best := moveToString (pvAt l 0) in
  let ponder :=
    if pvAt l 1 =? NO_MOVE then EmptyString else moveToString (pvAt l 1) in
  (String.append best (pvTail (drop 1 (take (Z.to_nat MAX_DEPTH) l))),
   best, ponder).

Definition isInteresting (b : Board) (move : Move) : bool :=
  negb (pieceTypes b (getToSquare move) =? 0)
  || (getMoveType move =? EN_PASSANT)
  || (getMoveType move =? QUEEN_PROMOTION).

Definition getReverseFutilityPruningScore (staticEvaluation : Score) (depth : Depth) : Score :=
  staticEvaluation + 150 * depth.

Definition getRFPMargin (depth : Depth) : Score := 150 * depth.

(** The [score %s %d] fields of [printSearch]; [/] of C truncates, it is
    [Z.quot]. *)
Definition scoreType (score : Score) : string :=
  if (score >=? GUARANTEE_CHECKMATE) || (score <=? - GUARANTEE_CHECKMATE)
  then "mate"%string else "cp"%string.

Definition scoreValue (score : Score) : Score :=
  if score >=? GUARANTEE_CHECKMATE then (CHECKMATE - score + 1) ÷ 2
  else if score <=? - GUARANTEE_CHECKMATE then (- CHECKMATE - score) ÷ 2
  else score.

Definition printSearch (depth : Depth) (score : Score) (pvString : string) : M unit :=
  now <- getTimeNs ;;
  w <- get ;;
  let st := thread w in
  let time := wrap64 (now - startNs st) ÷ 1000000 in
  let nps := wrap64 (nodes st * 1000) ÷ wrap64 (time + 1) in
  modify (emit (InfoLine depth (scoreType score) (scoreValue score)
                         (nodes st) nps time pvString)).

(** ** The search: what a node does to the world *)

(** [st->nodes++] *)
Definition countNode (v : Visit) (w : World) : World :=
  record (EvNode v) (withThread (fun st => setNodes (wrap64 (nodes st + 1)) st) w).

(** [sh->pv[0] = NO_MOVE] *)
Definition resetPV (sh : nat) (w : World) : World :=
  withHelpers (fun hs =>
    <[sh := {| pv := <[0%nat := NO_MOVE]> (pv (hs !!! sh)) |}]> hs) w.

(** [updatePV(move, sh->pv, child->pv)] *)
Definition extendPV (sh : nat) (move : Move) (w : World) : World :=
  withHelpers (fun hs =>
    <[sh := {| pv := updatePV move (pv (hs !!! sh)) (pv (hs !!! S sh)) |}]> hs) w.

(** [st->ply++; *childAccumulator = *currentAccumulator; makeMove(...)].
    The two accumulators are the ones the pointers taken at the entry of the
    node point to; their indices, at most 256, stay inside the 512 cells of
    the thread. *)
Definition descend (current child : nat) (move : Move) (w : World) : World :=
  withThread (fun st =>
    let copied := <[child := accumulator st !!! current]> (accumulator st) in
    let made := makeMove (board st) (copied !!! child) move in
    setBoard (fst made)
      (setAccumulator (<[child := snd made]> copied)
         (setPly (wrap8 (ply st + 1)) st))) w.

(** [undoMove(board, move); st->ply--] *)
Definition ascend (move : Move) (w : World) : World :=
  withThread (fun st =>
    setPly (wrap8 (ply st - 1)) (setBoard (undoMove (board st) move) st)) w.

(** [st->ply++; *childAccumulator = *currentAccumulator; makeNullMove(...)] *)
Definition descendNull (current child : nat) (w : World) : World :=
  withThread (fun st =>
    setBoard (makeNullMove (board st))
      (setAccumulator (<[child := accumulator st !!! current]> (accumulator st))
         (setPly (wrap8 (ply st + 1)) st))) w.

(** [undoNullMove(board); st->ply--] *)
Definition ascendNull (w : World) : World :=
  withThread (fun st =>
    setPly (wrap8 (ply st - 1)) (setBoard (undoNullMove (board st)) st)) w.

(** [savePositionEvaluation(st->tt, pe, ...)]; the journal keeps the value
    the stop flag has when the table is written. *)
Definition store (pe : Slot) (key : Key) (move : Move) (depth : Depth)
    (bound : Bound) (nodeScore staticEvaluation : Score) (w : World) : World :=
  record (EvStore (stop (thread w)))
    (withThread (fun st =>
       setTT (savePositionEvaluation (tt st) pe key move depth bound
                nodeScore staticEvaluation) st) w).

(** [if (!st->stop) savePositionEvaluation(...)] *)
Definition storeUnlessStopped (pe : Slot) (key : Key) (move : Move)
    (depth : Depth) (bound : Bound) (nodeScore staticEvaluation : Score) : M unit :=
  w <- get ;;
  if negb (stop (thread w))
  then modify (store pe key move depth bound nodeScore staticEvaluation)
  else ret Datatypes.tt.

(** ** quiescenceSearch *)

Section QuiescenceLoop.
Variable rec : Score -> Score -> M Score.
Variable beta : Score.
Variables current child : nat.

(** The main moves loop of [quiescenceSearch]; [n] bounds its iterations. *)
Fixpoint quiescenceLoop (n : nat) (ms : MoveSelector) (alpha bestScore : Score) : M Score :=
  match n with
  | O => fail
  | S n' =>
      w <- get ;;
      let b := board (thread w) in
      let next := getNextBestMove b ms in
      let move := fst next in
      if move =? NO_MOVE then ret bestScore
      else if negb (isLegalMove b move) then quiescenceLoop n' (snd next) alpha bestScore
      else
        modify (descend current child move) ;;
        r <- rec (- beta) (- alpha) ;;
        modify (ascend move) ;;
        let score := - r in
        if score >? bestScore then
          if score >? alpha then
            if score >=? beta then ret score
            else quiescenceLoop n' (snd next) score score
          else quiescenceLoop n' (snd next) alpha score
        else quiescenceLoop n' (snd next) alpha bestScore
  end.

End QuiescenceLoop.

(** The helper [sh] is only passed along by the C function. *)
Fixpoint quiescenceSearch (fuel : nat) (alpha beta : Score) (sh : nat) : M Score :=
  match fuel with
  | O => fail
  | S f =>
      modify (countNode InQuiescence) ;;
      w <- get ;;
      let st := thread w in
      if isDraw (board st) then ret DRAW
      else
        let checkers := getCheckers (board st) in
        let current := Z.to_nat (ply st) in
        let child := Z.to_nat (ply st + 1) in
        let bestScore :=
          if checkers then - CHECKMATE + ply st
          else evaluation (accumulator st !!! current) (sideToMove (board st)) in
        if (bestScore >? alpha) && (bestScore >=? beta) then ret bestScore
        else
          let alpha := if bestScore >? alpha then bestScore else alpha in
          let state := if checkers then TT_MOVE else GET_NON_CAPTURE_MOVES in
          quiescenceLoop (fun a b => quiescenceSearch f a b sh) beta current child
            f (createMoveSelector (board st) state NO_MOVE) alpha bestScore
  end.

(** ** alphaBeta *)

(** The locals of [alphaBeta] that are fixed once the pruning steps are
    over. *)
Record Frame := {
  positionKey : Key;
  pe : Slot;
  ttMove : Move;
  checkers : bool;
  staticEvaluation : Score;
  currentAccumulator : nat;
  childAccumulator : nat
}.

(** How the loop over the moves is left. *)
Inductive LoopExit :=
| BetaCutoff (score : Score)
| Exhausted (legalMoves : Z) (bestScore : Score) (bestMove : Move).

Definition Bound_eqb (a b : Bound) : bool :=
  match a, b with
  | EXACT, EXACT | LOWER, LOWER | UPPER, UPPER => true
  | _, _ => false
  end.

(** Step 3, lines 133-137: the score a table hit returns at once, if any. *)
Definition tableCutoff (entry : PositionEvaluation) (isPvNode : bool)
    (depth : Depth) (alpha beta : Score) (ply : Z) : option Score :=
  if negb isPvNode && (pe_depth entry >=? depth) then
    let bound := pe_bound entry in
    let nodeScore := adjustNodeScoreFromTT (pe_nodeScore entry) ply in
    if Bound_eqb bound EXACT
       || (if Bound_eqb bound LOWER then nodeScore >=? beta else nodeScore <=? alpha)
    then Some nodeScore
    else None
  else None.

(** [score > alpha] on a score that may not have been assigned yet. *)
Definition above (score : option Score) (alpha : Score) : bool :=
  match score with
  | Some s => s >? alpha
  | None => false
  end.

Section AlphaBetaBody.
Variable rec : Score -> Score -> Depth -> Node -> nat -> M Score.
Variables (beta : Score) (depth : Depth) (node : Node) (sh : nat).

Let isPvNode : bool := negb (Node_eqb node NON_PV).

(** Line 123: [(node != ROOT && isDraw(board)) || outOfTime(st)]. *)
Definition drawOrOutOfTime : M bool :=
  w <- get ;;
  if negb (Node_eqb node ROOT) && isDraw (board (thread w)) then ret true
  else outOfTime.

(** Step 4, lines 152-160: the score the null move cuts off with, if any. *)
Definition nullMovePruning (fr : Frame) : M (option Score) :=
  w <- get ;;
  let b := board (thread w) in
  if negb isPvNode && negb (checkers fr) && (depth >? 3)
     && (staticEvaluation fr >=? beta) && hasNonPawnMaterial b (sideToMove b)
  then
    modify (descendNull (currentAccumulator fr) (childAccumulator fr)) ;;
    r <- rec (- beta) (- beta + 1) (wrap8 (depth - 4)) NON_PV (S sh) ;;
    modify ascendNull ;;
    ret (if - r >=? beta then Some (- r) else None)
  else ret None.

(** Lines 121-123: the node is counted, then the draw and the clock are
    looked at; the result is the condition of the [if]. *)
Definition enterNode : M bool :=
  w <- get ;;
  modify (countNode (InAlphaBeta node (isDraw (board (thread w))))) ;;
  drawOrOutOfTime.

(** Lines 127-150: the probe of the table and the locals it fixes. *)
Definition frameOf (st : SearchThread) : Frame :=
  let key := getPositionKey (board st) in
  let probed := probeTranspositionTable (tt st) key in
  let hasEvaluation := snd probed in
  let entry := readSlot (tt st) (fst probed) in
  let inCheck := getCheckers (board st) in
  let current := Z.to_nat (ply st) in
  {| positionKey := key;
     pe := fst probed;
     ttMove := if hasEvaluation then pe_bestMove entry else NO_MOVE;
     checkers := inCheck;
     staticEvaluation :=
       if inCheck then - INFINITE
       else if hasEvaluation then pe_staticEvaluation entry
       else evaluation (accumulator st !!! current) (sideToMove (board st));
     currentAccumulator := current;
     childAccumulator := Z.to_nat (ply st + 1) |}.

(** Lines 132-137: the early return of a table hit. *)
Definition tableHit (st : SearchThread) (alpha : Score) : option Score :=
  let probed := probeTranspositionTable (tt st) (getPositionKey (board st)) in
  if snd probed
  then tableCutoff (readSlot (tt st) (fst probed)) isPvNode depth alpha beta (ply st)
  else None.

(** Steps 4 and 5, lines 151-165: an early return ([inl]) or the frame the
    loop over the moves runs in ([inr]). *)
Definition pruning (fr : Frame) : M (Score + Frame) :=
  cut <- nullMovePruning fr ;;
  match cut with
  | Some score => ret (inl score)
  | None =>
      if negb isPvNode && negb (checkers fr)
         && (staticEvaluation fr - getRFPMargin depth >=? beta)
      then ret (inl (staticEvaluation fr))
      else ret (inr fr)
  end.

(** Lines 121-165 of [alphaBeta]. *)
Definition alphaBetaPrelude (alpha : Score) : M (Score + Frame) :=
  out <- enterNode ;;
  if out then ret (inl DRAW)
  else
    w <- get ;;
    match tableHit (thread w) alpha with
    | Some nodeScore => ret (inl nodeScore)
    | None => pruning (frameOf (thread w))
    end.

Variable fr : Frame.

(** Lines 175-213: the loop over the moves; [n] bounds its iterations. *)
Fixpoint moveLoop (n : nat) (ms : MoveSelector) (legalMoves : Z)
    (alpha bestScore : Score) (best : Move) : M LoopExit :=
  match n with
  | O => fail
  | S n' =>
      w <- get ;;
      let b := board (thread w) in
      let next := getNextBestMove b ms in
      let move := fst next in
      let ms := snd next in
      if move =? NO_MOVE then ret (Exhausted legalMoves bestScore best)
      else if negb (isLegalMove b move) then moveLoop n' ms legalMoves alpha bestScore best
      else
        let legalMoves := legalMoves + 1 in
        let expectedNonPvNode := negb isPvNode || (legalMoves >? 1) in
        if expectedNonPvNode && (depth <? 4) && negb (checkers fr)
           && negb (isInteresting b move)
           && (getReverseFutilityPruningScore (staticEvaluation fr) depth <=? alpha)
        then moveLoop n' ms legalMoves alpha bestScore best
        else
          let reductions := if (legalMoves >? 1) && (depth >? 1) then 2 else 1 in
          modify (descend (currentAccumulator fr) (childAccumulator fr) move) ;;
          nullWindow <-
            (if expectedNonPvNode then
               r <- rec (- alpha - 1) (- alpha) (wrap8 (depth - reductions)) NON_PV (S sh) ;;
               ret (Some (- r))
             else ret None) ;;
          searched <-
            (if isPvNode && ((legalMoves =? 1) || above nullWindow alpha) then
               r <- rec (- beta) (- alpha) (wrap8 (depth - 1)) PV (S sh) ;;
               ret (Some (- r))
             else ret nullWindow) ;;
          modify (ascend move) ;;
          match searched with
          | None => fail (* not reached: one of the two searches ran *)
          | Some score =>
              if score >? bestScore then
                if score >? alpha then
                  if score >=? beta then
                    w <- get ;;
                    storeUnlessStopped (pe fr) (positionKey fr) move depth LOWER
                      (adjustNodeScoreToTT score (ply (thread w)))
                      (staticEvaluation fr) ;;
                    ret (BetaCutoff score)
                  else
                    modify (extendPV sh move) ;;
                    moveLoop n' ms legalMoves score score move
                else moveLoop n' ms legalMoves alpha score move
              else moveLoop n' ms legalMoves alpha bestScore best
          end
  end.

(** Lines 167-221: the loop, the mate and stalemate scores, the store. *)
Definition alphaBetaMoves (n : nat) (alpha : Score) : M Score :=
  w <- get ;;
  let ms := createMoveSelector (board (thread w)) TT_MOVE (ttMove fr) in
  exit <- moveLoop n ms 0 alpha (- INFINITE) NO_MOVE ;;
  match exit with
  | BetaCutoff score => ret score
  | Exhausted legalMoves bestScore best =>
      w <- get ;;
      let st := thread w in
      let bestScore :=
        if legalMoves =? 0
        then (if checkers fr then - CHECKMATE + ply st else DRAW)
        else bestScore in
      storeUnlessStopped (pe fr) (positionKey fr) best depth
        (if bestScore >? alpha then EXACT else UPPER)
        (adjustNodeScoreToTT
           (if bestScore =? - INFINITE then staticEvaluation fr else bestScore)
           (ply st))
        (staticEvaluation fr) ;;
      ret bestScore
  end.

End AlphaBetaBody.

Fixpoint alphaBeta (fuel : nat) (alpha beta : Score) (depth : Depth)
    (node : Node) (sh : nat) : M Score :=
  match fuel with
  | O => fail
  | S f =>
      modify (resetPV sh) ;;
      if depth =? 0 then quiescenceSearch f alpha beta sh
      else
        pre <- alphaBetaPrelude (alphaBeta f) beta depth node sh alpha ;;
        match pre with
        | inl score => ret score
        | inr fr => alphaBetaMoves (alphaBeta f) beta depth node sh fr f alpha
        end
  end.

(** ** startSearch *)

(** The locals of [startSearch] that live across iterations.  The two
    character arrays are not initialised by the C code: what they hold before
    the first accepted iteration is whatever [startSearch] is entered with. *)
Record Deepening := {
  depthNow : Depth;
  alphaNow : Score;
  betaNow : Score;
  bestMoveStr : string;
  ponderMoveStr : string
}.

(** Lines 233-247: the body of the loop, without the [depth++] of the
    [for]. *)
Definition iteration (fuel : nat) (l : Deepening) : M Deepening :=
  score <- alphaBeta fuel (alphaNow l) (betaNow l) (depthNow l) ROOT 0 ;;
  w <- get ;;
  if (score >? alphaNow l) && (score <? betaNow l) && negb (stop (thread w)) then
    let rootPV := pv (helpers w !!! 0%nat) in
    modify (withThread (setBestMove {| mo_move := pvAt rootPV 0; mo_score := score |})) ;;
    let strings := pvToString rootPV in
    (if print (thread w) then printSearch (depthNow l) score (fst (fst strings))
     else ret Datatypes.tt) ;;
    ret {| depthNow := depthNow l;
           alphaNow := score - ASPIRATION_WINDOW;
           betaNow := score + ASPIRATION_WINDOW;
           bestMoveStr := snd (fst strings);
           ponderMoveStr := snd strings |}
  else
    ret {| depthNow := wrap8 (depthNow l - 1);
           alphaNow := if score >? alphaNow l then alphaNow l else - INFINITE;
           betaNow := if score <? betaNow l then betaNow l else INFINITE;
           bestMoveStr := bestMoveStr l;
           ponderMoveStr := ponderMoveStr l |}.

Definition nextDepth (l : Deepening) : Deepening :=
  {| depthNow := wrap8 (depthNow l + 1);
     alphaNow := alphaNow l;
     betaNow := betaNow l;
     bestMoveStr := bestMoveStr l;
     ponderMoveStr := ponderMoveStr l |}.

(** Line 232: [for (...; depth && !outOfTime(st); depth++)]; [n] bounds the
    number of iterations, [fuel] is what each call of [alphaBeta] gets. *)
Fixpoint deepen (fuel n : nat) (l : Deepening) : M Deepening :=
  match n with
  | O => fail
  | S n' =>
      if depthNow l =? 0 then ret l
      else
        out <- outOfTime ;;
        if out then ret l
        else
          l' <- iteration fuel l ;;
          deepen fuel n' (nextDepth l')
  end.

Definition firstIteration (junkBest junkPonder : string) : Deepening :=
  {| depthNow := 1;
     alphaNow := - INFINITE;
     betaNow := INFINITE;
     bestMoveStr := junkBest;
     ponderMoveStr := junkPonder |}.

Definition nonEmpty (s : string) : bool :=
  match s with
  | EmptyString => false
  | String _ _ => true
  end.

(** [startSearch]; it returns [&st->bestMove], here what that points to when
    the function returns. *)
Definition startSearch (fuel : nat) (junkBest junkPonder : string) : M MoveObject :=
  now <- getTimeNs ;;
  modify (withThread (setStartNs now)) ;;
  l <- deepen fuel fuel (firstIteration junkBest junkPonder) ;;
  w <- get ;;
  (if print (thread w) then
     modify (emit (BestMoveLine (bestMoveStr l)
                     (if nonEmpty (ponderMoveStr l)
                      then Some (ponderMoveStr l) else None)))
   else ret Datatypes.tt) ;;
  w <- get ;;
  ret (bestMove (thread w)).

(** [createSearchThread]; the accumulators above the first keep what the
    thread held. *)
Definition createSearchThread (st : SearchThread) (b : Board) (table : TT)
    (acc : Accumulator) (maxNs : Z) (printing : bool) : SearchThread :=
  mkSearchThread (<[0%nat := acc]> (accumulator st)) b table
    (startNs st) maxNs 0 (bestMove st) 0 printing false.

End SearchCode.

(** * The training driver: the self-play loop (second half of [src/search.h]) *)

Section Training.
Context {E : Engine}.

#[local] Existing Instance Accumulator_inhabited.

(** A node of the reverse-linked list; its [prev] is the rest of the Rocq
    list, and the dummy node the C list ends with is the empty list. *)
Record GameData := { recordedScore : Score; fen : string }.

(** The [%.1f] outcomes the driver writes. *)
Inductive Outcome := WhiteWon | Drawn | BlackWon.

Record TrainingLine := {
  lineFen : string;
  lineScore : Score;
  lineOutcome : Outcome
}.

(** [createGameData]: the node it fills, linked in front of [previous]. *)
Definition createGameData (previous : list GameData) (b : Board) (score : Score) : list GameData :=
  {| recordedScore := match sideToMove b with
                      | BLACK => - score
                      | WHITE => score
                      end;
     fen := getFEN b |} :: previous.

(** [writeGameData]: the lines it prints and the number it returns. *)
Definition writeGameData (data : list GameData) (outcome : Outcome) : list TrainingLine * Z :=
  (map (fun d => {| lineFen := fen d;
                    lineScore := recordedScore d;
                    lineOutcome := outcome |}) data,
   Z.of_nat (length data)).

Definition isCheckmate (score : Score) : bool :=
  (score <=? - GUARANTEE_CHECKMATE) || (score >=? GUARANTEE_CHECKMATE).

Definition isStalemate (score : Score) (best : Move) : bool :=
  (score =? DRAW) && (best =? NO_MOVE).

Definition isEndOfGame (b : Board) (moveObj : MoveObject) : bool :=
  isCheckmate (mo_score moveObj)
  || isStalemate (mo_score moveObj) (mo_move moveObj)
  || isDraw b.

Definition opponent (c : Colour) : Colour :=
  match c with
  | WHITE => BLACK
  | BLACK => WHITE
  end.

(** Lines 150-153 of [playGame]: the list [previous] points to after them. *)
Definition recordPosition (previous : list GameData) (b : Board) (best : MoveObject) : list GameData :=
  if negb (getCheckers b) && negb (isCheckmate (mo_score best))
     && negb (insufficientMaterial b)
  then createGameData previous b (mo_score best)
  else previous.

(** Lines 155-159. *)
Definition gameOutcome (b : Board) (best : MoveObject) : Outcome :=
  if isCheckmate (mo_score best) then
    match (if mo_score best >? 0 then sideToMove b else opponent (sideToMove b)) with
    | BLACK => BlackWon
    | WHITE => WhiteWon
    end
  else Drawn.

(** [makeMove(board, &history, accumulator, bestMove->move)] on the first
    accumulator of the thread. *)
Definition playMove (move : Move) (w : World) : World :=
  withThread (fun st =>
    let made := makeMove (board st) (accumulator st !!! 0%nat) move in
    setBoard (fst made) (setAccumulator (<[0%nat := snd made]> (accumulator st)) st)) w.

(** [playGame]; it returns the lines appended to the file of the thread.
    [n] bounds the number of moves of the game. *)
Fixpoint playGame (fuel n : nat) (junkBest junkPonder : string)
    (previous : list GameData) : M (list TrainingLine) :=
  match n with
  | O => fail
  | S n' =>
      best <- startSearch fuel junkBest junkPonder ;;
      w <- get ;;
      let b := board (thread w) in
      let previous := recordPosition previous b best in
      if isEndOfGame b best then
        ret (fst (writeGameData previous (gameOutcome b best)))
      else
        modify (playMove (mo_move best)) ;;
        playGame fuel n' junkBest junkPonder previous
  end.

End Training.

(** * A small engine to run the code on

    Positions are the lists of the moves played, newest first; two plies are
    playable from the empty list, the positions below have one pseudo-legal
    move, which is not legal; the position reached by the moves 2 and 3 is
    a draw. *)

Module Toy.

Definition pseudoLegal (b : list Z) : list Move :=
  match b with
  | [] => [2; 1]
  | [_] => [3]
  | _ => [5]
  end.

Definition toyKey (b : list Z) : Key := fold_right (fun m k => 10 * k + m) 0 b.

Fixpoint toyProbe (t : list (Key * PositionEvaluation)) (k : Key) : option PositionEvaluation :=
  match t with
  | [] => None
  | (k', e) :: r => if k' =? k then Some e else toyProbe r k
  end.

Definition emptyEntry : PositionEvaluation :=
  {| pe_bestMove := NO_MOVE; pe_depth := 0; pe_bound := UPPER;
     pe_nodeScore := 0; pe_staticEvaluation := 0 |}.

Definition toyMoveName (m : Move) : string :=
  match m with
  | 1 => "a2a3"
  | 2 => "b2b3"
  | 3 => "a7a6"
  | _ => "0000"
  end.

#[export] Instance engine : Engine := {|
  Board := list Z;
  Accumulator := Z;
  TT := list (Key * PositionEvaluation);
  Slot := Key;
  MoveSelector := list Move;
  noAccumulator := 0;
  INFINITE := 32001;
  CHECKMATE := 32000;
  GUARANTEE_CHECKMATE := 31000;
  sideToMove := fun b => if Nat.even (length b) then WHITE else BLACK;
  isDraw := fun b => match b with [3; 2] => true | _ => false end;
  getCheckers := fun _ => false;
  hasNonPawnMaterial := fun _ _ => true;
  insufficientMaterial := fun _ => false;
  isLegalMove := fun _ m => negb (m =? 5);
  makeMove := fun b a m => (m :: b, a + m);
  undoMove := fun b _ => tl b;
  makeNullMove := fun b => 0 :: b;
  undoNullMove := fun b => tl b;
  getPositionKey := toyKey;
  pieceTypes := fun _ _ => 0;
  getToSquare := fun m => m;
  getMoveType := fun _ => 0;
  EN_PASSANT := 3;
  QUEEN_PROMOTION := 9;
  getFEN := fun b => String.concat " " (map toyMoveName b);
  moveToString := toyMoveName;
  evaluation := fun a c => match c with WHITE => a | BLACK => - a end;
  probeTranspositionTable := fun t k =>
    (k, match toyProbe t k with Some _ => true | None => false end);
  readSlot := fun t k => default emptyEntry (toyProbe t k);
  savePositionEvaluation := fun t slot k m d b s e =>
    (k, {| pe_bestMove := m; pe_depth := d; pe_bound := b;
           pe_nodeScore := s; pe_staticEvaluation := e |}) :: t;
  adjustNodeScoreFromTT := fun s _ => s;
  adjustNodeScoreToTT := fun s _ => s;
  createMoveSelector := fun b state _ =>
    match state with
    | TT_MOVE => pseudoLegal b
    | GET_NON_CAPTURE_MOVES => []
    end;
  getNextBestMove := fun _ ms =>
    match ms with
    | [] => (NO_MOVE, [])
    | m :: r => (m, r)
    end;
  clock := fun n => Z.min (60 * Z.of_nat n) (2 ^ 63)
|}.

Definition toyThread (b : list Z) (budget : Z) (printing : bool) : SearchThread :=
  mkSearchThread (replicate 512 0) b [] 0 budget 0
    {| mo_move := NO_MOVE; mo_score := 0 |} 0 printing false.

Definition toyWorld (b : list Z) (budget : Z) (printing : bool) : World :=
  mkWorld (toyThread b budget printing)
    (replicate 256 {| pv := replicate 255 0 |}) 0 [] [].

(** A position without a legal move whose side to move is not in check. *)
Definition stalemate : list Z := [2; 1].

(** The same start with an entry for it in the table. *)
Definition toyHit : World :=
  withThread (setTT [(0, {| pe_bestMove := 2; pe_depth := 3; pe_bound := EXACT;
                            pe_nodeScore := 7; pe_staticEvaluation := 1 |})])
    (toyWorld [] 1000 true).

End Toy.

(** * The small engine with bounded evaluations

    The engine above with its static evaluations kept between -1000 and
    1000, as the search expects them to stay between the infinite bounds. *)

Module BoundedToy.

Definition engine : Engine := {|
  Board := list Z;
  Accumulator := Z;
  TT := list (Key * PositionEvaluation);
  Slot := Key;
  MoveSelector := list Move;
  noAccumulator := 0;
  INFINITE := 32001;
  CHECKMATE := 32000;
  GUARANTEE_CHECKMATE := 31000;
  sideToMove := fun b => if Nat.even (length b) then WHITE else BLACK;
  isDraw := fun b => match b with [3; 2] => true | _ => false end;
  getCheckers := fun _ => false;
  hasNonPawnMaterial := fun _ _ => true;
  insufficientMaterial := fun _ => false;
  isLegalMove := fun _ m => negb (m =? 5);
  makeMove := fun b a m => (m :: b, a + m);
  undoMove := fun b _ => tl b;
  makeNullMove := fun b => 0 :: b;
  undoNullMove := fun b => tl b;
  getPositionKey := Toy.toyKey;
  pieceTypes := fun _ _ => 0;
  getToSquare := fun m => m;
  getMoveType := fun _ => 0;
  EN_PASSANT := 3;
  QUEEN_PROMOTION := 9;
  getFEN := fun b => String.concat " " (map Toy.toyMoveName b);
  moveToString := Toy.toyMoveName;
  evaluation := fun a c =>
    match c with
    | WHITE => Z.max (-1000) (Z.min 1000 a)
    | BLACK => - Z.max (-1000) (Z.min 1000 a)
    end;
  probeTranspositionTable := fun t k =>
    (k, match Toy.toyProbe t k with Some _ => true | None => false end);
  readSlot := fun t k => default Toy.emptyEntry (Toy.toyProbe t k);
  savePositionEvaluation := fun t slot k m d b s e =>
    (k, {| pe_bestMove := m; pe_depth := d; pe_bound := b;
           pe_nodeScore := s; pe_staticEvaluation := e |}) :: t;
  adjustNodeScoreFromTT := fun s _ => s;
  adjustNodeScoreToTT := fun s _ => s;
  createMoveSelector := fun b state _ =>
    match state with
    | TT_MOVE => Toy.pseudoLegal b
    | GET_NON_CAPTURE_MOVES => []
    end;
  getNextBestMove := fun _ ms =>
    match ms with
    | [] => (NO_MOVE, [])
    | m :: r => (m, r)
    end;
  clock := fun n => Z.min (60 * Z.of_nat n) (2 ^ 63)
|}.

#[local] Existing Instance engine.

(** A thread that prints, at the start position. *)
Definition world (budget : Z) : World :=
  mkWorld
    (mkSearchThread (replicate 512 0) [] [] 0 budget 0
       {| mo_move := NO_MOVE; mo_score := 0 |} 0 true false)
    (replicate 256 {| pv := replicate 255 0 |}) 0 [] [].

End BoundedToy.

(** * Reading the journal *)

Section Journal.
Context {E : Engine}.

Definition isStore (e : Event) : bool :=
  match e with
  | EvStore _ => true
  | _ => false
  end.

Definition isPoll (e : Event) : bool :=
  match e with
  | EvPoll _ => true
  | _ => false
  end.

Definition storedWhileStopped (e : Event) : bool :=
  match e with
  | EvStore stopped => stopped
  | _ => false
  end.

Definition isNode (e : Event) : bool :=
  match e with
  | EvNode _ => true
  | _ => false
  end.

(** A search of the root is entered. *)
Definition isRootVisit (e : Event) : bool :=
  match e with
  | EvNode (InAlphaBeta ROOT _) => true
  | _ => false
  end.

(** The number of events of the list that satisfy [p]. *)
Fixpoint tally (p : Event -> bool) (events : list Event) : nat :=
  match events with
  | [] => 0
  | e :: older => (if p e then 1 else 0) + tally p older
  end.

(** No event of the list satisfies [p]. *)
Definition never (p : Event -> bool) (events : list Event) : bool :=
  forallb (fun e => negb (p e)) events.




(** What the journal gained between two worlds satisfies [P]. *)
Definition since (P : list Event -> Prop) (w w' : World) : Prop :=
  exists new, journal w' = new ++ journal w /\ P new.

(** The journal tells what happened to the thread: between two worlds the
    node counter advanced ([uint64_t]) by the number of its [EvNode], the
    clock was read once for each of its [EvPoll], and the table is the same
    if it has no [EvStore]. *)
Definition journalled (w w' : World) : Prop :=
  exists new,
    journal w' = new ++ journal w
    /\ wrap64 (nodes (thread w'))
       = wrap64 (nodes (thread w) + Z.of_nat (tally isNode new))
    /\ ticks w' = (ticks w + tally isPoll new)%nat
    /\ (never isStore new = true -> tt (thread w') = tt (thread w)).

(** The value the specification gives for a mate score, in its own words:
    [(+-CHECKMATE - score + 1) / 2], with the division of C. *)
Definition specMateValue (score : Score) : Score :=
  if score >? 0 then (CHECKMATE - score + 1) ÷ 2
  else (- CHECKMATE - score + 1) ÷ 2.

(** The [score %s %d] fields of an [info] line. *)
Definition scoreFields (o : Output) : option (string * Score) :=
  match o with
  | InfoLine _ type value _ _ _ _ => Some (type, value)
  | BestMoveLine _ _ => None
  end.

Definition isInfoAtDepth (d : Depth) (o : Output) : bool :=
  match o with
  | InfoLine depth _ _ _ _ _ _ => depth =? d
  | BestMoveLine _ _ => false
  end.

Definition returns {A} (r : option A) : bool :=
  match r with
  | Some _ => true
  | None => false
  end.

End Journal.

(** * Describing an iteration of the driver *)

Section Iterations.
Context {E : Engine}.

#[local] Existing Instance SearchHelper_inhabited.

(** The test of line 234 on the score and the world [alphaBeta] returned. *)
Definition accepts (l : Deepening) (score : Score) (w1 : World) : bool :=
  (score >? alphaNow l) && (score <? betaNow l) && negb (stop (thread w1)).

(** The world with the root result committed (lines 238-239). *)
Definition committed (score : Score) (w1 : World) : World :=
  withThread (setBestMove {| mo_move := pvAt (pv (helpers w1 !!! 0%nat)) 0;
                             mo_score := score |}) w1.

(** The world one more reading of the clock later. *)
Definition tick (w : World) : World :=
  mkWorld (thread w) (helpers w) (S (ticks w)) (stdout w) (journal w).

(** The info line [printSearch] writes in the world [w]. *)
Definition infoLine (depth : Depth) (score : Score) (pvString : string) (w : World) : Output :=
  let time := wrap64 (wrap64 (clock (ticks w)) - startNs (thread w)) ÷ 1000000 in
  InfoLine depth (scoreType score) (scoreValue score) (nodes (thread w))
    (wrap64 (nodes (thread w) * 1000) ÷ wrap64 (time + 1)) time pvString.

(** The world an accepted iteration leaves. *)
Definition acceptedWorld (l : Deepening) (score : Score) (w1 : World) : World :=
  let w2 := committed score w1 in
  if print (thread w1)
  then emit (infoLine (depthNow l) score
               (fst (fst (pvToString (pv (helpers w1 !!! 0%nat))))) w2) (tick w2)
  else w2.

Definition acceptedLocals (l : Deepening) (score : Score) (w1 : World) : Deepening :=
  let strings := pvToString (pv (helpers w1 !!! 0%nat)) in
  {| depthNow := depthNow l;
     alphaNow := score - ASPIRATION_WINDOW;
     betaNow := score + ASPIRATION_WINDOW;
     bestMoveStr := snd (fst strings);
     ponderMoveStr := snd strings |}.

Definition rejectedLocals (l : Deepening) (score : Score) : Deepening :=
  {| depthNow := wrap8 (depthNow l - 1);
     alphaNow := if score >? alphaNow l then alphaNow l else - INFINITE;
     betaNow := if score <? betaNow l then betaNow l else INFINITE;
     bestMoveStr := bestMoveStr l;
     ponderMoveStr := ponderMoveStr l |}.

(** The locals and the world an iteration leaves when its search of the root
    has returned [score] in the world [w1]. *)
Definition afterIteration (l : Deepening) (score : Score) (w1 : World)
    : Deepening * World :=
  if accepts l score w1
  then (acceptedLocals l score w1, acceptedWorld l score w1)
  else (rejectedLocals l score, w1).

(** The world [startSearch] enters its loop in: the clock was read once and
    the reading is the start of the search. *)
Definition started (w : World) : World :=
  withThread (setStartNs (wrap64 (clock (ticks w)))) (tick w).

(** Whether the budget of the thread [st] is used up at the [i]-th reading
    of the clock. *)
Definition expiredTick (st : SearchThread) (i : nat) : bool :=
  maxSearchTimeNs st <=? wrap64 (wrap64 (clock i) - startNs st).

(** The selector yields no legal move: within [n] more moves it is
    exhausted, and every move it yields before is not legal. *)
Fixpoint noLegalMoves (n : nat) (b : Board) (ms : MoveSelector) : bool :=
  let next := getNextBestMove b ms in
  (fst next =? NO_MOVE)
  || (negb (isLegalMove b (fst next))
      && match n with
         | O => false
         | S n' => noLegalMoves n' b (snd next)
         end).

(** What the root of a stalemate publishes. *)
Definition stalemateResult : MoveObject :=
  {| mo_move := NO_MOVE; mo_score := DRAW |}.


(** The worlds of a node of [alphaBeta] after line 121 and, when the clock
    is polled, after line 123. *)
Definition counted (node : Node) (sh : nat) (w : World) : World :=
  countNode (InAlphaBeta node (isDraw (board (thread w)))) (resetPV sh w).

Definition polled (node : Node) (sh : nat) (w : World) : World :=
  mkWorld (setStop (expiredTick (thread w) (ticks w)) (thread (counted node sh w)))
    (helpers (counted node sh w)) (S (ticks w)) (stdout w)
    (EvPoll (expiredTick (thread w) (ticks w)) :: journal (counted node sh w)).

(** A run of [m] relates the world it starts in to the one it ends in. *)
Definition respects (R : World -> World -> Prop) {A} (m : M A) : Prop :=
  forall w a w', m w = Some (a, w') -> R w w'.

(** What one poll of the clock answers and leaves. *)
Definition expiredAt (w : World) : bool :=
  maxSearchTimeNs (thread w) <=? wrap64 (wrap64 (clock (ticks w)) - startNs (thread w)).

Definition afterPoll (w : World) : World :=
  mkWorld (setStop (expiredAt w) (thread w)) (helpers w) (S (ticks w))
    (stdout w) (EvPoll (expiredAt w) :: journal w).

(** The ply, an 8-bit counter, is what it was. *)
Definition plyRestored (w w' : World) : Prop :=
  0 <= ply (thread w) < 256 -> ply (thread w') = ply (thread w).

(** The table, the clock and the stop flag are what they were. *)
Definition untouched (w w' : World) : Prop :=
  tt (thread w') = tt (thread w)
  /\ ticks w' = ticks w
  /\ stop (thread w') = stop (thread w).

(** What [alphaBeta] and [quiescenceSearch] never touch. *)
Definition keepsDriverState (w w' : World) : Prop :=
  stdout w' = stdout w
  /\ print (thread w') = print (thread w)
  /\ startNs (thread w') = startNs (thread w)
  /\ maxSearchTimeNs (thread w') = maxSearchTimeNs (thread w)
  /\ bestMove (thread w') = bestMove (thread w).

(** The output only grows. *)
Definition extends (w w' : World) : Prop :=
  exists more, stdout w' = stdout w ++ more.


End Iterations.

(** * Describing more of the code *)

Section Further.
Context {E : Engine}.

#[local] Existing Instance Accumulator_inhabited.
#[local] Existing Instance SearchHelper_inhabited.

(** The stand-pat score of line 77 of the search. *)
Definition standPat (st : SearchThread) : Score :=
  if getCheckers (board st) then - CHECKMATE + ply st
  else evaluation (accumulator st !!! Z.to_nat (ply st)) (sideToMove (board st)).

(** The selector state of line 87. *)
Definition quiescenceState (b : Board) : MoveSelectorState :=
  if getCheckers b then TT_MOVE else GET_NON_CAPTURE_MOVES.

(** The moves of a PV buffer before its terminator. *)
Fixpoint pvLine (l : list Move) : list Move :=
  match l with
  | [] => []
  | m :: r => if m =? NO_MOVE then [] else m :: pvLine r
  end.

(** The buffer holds a terminator. *)
Definition terminated (l : list Move) : bool := existsb (fun m => m =? NO_MOVE) l.

(** The buffer holds a terminated line of at most [d] moves. *)
Definition lineWithin (d : Z) (l : list Move) : bool :=
  terminated l && (Z.of_nat (length (pvLine l)) <=? d).

(** Every helper has a buffer of [size] cells ([MAX_DEPTH] in the C code). *)
Definition helpersSized (size : nat) (hs : list SearchHelper) : bool :=
  forallb (fun h => Nat.eqb (length (pv h)) size) hs.

(** The helpers are as many and as large as before, and the first [n] of them
    hold what they held. *)
Definition keepsHelpers (size n : nat) (w w' : World) : Prop :=
  length (helpers w') = length (helpers w)
  /\ helpersSized size (helpers w') = true
  /\ take n (helpers w') = take n (helpers w).

(** What a search that is entered with helper [sh] and [depth] plies to go
    leaves in the helpers, when their buffers have [size] cells. *)
Definition keepsLines (size : nat)
    (run : Score -> Score -> Depth -> Node -> nat -> M Score) : Prop :=
  forall alpha beta depth node sh w s w',
    0 <= depth <= 255 ->
    depth < Z.of_nat size ->
    (sh + Z.to_nat depth < length (helpers w))%nat ->
    helpersSized size (helpers w) = true ->
    run alpha beta depth node sh w = Some (s, w') ->
    keepsHelpers size sh w w' /\ lineWithin depth (pv (helpers w' !!! sh)) = true.

(** A score strictly between the two infinite bounds. *)
Definition finiteScore (s : Score) : Prop := - INFINITE < s < INFINITE.

(** The board is the one the run was entered with. *)
Definition boardKept (w w' : World) : Prop := board (thread w') = board (thread w).

(** The names of a line as [pvToString] lays them out. *)
Definition lineString (names : list string) : string := String.concat " " names.

(** The lines are info lines of the depths [d], [d + 1], ... *)
Fixpoint depthsFrom (d : Depth) (lines : list Output) : bool :=
  match lines with
  | [] => true
  | o :: r => isInfoAtDepth d o && depthsFrom (d + 1) r
  end.

(** A score of the side to move, seen from White. *)
Definition whiteScore (b : Board) (score : Score) : Score :=
  match sideToMove b with
  | BLACK => - score
  | WHITE => score
  end.

(** The line [writeGameData] prints for a record. *)
Definition toLine (outcome : Outcome) (d : GameData) : TrainingLine :=
  {| lineFen := fen d; lineScore := recordedScore d; lineOutcome := outcome |}.

(** The bestmove line [startSearch] ends with. *)
Definition bestMoveLine (best ponder : string) : Output :=
  BestMoveLine best (if nonEmpty ponder then Some ponder else None).

End Further.

(** * The training driver: the random opening *)

(** The two kinds of moves [createMoveList] is asked for. *)
Inductive MoveGeneration := CAPTURES | NON_CAPTURES.

Definition MAX_RANDOM_MOVES : Z := 10.

#[local] Instance MoveObject_inhabited : Inhabited MoveObject :=
  populate {| mo_move := NO_MOVE; mo_score := 0 |}.

Section RandomOpening.
Context {E : Engine}.

#[local] Existing Instance Accumulator_inhabited.

(** [random64BitNumber(&seed)] of [utility.h]: the number drawn and the seed
    it leaves. *)
Variable random64BitNumber : Z -> Z * Z.

(** [createMoveList(board, list, type)] of [move_generator.h]: the moves it
    appends to the list. *)
Variable createMoveList : Board -> MoveGeneration -> list MoveObject.

(** The position and the accumulator [parseFEN] makes of [START_POS]. *)
Variables (startBoard : Board) (startAccumulator : Accumulator).

(** [swap(mo1, mo2)] on the cells [i] and [j] of a list. *)
Definition swap (i j : nat) (l : list MoveObject) : list MoveObject :=
  <[j := l !!! i]> (<[i := l !!! j]> l).

(** Lines 131-140 of [src/search.h]: the [while] loop.  [size] is
    [moveListSize] and [window] the cells from [startList] on; the result is
    the move that is made, if one is, and the seed. *)
Fixpoint pickMove (b : Board) (size : nat) (window : list MoveObject) (seed : Z)
    : option Move * Z :=
  match size with
  | O => (None, seed)
  | S size' =>
      let drawn := random64BitNumber seed in
      let idx := Z.to_nat (wrap64 (fst drawn) mod Z.of_nat (S size')) in
      let move := mo_move (window !!! idx) in
      if isLegalMove b move then (Some move, snd drawn)
      else pickMove b size' (tail (swap 0 idx window)) (snd drawn)
  end.

(** Lines 126-130: the captures, then the other moves. *)
Definition moveList (b : Board) : list MoveObject :=
  createMoveList b CAPTURES ++ createMoveList b NON_CAPTURES.

(** Lines 126-140: one turn of the [for] loop, on the board, the accumulator
    and the seed. *)
Definition randomMove (state : Board * Accumulator * Z) : Board * Accumulator * Z :=
  let '(b, acc, seed) := state in
  let picked := pickMove b (length (moveList b)) (moveList b) seed in
  match fst picked with
  | Some move =>
      let made := makeMove b acc move in (fst made, snd made, snd picked)
  | None => (b, acc, snd picked)
  end.

(** [numberOfRandomMoves] for the number drawn. *)
Definition numberOfRandomMoves (drawn : Z) : Z := wrap64 drawn mod 6 + 5.

(** [playRandomMoves]. *)
Definition playRandomMoves (b : Board) (acc : Accumulator) (seed : Z)
    : Board * Accumulator * Z :=
  let drawn := random64BitNumber seed in
  Nat.iter (Z.to_nat (numberOfRandomMoves (fst drawn))) randomMove (b, acc, snd drawn).

(** [playRandomGame]; it returns the lines the game appends to the file of
    the thread, and the seed. *)
Definition playRandomGame (fuel n : nat) (junkBest junkPonder : string) (seed : Z)
    : M (list TrainingLine * Z) := fun w =>
  let opening := playRandomMoves startBoard startAccumulator seed in
  let created :=
    withThread (fun st =>
      createSearchThread st (fst (fst opening)) (tt st) (snd (fst opening))
        (1000000000 ÷ 8) false) w in
  match playGame fuel n junkBest junkPonder [] created with
  | Some (lines, w') => Some ((lines, snd opening), w')
  | None => None
  end.

(** The position and the accumulator after the moves, made in their order. *)
Fixpoint replay (b : Board) (acc : Accumulator) (moves : list Move) : Board * Accumulator :=
  match moves with
  | [] => (b, acc)
  | m :: r => let made := makeMove b acc m in replay (fst made) (snd made) r
  end.

(** Every move is a legal move of the list generated for the position it is
    made on. *)
Fixpoint legalLine (b : Board) (acc : Accumulator) (moves : list Move) : bool :=
  match moves with
  | [] => true
  | m :: r =>
      isLegalMove b m
      && existsb (fun mo => mo_move mo =? m) (moveList b)
      && (let made := makeMove b acc m in legalLine (fst made) (snd made) r)
  end.

(** No generated move is legal: the side to move is mated or stalemated. *)
Definition stuck (b : Board) : bool :=
  forallb (fun mo => negb (isLegalMove b (mo_move mo))) (moveList b).

End RandomOpening.

(** * Reasoning about runs *)

Section Runs.
Context {E : Engine}.

Lemma bind_Some {A B} (m : M A) (k : A -> M B) w r :
  bind m k w = Some r ->
  exists a w1, m w = Some (a, w1) /\ k a w1 = Some r.
Proof.
  unfold bind. destruct (m w) as [[a w1]|]; [|discriminate].
  intros H. exists a, w1. split; [reflexivity|exact H].
Qed.

Lemma ret_Some {A} (a : A) w r : ret a w = Some r -> r = (a, w).
Proof. unfold ret. intros H. injection H as <-. reflexivity. Qed.

Lemma get_Some w r : get w = Some r -> r = (w, w).
Proof. unfold get. intros H. injection H as <-. reflexivity. Qed.

Lemma modify_Some f w r : modify f w = Some r -> r = (Datatypes.tt, f w).
Proof. unfold modify. intros H. injection H as <-. reflexivity. Qed.


Section Respects.
Variable R : World -> World -> Prop.
Hypothesis R_refl : forall w, R w w.
Hypothesis R_trans : forall w1 w2 w3, R w1 w2 -> R w2 w3 -> R w1 w3.

Lemma respects_ret {A} (a : A) : respects R (ret a).
Proof. intros w a' w' H. apply ret_Some in H. injection H as _ <-. apply R_refl. Qed.

Lemma respects_fail {A} : respects R (@fail E A).
Proof. intros w a w' H. discriminate H. Qed.

Lemma respects_get : respects R get.
Proof. intros w a w' H. apply get_Some in H. injection H as _ <-. apply R_refl. Qed.

Lemma respects_modify f : (forall w, R w (f w)) -> respects R (modify f).
Proof. intros Hf w a w' H. apply modify_Some in H. injection H as _ ->. apply Hf. Qed.

Lemma respects_bind {A B} (m : M A) (k : A -> M B) :
  respects R m -> (forall a, respects R (k a)) -> respects R (bind m k).
Proof.
  intros Hm Hk w b w' H.
  apply bind_Some in H as (a & w1 & H1 & H2).
  eapply R_trans; [eapply Hm, H1 | eapply Hk, H2].
Qed.

Lemma respects_if {A} (c : bool) (m1 m2 : M A) :
  respects R m1 -> respects R m2 -> respects R (if c then m1 else m2).
Proof. destruct c; auto. Qed.

(** A descent: the world is changed by [down], the callee runs, the world is
    changed back by [up]. *)
Lemma respects_descent {A B} (down up : World -> World) (callee : M A) (k : A -> M B) :
  (forall w w2, R (down w) w2 -> R w (up w2)) ->
  respects R callee ->
  (forall a, respects R (k a)) ->
  respects R (modify down ;; a <- callee ;; modify up ;; k a).
Proof.
  intros Hbr Hc Hk w b w' H.
  apply bind_Some in H as ([] & w1 & H1 & H).
  apply modify_Some in H1. injection H1 as ->.
  apply bind_Some in H as (a & w2 & H2 & H).
  apply bind_Some in H as ([] & w3 & H3 & H).
  apply modify_Some in H3. injection H3 as ->.
  eapply R_trans; [|eapply Hk, H].
  apply Hbr. eapply Hc, H2.
Qed.

Lemma respects_descent2 {A B C} (down up : World -> World)
    (first : M A) (second : A -> M B) (k : B -> M C) :
  (forall w w2, R (down w) w2 -> R w (up w2)) ->
  respects R first ->
  (forall a, respects R (second a)) ->
  (forall b, respects R (k b)) ->
  respects R (modify down ;; a <- first ;; b <- second a ;; modify up ;; k b).
Proof.
  intros Hbr H1st H2nd Hk w c w' H.
  apply bind_Some in H as ([] & w1 & H1 & H).
  apply modify_Some in H1. injection H1 as ->.
  apply bind_Some in H as (a & w2 & H2 & H).
  apply bind_Some in H as (b & w3 & H3 & H).
  apply bind_Some in H as ([] & w4 & H4 & H).
  apply modify_Some in H4. injection H4 as ->.
  eapply R_trans; [|eapply Hk, H].
  apply Hbr. eapply R_trans; [eapply H1st, H2 | eapply H2nd, H3].
Qed.

(** *** Quiescence *)

Hypothesis R_count : forall w, R w (countNode InQuiescence w).
Hypothesis R_move : forall current child move w w2,
  R (descend current child move w) w2 -> R w (ascend move w2).

Lemma quiescenceLoop_respects rec beta current child :
  (forall a b, respects R (rec a b)) ->
  forall n ms alpha bestScore,
    respects R (quiescenceLoop rec beta current child n ms alpha bestScore).
Proof.
  intros Hrec. induction n as [|n IH]; intros ms alpha bestScore; simpl.
  - apply respects_fail.
  - apply respects_bind; [apply respects_get|]. intros w.
    destruct (_ =? NO_MOVE); [apply respects_ret|].
    destruct (negb _); [apply IH|].
    apply respects_descent; [apply R_move | apply Hrec |].
    intros r. repeat apply respects_if; first [apply respects_ret | apply IH].
Qed.

Lemma quiescenceSearch_respects fuel :
  forall alpha beta sh, respects R (quiescenceSearch fuel alpha beta sh).
Proof.
  induction fuel as [|f IH]; intros alpha beta sh; simpl.
  - apply respects_fail.
  - apply respects_bind; [apply respects_modify, R_count|]. intros _.
    apply respects_bind; [apply respects_get|]. intros w.
    destruct (isDraw _); [apply respects_ret|].
    destruct (_ && _); [apply respects_ret|].
    apply quiescenceLoop_respects. intros a b. apply IH.
Qed.

(** *** Alpha-beta *)

Hypothesis R_helpers : forall f w, R w (withHelpers f w).
Hypothesis R_enter : forall node, respects R (enterNode node).
Hypothesis R_store : forall slot key move depth bound s e w,
  stop (thread w) = false -> R w (store slot key move depth bound s e w).
Hypothesis R_null : forall current child w w2,
  R (descendNull current child w) w2 -> R w (ascendNull w2).

Lemma storeUnlessStopped_respects slot key move depth bound s e :
  respects R (storeUnlessStopped slot key move depth bound s e).
Proof.
  intros w a w' H. unfold storeUnlessStopped in H.
  apply bind_Some in H as (w0 & w1 & H1 & H).
  apply get_Some in H1. injection H1 as -> ->.
  destruct (stop (thread w)) eqn:Hs; simpl in H.
  - apply ret_Some in H. injection H as _ ->. apply R_refl.
  - apply modify_Some in H. injection H as _ ->. apply R_store, Hs.
Qed.

Section Callee.
Variable rec : Score -> Score -> Depth -> Node -> nat -> M Score.
Hypothesis rec_respects : forall a b d n sh, respects R (rec a b d n sh).

Lemma nullMovePruning_respects beta depth node sh fr :
  respects R (nullMovePruning rec beta depth node sh fr).
Proof.
  unfold nullMovePruning.
  apply respects_bind; [apply respects_get|]. intros w.
  apply respects_if; [|apply respects_ret].
  apply respects_descent; [apply R_null | apply rec_respects |].
  intros r. apply respects_ret.
Qed.

Lemma pruning_respects beta depth node sh fr :
  respects R (pruning rec beta depth node sh fr).
Proof.
  unfold pruning.
  apply respects_bind; [apply nullMovePruning_respects|]. intros [score|].
  - apply respects_ret.
  - apply respects_if; apply respects_ret.
Qed.

Lemma alphaBetaPrelude_respects beta depth node sh alpha :
  respects R (alphaBetaPrelude rec beta depth node sh alpha).
Proof.
  unfold alphaBetaPrelude.
  apply respects_bind; [apply R_enter|]. intros out.
  apply respects_if; [apply respects_ret|].
  apply respects_bind; [apply respects_get|]. intros w.
  destruct (tableHit _ _ _ _ _); [apply respects_ret | apply pruning_respects].
Qed.

Lemma moveLoop_respects beta depth node sh fr :
  forall n ms legalMoves alpha bestScore best,
    respects R (moveLoop rec beta depth node sh fr n ms legalMoves alpha bestScore best).
Proof.
  induction n as [|n IH]; intros ms legalMoves alpha bestScore best; simpl.
  - apply respects_fail.
  - apply respects_bind; [apply respects_get|]. intros w.
    apply respects_if; [apply respects_ret|].
    apply respects_if; [apply IH|].
    apply respects_if; [apply IH|].
    apply respects_descent2.
    + apply R_move.
    + apply respects_if; [|apply respects_ret].
      apply respects_bind; [apply rec_respects|]. intros r. apply respects_ret.
    + intros nullWindow. apply respects_if; [|apply respects_ret].
      apply respects_bind; [apply rec_respects|]. intros r. apply respects_ret.
    + intros [score|]; [|apply respects_fail].
      apply respects_if; [|apply IH].
      apply respects_if; [|apply IH].
      apply respects_if.
      * apply respects_bind; [apply respects_get|]. intros w0.
        apply respects_bind; [apply storeUnlessStopped_respects|]. intros _.
        apply respects_ret.
      * apply respects_bind; [apply respects_modify; intros w0; apply R_helpers|].
        intros _. apply IH.
Qed.

Lemma alphaBetaMoves_respects beta depth node sh fr n alpha :
  respects R (alphaBetaMoves rec beta depth node sh fr n alpha).
Proof.
  unfold alphaBetaMoves.
  apply respects_bind; [apply respects_get|]. intros w.
  apply respects_bind; [apply moveLoop_respects|]. intros [score|legalMoves bestScore best].
  - apply respects_ret.
  - apply respects_bind; [apply respects_get|]. intros w0.
    apply respects_bind; [apply storeUnlessStopped_respects|]. intros _.
    apply respects_ret.
Qed.

End Callee.

Theorem alphaBeta_respects fuel :
  forall alpha beta depth node sh,
    respects R (alphaBeta fuel alpha beta depth node sh).
Proof.
  induction fuel as [|f IH]; intros alpha beta depth node sh; simpl.
  - apply respects_fail.
  - apply respects_bind; [apply respects_modify; intros w; apply R_helpers|].
    intros _.
    apply respects_if; [apply quiescenceSearch_respects|].
    apply respects_bind; [apply alphaBetaPrelude_respects, IH|].
    intros [score|fr]; [apply respects_ret|].
    apply alphaBetaMoves_respects, IH.
Qed.

End Respects.
End Runs.

(** * Properties of the search *)

Section Properties.
Context {E : Engine}.

#[local] Existing Instance Accumulator_inhabited.
#[local] Existing Instance SearchHelper_inhabited.

(** ** What one poll of the clock does *)


Lemma outOfTime_eq w : outOfTime w = Some (expiredAt w, afterPoll w).
Proof. reflexivity. Qed.

Lemma enterNode_eq node w :
  enterNode node w =
  let counted := countNode (InAlphaBeta node (isDraw (board (thread w)))) w in
  if negb (Node_eqb node ROOT) && isDraw (board (thread w))
  then Some (true, counted)
  else Some (expiredAt counted, afterPoll counted).
Proof.
  unfold enterNode, drawOrOutOfTime, bind, get, modify, ret. simpl.
  destruct (negb (Node_eqb node ROOT) && isDraw (board (thread w))); reflexivity.
Qed.

(** ** The ply is restored *)


Lemma wrap8_up_down p : 0 <= p < 256 -> wrap8 (wrap8 (p + 1) - 1) = p.
Proof.
  intros Hp. unfold wrap8.
  destruct (Z.eq_dec p 255) as [->|Hne]; [reflexivity|].
  rewrite (Z.mod_small (p + 1)) by lia.
  replace (p + 1 - 1) with p by lia. apply Z.mod_small. lia.
Qed.

Lemma wrap8_range x : 0 <= wrap8 x < 256.
Proof. unfold wrap8. apply Z.mod_pos_bound. lia. Qed.

Lemma plyRestored_refl w : plyRestored w w.
Proof. intros _. reflexivity. Qed.

Lemma plyRestored_trans w1 w2 w3 :
  plyRestored w1 w2 -> plyRestored w2 w3 -> plyRestored w1 w3.
Proof.
  unfold plyRestored. intros H12 H23 Hp.
  rewrite <- (H12 Hp). apply H23. rewrite (H12 Hp). exact Hp.
Qed.

Lemma plyRestored_move current child move w w2 :
  plyRestored (descend current child move w) w2 -> plyRestored w (ascend move w2).
Proof.
  unfold plyRestored. simpl. intros H Hp.
  rewrite (H (wrap8_range _)). apply wrap8_up_down, Hp.
Qed.

Lemma plyRestored_null current child w w2 :
  plyRestored (descendNull current child w) w2 -> plyRestored w (ascendNull w2).
Proof.
  unfold plyRestored. simpl. intros H Hp.
  rewrite (H (wrap8_range _)). apply wrap8_up_down, Hp.
Qed.

Lemma plyRestored_enter node : respects plyRestored (enterNode node).
Proof.
  intros w out w' H. rewrite enterNode_eq in H. cbv zeta in H.
  destruct (negb (Node_eqb node ROOT) && isDraw (board (thread w)));
    injection H as _ <-; intros _; reflexivity.
Qed.

(** C8: whatever path [alphaBeta] or [quiescenceSearch] returns by, the ply
    of the thread (an 8-bit counter) is at the return what it was at the
    entry. *)
Theorem ply_restored_on_return fuel alpha beta depth node sh w :
  0 <= ply (thread w) < 256 ->
  (forall s w', alphaBeta fuel alpha beta depth node sh w = Some (s, w') ->
                ply (thread w') = ply (thread w))
  /\ (forall s w', quiescenceSearch fuel alpha beta sh w = Some (s, w') ->
                   ply (thread w') = ply (thread w)).
Proof.
  intros Hp. split; intros s w' H.
  - refine (alphaBeta_respects plyRestored plyRestored_refl plyRestored_trans
              _ plyRestored_move _ plyRestored_enter _ plyRestored_null
              fuel alpha beta depth node sh w s w' H Hp).
    + intros w0 _. reflexivity.
    + intros f w0 _. reflexivity.
    + intros slot key move d b s0 e w0 _ _. reflexivity.
  - refine (quiescenceSearch_respects plyRestored plyRestored_refl plyRestored_trans
              _ plyRestored_move fuel alpha beta sh w s w' H Hp).
    intros w0 _. reflexivity.
Qed.

(** ** What the journal gains during a run *)

Section Since.
Variable P : list Event -> Prop.
Hypothesis P_nil : P [].
Hypothesis P_app : forall newer older, P newer -> P older -> P (newer ++ older).

Lemma since_refl w : since P w w.
Proof. exists []. split; [reflexivity | exact P_nil]. Qed.

Lemma since_trans w1 w2 w3 : since P w1 w2 -> since P w2 w3 -> since P w1 w3.
Proof.
  intros (n1 & H1 & P1) (n2 & H2 & P2). exists (n2 ++ n1). split.
  - rewrite H2, H1. apply app_assoc.
  - apply P_app; assumption.
Qed.

Lemma since_same_journal w w2 w' :
  journal w2 = journal w -> since P w2 w' -> since P w w'.
Proof. intros Hj (new & H & HP). exists new. rewrite <- Hj. auto. Qed.

Lemma since_move current child move w w2 :
  since P (descend current child move w) w2 -> since P w (ascend move w2).
Proof. intros (new & H & HP). exists new. split; [exact H | exact HP]. Qed.

Lemma since_null current child w w2 :
  since P (descendNull current child w) w2 -> since P w (ascendNull w2).
Proof. intros (new & H & HP). exists new. split; [exact H | exact HP]. Qed.

Hypothesis P_quiescence : P [EvNode InQuiescence].

Lemma quiescenceSearch_since fuel alpha beta sh :
  respects (since P) (quiescenceSearch fuel alpha beta sh).
Proof.
  apply quiescenceSearch_respects.
  - exact since_refl.
  - exact since_trans.
  - intros w. exists [EvNode InQuiescence]. split; [reflexivity | exact P_quiescence].
  - exact since_move.
Qed.

Hypothesis P_drawn : forall node drawn,
  negb (Node_eqb node ROOT) && drawn = true -> P [EvNode (InAlphaBeta node drawn)].
Hypothesis P_polled : forall node drawn expired,
  negb (Node_eqb node ROOT) && drawn = false ->
  P [EvPoll expired; EvNode (InAlphaBeta node drawn)].
Hypothesis P_store : P [EvStore false].

Lemma enterNode_since node : respects (since P) (enterNode node).
Proof.
  intros w out w' H. rewrite enterNode_eq in H. cbv zeta in H.
  destruct (negb (Node_eqb node ROOT) && isDraw (board (thread w))) eqn:Hd;
    injection H as _ <-.
  - exists [EvNode (InAlphaBeta node (isDraw (board (thread w))))].
    split; [reflexivity | apply P_drawn, Hd].
  - eexists [EvPoll _; EvNode (InAlphaBeta node (isDraw (board (thread w))))].
    split; [reflexivity | apply P_polled, Hd].
Qed.

Lemma alphaBeta_since fuel alpha beta depth node sh :
  respects (since P) (alphaBeta fuel alpha beta depth node sh).
Proof.
  apply alphaBeta_respects.
  - exact since_refl.
  - exact since_trans.
  - intros w. exists [EvNode InQuiescence]. split; [reflexivity | exact P_quiescence].
  - exact since_move.
  - intros f w. exists []. split; [reflexivity | exact P_nil].
  - exact enterNode_since.
  - intros slot key move d b s0 e w Hstop. exists [EvStore false]. split.
    + simpl. rewrite Hstop. reflexivity.
    + exact P_store.
  - exact since_null.
Qed.

End Since.

Lemma never_app p newer older :
  never p newer = true -> never p older = true -> never p (newer ++ older) = true.
Proof. unfold never. intros H1 H2. rewrite forallb_app, H1, H2. reflexivity. Qed.

(** ** Quiescence leaves the table, the clock and the stop flag alone *)


Lemma quiescenceSearch_untouched fuel alpha beta sh :
  respects untouched (quiescenceSearch fuel alpha beta sh).
Proof.
  apply quiescenceSearch_respects.
  - intros w. repeat split.
  - intros w1 w2 w3 (A1 & B1 & C1) (A2 & B2 & C2).
    repeat split; etransitivity; eassumption.
  - intros w. repeat split.
  - intros current child move w w2 (A & B & C). repeat split; assumption.
Qed.

(** C3: a run of [alphaBeta] never stores into the table while the stop flag
    is set, and a run of [quiescenceSearch] neither stores nor changes the
    table. *)
Theorem no_store_while_stopped fuel alpha beta depth node sh w s w' :
  (alphaBeta fuel alpha beta depth node sh w = Some (s, w') ->
   since (fun new => never storedWhileStopped new = true) w w')
  /\ (quiescenceSearch fuel alpha beta sh w = Some (s, w') ->
      since (fun new => never isStore new = true) w w'
      /\ tt (thread w') = tt (thread w)).
Proof.
  split; intros H.
  - revert H. apply alphaBeta_since; try reflexivity.
    apply never_app.
  - split.
    + revert H. apply quiescenceSearch_since; try reflexivity.
      apply never_app.
    + apply (quiescenceSearch_untouched _ _ _ _ _ _ _ H).
Qed.

(** ** The journal is faithful *)

Lemma tally_app p newer older :
  tally p (newer ++ older) = (tally p newer + tally p older)%nat.
Proof. induction newer as [|e newer IH]; simpl; [reflexivity | rewrite IH; lia]. Qed.

Lemma never_app_inv p newer older :
  never p (newer ++ older) = true ->
  never p newer = true /\ never p older = true.
Proof. unfold never. rewrite forallb_app. apply andb_true_iff. Qed.

Lemma journalled_refl w : journalled w w.
Proof.
  exists []. split; [reflexivity|]. split; [|split].
  - simpl. rewrite Z.add_0_r. reflexivity.
  - simpl. lia.
  - intros _. reflexivity.
Qed.

Lemma journalled_trans w1 w2 w3 :
  journalled w1 w2 -> journalled w2 w3 -> journalled w1 w3.
Proof.
  intros (n1 & J1 & N1 & T1 & S1) (n2 & J2 & N2 & T2 & S2).
  exists (n2 ++ n1). split; [|split; [|split]].
  - rewrite J2, J1. apply app_assoc.
  - rewrite N2, tally_app. unfold wrap64 in *.
    rewrite <- Z.add_mod_idemp_l, N1, Z.add_mod_idemp_l by lia.
    f_equal. lia.
  - rewrite T2, T1, tally_app. lia.
  - intros Hnever. apply never_app_inv in Hnever as [H2 H1].
    rewrite (S2 H2). apply S1, H1.
Qed.

Lemma journalled_quiet w w' :
  journal w' = journal w ->
  nodes (thread w') = nodes (thread w) ->
  ticks w' = ticks w ->
  tt (thread w') = tt (thread w) ->
  journalled w w'.
Proof.
  intros J N T S. exists []. split; [exact J|]. split; [|split].
  - simpl. rewrite N, Z.add_0_r. reflexivity.
  - simpl. lia.
  - intros _. exact S.
Qed.

Lemma journalled_counted v w : journalled w (countNode v w).
Proof.
  exists [EvNode v]. split; [reflexivity|]. split; [|split].
  - simpl. unfold wrap64. rewrite Z.mod_mod by lia. reflexivity.
  - simpl. lia.
  - intros _. reflexivity.
Qed.

(** In any run of [alphaBeta] the journal accounts for the node counter,
    for the readings of the clock and for the changes of the table. *)
Lemma alphaBeta_journalled fuel alpha beta depth node sh :
  respects journalled (alphaBeta fuel alpha beta depth node sh).
Proof.
  apply alphaBeta_respects.
  - exact journalled_refl.
  - exact journalled_trans.
  - intros w. apply journalled_counted.
  - intros current child move w w2 (new & J & N & T & S).
    exists new. split; [exact J|]. split; [exact N|]. split; [exact T | exact S].
  - intros f w. apply journalled_quiet; reflexivity.
  - intros nd w out w' H. rewrite enterNode_eq in H. cbv zeta in H.
    destruct (negb (Node_eqb nd ROOT) && isDraw (board (thread w)));
      injection H as _ <-.
    + apply journalled_counted.
    + eexists [EvPoll _; EvNode _]. split; [reflexivity|]. split; [|split].
      * simpl. unfold wrap64. rewrite Z.mod_mod by lia. reflexivity.
      * simpl. lia.
      * intros _. reflexivity.
  - intros slot key move d b s0 e w Hstop. exists [EvStore (stop (thread w))].
    split; [reflexivity|]. split; [|split].
    + simpl. rewrite Z.add_0_r. reflexivity.
    + simpl. lia.
    + discriminate.
  - intros current child w w2 (new & J & N & T & S).
    exists new. split; [exact J|]. split; [exact N|]. split; [exact T | exact S].
Qed.

(** ** Where the clock is polled *)




(** ** The steps of [alphaBeta] *)

Lemma alphaBeta_S f alpha beta depth node sh w :
  alphaBeta (S f) alpha beta depth node sh w =
  if depth =? 0 then quiescenceSearch f alpha beta sh (resetPV sh w)
  else
    (pre <- alphaBetaPrelude (alphaBeta f) beta depth node sh alpha ;;
     match pre with
     | inl score => ret score
     | inr fr => alphaBetaMoves (alphaBeta f) beta depth node sh fr f alpha
     end) (resetPV sh w).
Proof. simpl. unfold bind at 1. unfold modify. destruct (depth =? 0); reflexivity. Qed.

Lemma enterNode_polled node sh w :
  negb (Node_eqb node ROOT) && isDraw (board (thread w)) = false ->
  enterNode node (resetPV sh w) =
  Some (expiredTick (thread w) (ticks w), polled node sh w).
Proof.
  intros Hd. rewrite enterNode_eq. cbv zeta.
  change (board (thread (resetPV sh w))) with (board (thread w)).
  rewrite Hd. reflexivity.
Qed.

Lemma alphaBetaPrelude_eq rec beta depth node sh alpha w :
  alphaBetaPrelude rec beta depth node sh alpha w =
  match enterNode node w with
  | Some (true, w1) => Some (inl DRAW, w1)
  | Some (false, w1) =>
      match tableHit beta depth node (thread w1) alpha with
      | Some nodeScore => Some (inl nodeScore, w1)
      | None => pruning rec beta depth node sh (frameOf (thread w1)) w1
      end
  | None => None
  end.
Proof.
  unfold alphaBetaPrelude. unfold bind at 1.
  destruct (enterNode node w) as [[[] w1]|]; try reflexivity.
  unfold bind, get. destruct (tableHit beta depth node (thread w1) alpha); reflexivity.
Qed.

Lemma pruning_frame rec beta depth node sh fr w fr' w' :
  pruning rec beta depth node sh fr w = Some (inr fr', w') -> fr' = fr.
Proof.
  unfold pruning. intros H.
  apply bind_Some in H as ([score|] & w1 & _ & H).
  - apply ret_Some in H. discriminate H.
  - destruct (_ && _ && _) in H; apply ret_Some in H;
      [discriminate H | injection H as -> _; reflexivity].
Qed.

(** C2: at a node that is not left by the draw test or the clock, a hit of
    the table returns at once exactly when the node is [NON_PV], the depth
    of the entry is at least the remaining depth, and the bound is [EXACT],
    or [LOWER] with the ply-adjusted score at least beta, or [UPPER] with it
    at most alpha.  In any other case of a hit the search goes on: the
    pruning steps run, and unless they return, the loop over the moves runs
    on the selector created with the best move of the entry as its TT move,
    and its result is stored and returned. *)
Theorem table_hit_cutoff f alpha beta depth node sh w slot :
  depth <> 0 ->
  negb (Node_eqb node ROOT) && isDraw (board (thread w)) = false ->
  expiredTick (thread w) (ticks w) = false ->
  probeTranspositionTable (tt (thread w)) (getPositionKey (board (thread w)))
    = (slot, true) ->
  let w1 := polled node sh w in
  let entry := readSlot (tt (thread w)) slot in
  let s := adjustNodeScoreFromTT (pe_nodeScore entry) (ply (thread w)) in
  let fr := frameOf (thread w1) in
  ttMove fr = pe_bestMove entry
  /\ alphaBeta (S f) alpha beta depth node sh w =
     if Node_eqb node NON_PV && (depth <=? pe_depth entry)
        && match pe_bound entry with
           | EXACT => true
           | LOWER => beta <=? s
           | UPPER => s <=? alpha
           end
     then Some (s, w1)
     else
       (pre <- pruning (alphaBeta f) beta depth node sh fr ;;
        match pre with
        | inl score => ret score
        | inr _ =>
            w2 <- get ;;
            exit <- moveLoop (alphaBeta f) beta depth node sh fr f
                      (createMoveSelector (board (thread w2)) TT_MOVE
                         (pe_bestMove entry))
                      0 alpha (- INFINITE) NO_MOVE ;;
            match exit with
            | BetaCutoff score => ret score
            | Exhausted legalMoves bestScore best =>
                w3 <- get ;;
                let bestScore :=
                  if legalMoves =? 0
                  then (if checkers fr then - CHECKMATE + ply (thread w3) else DRAW)
                  else bestScore in
                storeUnlessStopped (pe fr) (positionKey fr) best depth
                  (if bestScore >? alpha then EXACT else UPPER)
                  (adjustNodeScoreToTT
                     (if bestScore =? - INFINITE then staticEvaluation fr
                      else bestScore)
                     (ply (thread w3)))
                  (staticEvaluation fr) ;;
                ret bestScore
            end
        end) w1.
Proof.
  intros Hdepth Hdraw Hclock Hprobe. cbv zeta.
  assert (Hfr : probeTranspositionTable (tt (thread (polled node sh w)))
                  (getPositionKey (board (thread (polled node sh w)))) = (slot, true))
    by exact Hprobe.
  assert (Hhint : ttMove (frameOf (thread (polled node sh w)))
                  = pe_bestMove (readSlot (tt (thread w)) slot)).
  { unfold frameOf. cbn [ttMove]. rewrite Hfr. reflexivity. }
  split; [exact Hhint|].
  rewrite <- Hhint.
  change (w2 <- get ;;
          exit <- moveLoop (alphaBeta f) beta depth node sh
                    (frameOf (thread (polled node sh w))) f
                    (createMoveSelector (board (thread w2)) TT_MOVE
                       (ttMove (frameOf (thread (polled node sh w)))))
                    0 alpha (- INFINITE) NO_MOVE ;;
          match exit with
          | BetaCutoff score => ret score
          | Exhausted legalMoves bestScore best =>
              w3 <- get ;;
              let bestScore :=
                if legalMoves =? 0
                then (if checkers (frameOf (thread (polled node sh w)))
                      then - CHECKMATE + ply (thread w3) else DRAW)
                else bestScore in
              storeUnlessStopped (pe (frameOf (thread (polled node sh w))))
                (positionKey (frameOf (thread (polled node sh w)))) best depth
                (if bestScore >? alpha then EXACT else UPPER)
                (adjustNodeScoreToTT
                   (if bestScore =? - INFINITE
                    then staticEvaluation (frameOf (thread (polled node sh w)))
                    else bestScore)
                   (ply (thread w3)))
                (staticEvaluation (frameOf (thread (polled node sh w)))) ;;
              ret bestScore
          end)
    with (alphaBetaMoves (alphaBeta f) beta depth node sh
            (frameOf (thread (polled node sh w))) f alpha).
  rewrite alphaBeta_S. destruct (Z.eqb_spec depth 0) as [H0|_]; [contradiction|].
  unfold bind at 1. rewrite alphaBetaPrelude_eq, (enterNode_polled _ _ _ Hdraw), Hclock.
  unfold tableHit. rewrite Hfr. cbn [fst snd]. unfold tableCutoff.
  change (readSlot (tt (thread (polled node sh w))) slot)
    with (readSlot (tt (thread w)) slot).
  change (ply (thread (polled node sh w))) with (ply (thread w)).
  replace (negb (negb (Node_eqb node NON_PV))) with (Node_eqb node NON_PV)
    by (destruct node; reflexivity).
  replace (pe_depth (readSlot (tt (thread w)) slot) >=? depth)
    with (depth <=? pe_depth (readSlot (tt (thread w)) slot))
    by (rewrite Z.geb_leb; reflexivity).
  replace (Bound_eqb (pe_bound (readSlot (tt (thread w)) slot)) EXACT
           || (if Bound_eqb (pe_bound (readSlot (tt (thread w)) slot)) LOWER
               then adjustNodeScoreFromTT
                      (pe_nodeScore (readSlot (tt (thread w)) slot))
                      (ply (thread w)) >=? beta
               else adjustNodeScoreFromTT
                      (pe_nodeScore (readSlot (tt (thread w)) slot))
                      (ply (thread w)) <=? alpha))
    with (match pe_bound (readSlot (tt (thread w)) slot) with
          | EXACT => true
          | LOWER => beta <=? adjustNodeScoreFromTT
                                (pe_nodeScore (readSlot (tt (thread w)) slot))
                                (ply (thread w))
          | UPPER => adjustNodeScoreFromTT
                       (pe_nodeScore (readSlot (tt (thread w)) slot))
                       (ply (thread w)) <=? alpha
          end)
    by (destruct (pe_bound _); simpl; try reflexivity;
        rewrite Z.geb_leb; reflexivity).
  destruct (Node_eqb node NON_PV && _); cbn [andb].
  + destruct (match pe_bound _ with EXACT => _ | LOWER => _ | UPPER => _ end);
      [reflexivity|].
    unfold bind at 1. unfold bind at 2.
    destruct (pruning _ _ _ _ _ _ _) as [[[score|fr'] w2]|] eqn:Hpr; try reflexivity.
    apply pruning_frame in Hpr. rewrite Hpr. reflexivity.
  + unfold bind at 1. unfold bind at 2.
    destruct (pruning _ _ _ _ _ _ _) as [[[score|fr'] w2]|] eqn:Hpr; try reflexivity.
    apply pruning_frame in Hpr. rewrite Hpr. reflexivity.
Qed.

(** ** A node without a legal move *)

Lemma moveLoop_noLegalMoves rec beta depth node sh fr k :
  forall n ms legalMoves alpha bestScore best w,
    noLegalMoves k (board (thread w)) ms = true ->
    (k < n)%nat ->
    moveLoop rec beta depth node sh fr n ms legalMoves alpha bestScore best w
    = Some (Exhausted legalMoves bestScore best, w).
Proof.
  induction k as [|k IH]; intros n ms legalMoves alpha bestScore best w Hno Hn;
    (destruct n as [|n]; [lia|]); simpl in Hno |- *;
    unfold bind at 1; unfold get at 1; cbv beta iota;
    destruct (fst (getNextBestMove (board (thread w)) ms) =? NO_MOVE);
    try reflexivity; simpl in Hno.
  - rewrite andb_false_r in Hno. discriminate Hno.
  - apply andb_true_iff in Hno as [Hillegal Hno]. rewrite Hillegal.
    apply IH; [exact Hno | lia].
Qed.

Lemma storeUnlessStopped_returns slot key move depth bound s e w :
  exists w', storeUnlessStopped slot key move depth bound s e w = Some (Datatypes.tt, w').
Proof.
  unfold storeUnlessStopped, bind, get.
  destruct (negb (stop (thread w))); eexists; reflexivity.
Qed.

Lemma alphaBetaMoves_noLegalMoves rec beta depth node sh fr k n alpha w :
  noLegalMoves k (board (thread w))
    (createMoveSelector (board (thread w)) TT_MOVE (ttMove fr)) = true ->
  (k < n)%nat ->
  alphaBetaMoves rec beta depth node sh fr n alpha w =
  (let bestScore := if checkers fr then - CHECKMATE + ply (thread w) else DRAW in
   storeUnlessStopped (pe fr) (positionKey fr) NO_MOVE depth
     (if bestScore >? alpha then EXACT else UPPER)
     (adjustNodeScoreToTT
        (if bestScore =? - INFINITE then staticEvaluation fr else bestScore)
        (ply (thread w)))
     (staticEvaluation fr) ;;
   ret bestScore) w.
Proof.
  intros Hno Hn. unfold alphaBetaMoves.
  unfold bind at 1. unfold get at 1. cbv beta iota.
  unfold bind at 1.
  rewrite (moveLoop_noLegalMoves rec beta depth node sh fr k n _ _ _ _ _ w Hno Hn).
  reflexivity.
Qed.

Lemma alphaBetaPrelude_frame f beta depth node sh alpha w fr w1 :
  alphaBetaPrelude (alphaBeta f) beta depth node sh alpha w = Some (inr fr, w1) ->
  checkers fr = getCheckers (board (thread w)).
Proof.
  rewrite alphaBetaPrelude_eq, enterNode_eq. cbv zeta.
  destruct (negb (Node_eqb node ROOT) && isDraw (board (thread w))); [discriminate|].
  destruct (expiredAt _); [discriminate|].
  destruct (tableHit _ _ _ _ _); [discriminate|].
  intros H. apply pruning_frame in H. rewrite H. reflexivity.
Qed.

(** C7: a call of [alphaBeta] with [depth > 0] that reaches the loop over
    the moves at a position whose selector yields no legal move returns, it
    is no error: the score is [-CHECKMATE + ply] when the side to move is in
    check and [DRAW] when it is not. *)
Theorem no_legal_moves_score f k alpha beta depth node sh w fr w1 :
  depth <> 0 ->
  0 <= ply (thread w) < 256 ->
  alphaBetaPrelude (alphaBeta f) beta depth node sh alpha (resetPV sh w)
    = Some (inr fr, w1) ->
  noLegalMoves k (board (thread w1))
    (createMoveSelector (board (thread w1)) TT_MOVE (ttMove fr)) = true ->
  (k < f)%nat ->
  exists w',
    alphaBeta (S f) alpha beta depth node sh w =
    Some (if getCheckers (board (thread w))
          then - CHECKMATE + ply (thread w)
          else DRAW, w').
Proof.
  intros Hdepth Hply Hpre Hno Hk.
  assert (Hply1 : ply (thread w1) = ply (thread w)).
  { refine (alphaBetaPrelude_respects plyRestored plyRestored_refl plyRestored_trans
              plyRestored_enter plyRestored_null (alphaBeta f) _
              beta depth node sh alpha _ _ _ Hpre Hply).
    intros a b d nd s0.
    apply (alphaBeta_respects plyRestored plyRestored_refl plyRestored_trans).
    - intros w0 _. reflexivity.
    - exact plyRestored_move.
    - intros g w0 _. reflexivity.
    - exact plyRestored_enter.
    - intros slot key move d0 b0 s1 e w0 _ _. reflexivity.
    - exact plyRestored_null. }
  pose proof (alphaBetaPrelude_frame _ _ _ _ _ _ _ _ _ Hpre) as Hcheck.
  change (board (thread (resetPV sh w))) with (board (thread w)) in Hcheck.
  rewrite alphaBeta_S. destruct (Z.eqb_spec depth 0) as [H0|_]; [contradiction|].
  unfold bind at 1. rewrite Hpre.
  rewrite (alphaBetaMoves_noLegalMoves _ _ _ _ _ _ k f _ _ Hno Hk).
  cbv zeta. rewrite Hcheck, Hply1.
  unfold bind at 1.
  match goal with
  | |- context [storeUnlessStopped ?a ?b ?c ?d ?e ?g ?h ?x] =>
      destruct (storeUnlessStopped_returns a b c d e g h x) as (w' & Hst)
  end.
  rewrite Hst. exists w'. reflexivity.
Qed.

(** ** The loop of [startSearch], one step at a time *)

Lemma deepen_depth_overflow fuel n l w :
  depthNow l = 0 -> deepen fuel (S n) l w = Some (l, w).
Proof. intros Hd. simpl. rewrite Hd. reflexivity. Qed.

Lemma deepen_out_of_time fuel n l w :
  depthNow l <> 0 -> expiredAt w = true ->
  deepen fuel (S n) l w = Some (l, afterPoll w).
Proof.
  intros Hd Hx. simpl. destruct (Z.eqb_spec (depthNow l) 0) as [H0|_]; [contradiction|].
  unfold bind. rewrite outOfTime_eq, Hx. reflexivity.
Qed.

Lemma deepen_in_time fuel n l w :
  depthNow l <> 0 -> expiredAt w = false ->
  deepen fuel (S n) l w =
  (l' <- iteration fuel l ;; deepen fuel n (nextDepth l')) (afterPoll w).
Proof.
  intros Hd Hx. simpl. destruct (Z.eqb_spec (depthNow l) 0) as [H0|_]; [contradiction|].
  unfold bind at 1. rewrite outOfTime_eq, Hx. reflexivity.
Qed.

Lemma iteration_eq fuel l w0 score w1 :
  alphaBeta fuel (alphaNow l) (betaNow l) (depthNow l) ROOT 0 w0 = Some (score, w1) ->
  iteration fuel l w0 =
  if accepts l score w1
  then Some (acceptedLocals l score w1, acceptedWorld l score w1)
  else Some (rejectedLocals l score, w1).
Proof.
  intros Hrun. unfold iteration. unfold bind at 1. rewrite Hrun.
  unfold bind at 1. unfold get at 1. cbv beta iota. fold (accepts l score w1).
  destruct (accepts l score w1); [|reflexivity].
  unfold acceptedWorld. destruct (print (thread w1)); reflexivity.
Qed.

Lemma deepen_iteration fuel n l w score w1 :
  depthNow l <> 0 ->
  expiredAt w = false ->
  alphaBeta fuel (alphaNow l) (betaNow l) (depthNow l) ROOT 0 (afterPoll w)
    = Some (score, w1) ->
  deepen fuel (S n) l w =
  if accepts l score w1
  then deepen fuel n (nextDepth (acceptedLocals l score w1)) (acceptedWorld l score w1)
  else deepen fuel n (nextDepth (rejectedLocals l score)) w1.
Proof.
  intros Hd Hx Hrun. rewrite deepen_in_time by assumption.
  unfold bind at 1. rewrite (iteration_eq _ _ _ _ _ Hrun).
  destruct (accepts l score w1); reflexivity.
Qed.


Lemma keepsDriverState_refl w : keepsDriverState w w.
Proof. repeat split. Qed.

Lemma keepsDriverState_trans w1 w2 w3 :
  keepsDriverState w1 w2 -> keepsDriverState w2 w3 -> keepsDriverState w1 w3.
Proof.
  intros (A1 & B1 & C1 & D1 & F1) (A2 & B2 & C2 & D2 & F2).
  repeat split; etransitivity; eassumption.
Qed.

Lemma alphaBeta_keepsDriverState fuel alpha beta depth node sh :
  respects keepsDriverState (alphaBeta fuel alpha beta depth node sh).
Proof.
  apply alphaBeta_respects.
  - exact keepsDriverState_refl.
  - exact keepsDriverState_trans.
  - intros w. repeat split.
  - intros current child move w w2 (A & B & C & D & F). repeat split; assumption.
  - intros f w. repeat split.
  - intros nd w out w' H. rewrite enterNode_eq in H. cbv zeta in H.
    destruct (negb (Node_eqb nd ROOT) && isDraw (board (thread w)));
      injection H as _ <-; repeat split.
  - intros slot key move d b s0 e w _. repeat split.
  - intros current child w w2 (A & B & C & D & F). repeat split; assumption.
Qed.


Lemma extends_refl w : extends w w.
Proof. exists []. symmetry. apply app_nil_r. Qed.

Lemma extends_trans w1 w2 w3 : extends w1 w2 -> extends w2 w3 -> extends w1 w3.
Proof.
  intros (m1 & H1) (m2 & H2). exists (m1 ++ m2).
  rewrite H2, H1. symmetry. apply app_assoc.
Qed.

Lemma acceptedWorld_stdout l score w1 :
  stdout (acceptedWorld l score w1) =
  stdout w1 ++
  (if print (thread w1)
   then [infoLine (depthNow l) score
           (fst (fst (pvToString (pv (helpers w1 !!! 0%nat))))) (committed score w1)]
   else []).
Proof.
  unfold acceptedWorld. destruct (print (thread w1)); simpl;
    [reflexivity | symmetry; apply app_nil_r].
Qed.

Lemma iteration_extends fuel l : respects extends (iteration fuel l).
Proof.
  intros w l' w' H.
  destruct (alphaBeta fuel (alphaNow l) (betaNow l) (depthNow l) ROOT 0 w)
    as [[score w1]|] eqn:Hrun;
    [|unfold iteration, bind in H; rewrite Hrun in H; discriminate H].
  pose proof (alphaBeta_keepsDriverState _ _ _ _ _ _ _ _ _ Hrun) as (Hout & _).
  rewrite (iteration_eq _ _ _ _ _ Hrun) in H.
  destruct (accepts l score w1); injection H as _ <-.
  - exists (if print (thread w1)
            then [infoLine (depthNow l) score
                    (fst (fst (pvToString (pv (helpers w1 !!! 0%nat)))))
                    (committed score w1)]
            else []).
    rewrite acceptedWorld_stdout, Hout. reflexivity.
  - exists []. rewrite Hout. symmetry. apply app_nil_r.
Qed.

Lemma deepen_extends fuel n : forall l, respects extends (deepen fuel n l).
Proof.
  induction n as [|n IH]; intros l w l' w' H; [discriminate H|].
  destruct (Z.eq_dec (depthNow l) 0) as [Hd|Hd].
  - rewrite deepen_depth_overflow in H by exact Hd.
    injection H as _ <-. apply extends_refl.
  - destruct (expiredAt w) eqn:Hx.
    + rewrite deepen_out_of_time in H by assumption.
      injection H as _ <-. exists []. simpl. symmetry. apply app_nil_r.
    + rewrite deepen_in_time in H by assumption.
      apply bind_Some in H as (l1 & w1 & H1 & H2).
      apply (extends_trans _ (afterPoll w));
        [exists []; simpl; symmetry; apply app_nil_r|].
      eapply extends_trans; [eapply iteration_extends, H1 | eapply IH, H2].
Qed.

Lemma wrap8_down_up d : 1 <= d <= 255 -> wrap8 (wrap8 (d - 1) + 1) = d.
Proof.
  intros Hd. unfold wrap8.
  rewrite (Z.mod_small (d - 1)) by lia.
  replace (d - 1 + 1) with d by lia. apply Z.mod_small. lia.
Qed.

Lemma startSearch_eq fuel junkBest junkPonder w :
  startSearch fuel junkBest junkPonder w =
  match deepen fuel fuel (firstIteration junkBest junkPonder) (started w) with
  | Some (l, w1) =>
      Some (bestMove (thread w1),
            if print (thread w1)
            then emit (BestMoveLine (bestMoveStr l)
                         (if nonEmpty (ponderMoveStr l)
                          then Some (ponderMoveStr l) else None)) w1
            else w1)
  | None => None
  end.
Proof.
  unfold startSearch. unfold bind at 1. unfold getTimeNs.
  unfold bind at 1. unfold modify at 1. unfold bind at 1.
  change (deepen fuel fuel (firstIteration junkBest junkPonder)
            (withThread (setStartNs (wrap64 (clock (ticks w))))
               (mkWorld (thread w) (helpers w) (S (ticks w)) (stdout w) (journal w))))
    with (deepen fuel fuel (firstIteration junkBest junkPonder) (started w)).
  destruct (deepen fuel fuel (firstIteration junkBest junkPonder) (started w))
    as [[l w1]|]; [|reflexivity].
  unfold bind, get. destruct (print (thread w1)); reflexivity.
Qed.

(** One turn of the loop of [startSearch], with the search of the root. *)
Lemma deepen_turn fuel n l w :
  deepen fuel (S n) l w =
  if depthNow l =? 0 then Some (l, w)
  else if expiredAt w then Some (l, afterPoll w)
  else match alphaBeta fuel (alphaNow l) (betaNow l) (depthNow l) ROOT 0 (afterPoll w) with
       | Some (score, w1) =>
           deepen fuel n (nextDepth (fst (afterIteration l score w1)))
             (snd (afterIteration l score w1))
       | None => None
       end.
Proof.
  destruct (Z.eqb_spec (depthNow l) 0) as [Hd|Hd];
    [apply deepen_depth_overflow; exact Hd|].
  destruct (expiredAt w) eqn:Hx; [apply deepen_out_of_time; assumption|].
  destruct (alphaBeta fuel (alphaNow l) (betaNow l) (depthNow l) ROOT 0 (afterPoll w))
    as [[score w1]|] eqn:Hrun.
  - rewrite (deepen_iteration fuel n l w score w1 Hd Hx Hrun).
    unfold afterIteration. destruct (accepts l score w1); reflexivity.
  - rewrite deepen_in_time by assumption.
    unfold bind, iteration, bind. rewrite Hrun. reflexivity.
Qed.

(** C1: [startSearch] enters its loop with the window [[-INFINITE, INFINITE]].
    An iteration that is entered in time and whose search of the root returns
    is accepted exactly when the score lies strictly between alpha and beta
    and the stop flag is clear.  Then the root move and score are committed,
    the PV is rendered and the info line is printed if [print] is set; the
    loop ends if the depth overflows or the next poll of the clock finds the
    budget used up, and otherwise searches one depth deeper with the window
    [[score - 25, score + 25]].  An iteration that is not accepted commits
    and prints nothing; the bound the score went through is reset to its
    infinite value and the other one kept (both are kept when the score is
    inside the window and only the stop flag rejects it); the loop ends if
    the next poll finds the budget used up, and only otherwise searches the
    same depth again, with these bounds. *)
Theorem aspiration_window_step fuel n l w score w1 junkBest junkPonder w0 :
  1 <= depthNow l <= 255 ->
  expiredAt w = false ->
  alphaBeta fuel (alphaNow l) (betaNow l) (depthNow l) ROOT 0 (afterPoll w)
    = Some (score, w1) ->
  startSearch fuel junkBest junkPonder w0 =
  match deepen fuel fuel {| depthNow := 1;
                            alphaNow := - INFINITE;
                            betaNow := INFINITE;
                            bestMoveStr := junkBest;
                            ponderMoveStr := junkPonder |} (started w0) with
  | Some (last, wl) =>
      Some (bestMove (thread wl),
            if print (thread wl)
            then emit (bestMoveLine (bestMoveStr last) (ponderMoveStr last)) wl
            else wl)
  | None => None
  end
  /\ if (score >? alphaNow l) && (score <? betaNow l) && negb (stop (thread w1))
     then
       let rootPV := pv (helpers w1 !!! 0%nat) in
       let w' := acceptedWorld l score w1 in
       let next := {| depthNow := wrap8 (depthNow l + 1);
                      alphaNow := score - 25;
                      betaNow := score + 25;
                      bestMoveStr := snd (fst (pvToString rootPV));
                      ponderMoveStr := snd (pvToString rootPV) |} in
       bestMove (thread w') = {| mo_move := pvAt rootPV 0; mo_score := score |}
       /\ stdout w' =
          stdout w1 ++
          (if print (thread w1)
           then [infoLine (depthNow l) score (fst (fst (pvToString rootPV)))
                   (committed score w1)]
           else [])
       /\ deepen fuel (S (S n)) l w =
          if depthNow next =? 0 then Some (next, w')
          else if expiredAt w' then Some (next, afterPoll w')
          else match alphaBeta fuel (score - 25) (score + 25)
                       (wrap8 (depthNow l + 1)) ROOT 0 (afterPoll w') with
               | Some (score2, w2) =>
                   deepen fuel n (nextDepth (fst (afterIteration next score2 w2)))
                     (snd (afterIteration next score2 w2))
               | None => None
               end
     else
       let again := {| depthNow := depthNow l;
                       alphaNow := if score >? alphaNow l then alphaNow l
                                   else - INFINITE;
                       betaNow := if score <? betaNow l then betaNow l
                                  else INFINITE;
                       bestMoveStr := bestMoveStr l;
                       ponderMoveStr := ponderMoveStr l |} in
       deepen fuel (S (S n)) l w =
       if expiredAt w1 then Some (again, afterPoll w1)
       else match alphaBeta fuel
                    (if score >? alphaNow l then alphaNow l else - INFINITE)
                    (if score <? betaNow l then betaNow l else INFINITE)
                    (depthNow l) ROOT 0 (afterPoll w1) with
            | Some (score2, w2) =>
                deepen fuel n (nextDepth (fst (afterIteration again score2 w2)))
                  (snd (afterIteration again score2 w2))
            | None => None
            end.
Proof.
  intros Hd Hx Hrun. split; [apply startSearch_eq|].
  rewrite (deepen_iteration fuel (S n) l w score w1) by (assumption || lia).
  change ((score >? alphaNow l) && (score <? betaNow l) && negb (stop (thread w1)))
    with (accepts l score w1).
  destruct (accepts l score w1); cbv zeta.
  - split; [|split].
    + unfold acceptedWorld. destruct (print (thread w1)); reflexivity.
    + unfold acceptedWorld. destruct (print (thread w1)); simpl;
        [reflexivity | symmetry; apply app_nil_r].
    + rewrite deepen_turn. reflexivity.
  - rewrite deepen_turn. unfold nextDepth, rejectedLocals.
    cbn [depthNow alphaNow betaNow bestMoveStr ponderMoveStr].
    rewrite wrap8_down_up by exact Hd.
    destruct (Z.eqb_spec (depthNow l) 0) as [H0|_]; [lia | reflexivity].
Qed.

Lemma existsb_app_l {A} (p : A -> bool) (l more : list A) :
  existsb p l = true -> existsb p (l ++ more) = true.
Proof. intros H. rewrite existsb_app, H. reflexivity. Qed.

(** ** A root without a legal move *)




Section StalemateRoot.
Variables (k fuel : nat) (origin : World).
Hypothesis not_in_check : getCheckers (board (thread origin)) = false.
Hypothesis no_legal_move : forall hint,
  noLegalMoves k (board (thread origin))
    (createMoveSelector (board (thread origin)) TT_MOVE hint) = true.
Hypothesis enough_fuel : (k < fuel)%nat.
Hypothesis clock_monotone : forall i j,
  (i <= j)%nat ->
  expiredTick (thread origin) i = true -> expiredTick (thread origin) j = true.







End StalemateRoot.


(** ** The score of an info line *)

(** C4, as the code has it: a score with [|s| >= GUARANTEE_CHECKMATE] is
    printed as [mate], with [(CHECKMATE - s + 1) / 2] when it is at least
    [GUARANTEE_CHECKMATE] and [(-CHECKMATE - s) / 2], without the [+ 1],
    when it is at most [-GUARANTEE_CHECKMATE] ([/] truncates); any other
    score is printed as [cp] with its own value. *)
Theorem printSearch_score depth score pvString w :
  exists nodeCount nps time w',
    printSearch depth score pvString w = Some (Datatypes.tt, w')
    /\ stdout w' = stdout w ++
         [InfoLine depth
            (if Z.abs score >=? GUARANTEE_CHECKMATE then "mate" else "cp")%string
            (if Z.abs score >=? GUARANTEE_CHECKMATE
             then (if score >=? GUARANTEE_CHECKMATE
                   then (CHECKMATE - score + 1) ÷ 2
                   else (- CHECKMATE - score) ÷ 2)
             else score)
            nodeCount nps time pvString].
Proof.
  unfold printSearch, bind, getTimeNs, get, modify.
  do 4 eexists. split; [reflexivity|]. simpl. f_equal. f_equal.
  unfold scoreType, scoreValue.
  destruct (Z.geb_spec score GUARANTEE_CHECKMATE) as [Hp|Hp];
    destruct (Z.leb_spec score (- GUARANTEE_CHECKMATE)) as [Hn|Hn];
    destruct (Z.geb_spec (Z.abs score) GUARANTEE_CHECKMATE) as [Ha|Ha];
    simpl; try reflexivity; lia.
Qed.

(** For the scores the search returns, [-CHECKMATE <= s], the truncated
    quotient the code prints for a negative mate is the floor of the
    quotient the specification writes. *)
Lemma negative_mate_value_floor score :
  - CHECKMATE <= score ->
  score <= - GUARANTEE_CHECKMATE ->
  (- CHECKMATE - score) ÷ 2 = (- CHECKMATE - score + 1) / 2.
Proof.
  intros Hlow _.
  Z.to_euclidean_division_equations. lia.
Qed.

(** Whatever the constants are, as long as a mate in two plies is a mate
    score, the value printed for being mated in two plies is -1 and the
    value with the [+ 1] is 0. *)
Lemma mated_in_two_plies_value :
  0 < GUARANTEE_CHECKMATE <= CHECKMATE - 2 ->
  scoreValue (- CHECKMATE + 2) = -1 /\ specMateValue (- CHECKMATE + 2) = 0.
Proof.
  intros Hc. unfold scoreValue, specMateValue.
  destruct (Z.geb_spec (- CHECKMATE + 2) GUARANTEE_CHECKMATE); [lia|].
  destruct (Z.leb_spec (- CHECKMATE + 2) (- GUARANTEE_CHECKMATE)); [|lia].
  destruct (Z.gtb_spec (- CHECKMATE + 2) 0); [lia|].
  assert (Hdist : - CHECKMATE - (- CHECKMATE + 2) = -2) by lia.
  rewrite Hdist. split; reflexivity.
Qed.

End Properties.

(** * Properties of the training driver *)

Section TrainingProperties.
Context {E : Engine}.

(** C9: after the search of a position, [playGame] links a record in front
    of the list exactly when the side to move is not in check, the score is
    no mate score and the material is sufficient; the record holds the score
    seen from White and the FEN of the position the search ran on, which is
    taken before the best move is played. *)
Theorem playGame_records fuel n junkBest junkPonder previous w best w1 :
  startSearch fuel junkBest junkPonder w = Some (best, w1) ->
  playGame fuel (S n) junkBest junkPonder previous w =
  let b := board (thread w1) in
  let recorded :=
    if negb (getCheckers b)
       && (Z.abs (mo_score best) <? GUARANTEE_CHECKMATE)
       && negb (insufficientMaterial b)
    then {| recordedScore := match sideToMove b with
                             | BLACK => - mo_score best
                             | WHITE => mo_score best
                             end;
            fen := getFEN b |} :: previous
    else previous in
  if isEndOfGame b best
  then Some (fst (writeGameData recorded (gameOutcome b best)), w1)
  else playGame fuel n junkBest junkPonder recorded (playMove (mo_move best) w1).
Proof.
  intros Hrun. cbv zeta.
  change (playGame fuel (S n) junkBest junkPonder previous w)
    with (bind (startSearch fuel junkBest junkPonder)
            (fun best => bind get (fun w =>
               let b := board (thread w) in
               let previous := recordPosition previous b best in
               if isEndOfGame b best
               then ret (fst (writeGameData previous (gameOutcome b best)))
               else bind (modify (playMove (mo_move best)))
                      (fun _ => playGame fuel n junkBest junkPonder previous))) w).
  unfold bind at 1. rewrite Hrun.
  unfold bind, get, modify, ret. cbv zeta.
  assert (Hrec : recordPosition previous (board (thread w1)) best =
    if negb (getCheckers (board (thread w1)))
       && (Z.abs (mo_score best) <? GUARANTEE_CHECKMATE)
       && negb (insufficientMaterial (board (thread w1)))
    then {| recordedScore := match sideToMove (board (thread w1)) with
                             | BLACK => - mo_score best
                             | WHITE => mo_score best
                             end;
            fen := getFEN (board (thread w1)) |} :: previous
    else previous).
  { unfold recordPosition, createGameData, isCheckmate.
    replace (negb ((mo_score best <=? - GUARANTEE_CHECKMATE)
                   || (mo_score best >=? GUARANTEE_CHECKMATE)))
      with (Z.abs (mo_score best) <? GUARANTEE_CHECKMATE); [reflexivity|].
    destruct (Z.leb_spec (mo_score best) (- GUARANTEE_CHECKMATE));
      destruct (Z.geb_spec (mo_score best) GUARANTEE_CHECKMATE);
      destruct (Z.ltb_spec (Z.abs (mo_score best)) GUARANTEE_CHECKMATE);
      simpl; try reflexivity; lia. }
  rewrite Hrec.
  destruct (isEndOfGame (board (thread w1)) best); reflexivity.
Qed.

End TrainingProperties.

(** * Further properties of the search *)

Section FurtherProperties.
Context {E : Engine}.

#[local] Existing Instance Accumulator_inhabited.
#[local] Existing Instance SearchHelper_inhabited.

(** ** Quiescence *)

Lemma quiescenceLoop_lower_bound rec beta current child n :
  forall ms alpha bestScore w s w',
    quiescenceLoop rec beta current child n ms alpha bestScore w = Some (s, w') ->
    bestScore <= s.
Proof.
  induction n as [|n IH]; intros ms alpha bestScore w s w' H; [discriminate H|].
  simpl in H. apply bind_Some in H as (w0 & w1 & Hget & H).
  apply get_Some in Hget. injection Hget as -> ->.
  destruct (fst (getNextBestMove (board (thread w)) ms) =? NO_MOVE).
  { apply ret_Some in H. injection H as <- _. lia. }
  destruct (negb (isLegalMove (board (thread w)) _)); [apply IH in H; exact H|].
  apply bind_Some in H as ([] & w2 & _ & H).
  apply bind_Some in H as (r & w3 & _ & H).
  apply bind_Some in H as ([] & w4 & _ & H).
  revert H. cbv beta zeta.
  destruct (Z.gtb_spec (- r) bestScore) as [Hbetter|Hworse].
  - repeat match goal with
           | |- context [if ?c then _ else _] => destruct c
           end;
      intros H; first [apply IH in H | apply ret_Some in H; injection H as -> _]; lia.
  - intros H. apply IH in H. exact H.
Qed.

Lemma quiescenceSearch_S f alpha beta sh w :
  quiescenceSearch (S f) alpha beta sh w =
  let w1 := countNode InQuiescence w in
  if isDraw (board (thread w)) then Some (DRAW, w1)
  else if (standPat (thread w) >? alpha) && (standPat (thread w) >=? beta)
  then Some (standPat (thread w), w1)
  else quiescenceLoop (fun a b => quiescenceSearch f a b sh) beta
         (Z.to_nat (ply (thread w))) (Z.to_nat (ply (thread w) + 1)) f
         (createMoveSelector (board (thread w)) (quiescenceState (board (thread w))) NO_MOVE)
         (if standPat (thread w) >? alpha then standPat (thread w) else alpha)
         (standPat (thread w)) w1.
Proof.
  simpl. unfold bind at 1. unfold modify at 1. unfold bind at 1. unfold get at 1.
  unfold standPat, quiescenceState. cbn [countNode record withThread thread setNodes
    board ply accumulator].
  destruct (isDraw (board (thread w))); [reflexivity|].
  destruct (getCheckers (board (thread w))); destruct (_ && _); reflexivity.
Qed.

(** X1: Fail-soft from below: at a position that is no draw, [quiescenceSearch]
    never returns less than the stand-pat score; at a draw it returns [DRAW]
    and has only counted the node. *)
Theorem quiescence_at_least_stand_pat fuel alpha beta sh w s w' :
  quiescenceSearch fuel alpha beta sh w = Some (s, w') ->
  if isDraw (board (thread w))
  then s = DRAW /\ w' = countNode InQuiescence w
  else standPat (thread w) <= s.
Proof.
  destruct fuel as [|f]; [discriminate|].
  rewrite quiescenceSearch_S. cbv zeta.
  destruct (isDraw (board (thread w))).
  - intros H. injection H as <- <-. split; reflexivity.
  - destruct (_ && _).
    + intros H. injection H as <- _. lia.
    + apply quiescenceLoop_lower_bound.
Qed.

Lemma quiescenceLoop_noLegalMoves rec beta current child k :
  forall n ms alpha bestScore w,
    noLegalMoves k (board (thread w)) ms = true ->
    (k < n)%nat ->
    quiescenceLoop rec beta current child n ms alpha bestScore w = Some (bestScore, w).
Proof.
  induction k as [|k IH]; intros n ms alpha bestScore w Hno Hn;
    (destruct n as [|n]; [lia|]); simpl in Hno |- *;
    unfold bind at 1; unfold get at 1; cbv beta iota;
    destruct (fst (getNextBestMove (board (thread w)) ms) =? NO_MOVE);
    try reflexivity; simpl in Hno.
  - rewrite andb_false_r in Hno. discriminate Hno.
  - apply andb_true_iff in Hno as [Hillegal Hno]. rewrite Hillegal.
    apply IH; [exact Hno | lia].
Qed.

(** X2: A position that is no draw and whose selector yields no legal move:
    [quiescenceSearch] returns the stand-pat score, that is the mate score
    [-CHECKMATE + ply] in check and the static evaluation otherwise (a
    stalemate is not told apart), and has done nothing but count the
    node. *)
Theorem quiescence_without_moves f k alpha beta sh w :
  isDraw (board (thread w)) = false ->
  noLegalMoves k (board (thread w))
    (createMoveSelector (board (thread w)) (quiescenceState (board (thread w))) NO_MOVE)
    = true ->
  (k < f)%nat ->
  quiescenceSearch (S f) alpha beta sh w
  = Some (if getCheckers (board (thread w))
          then - CHECKMATE + ply (thread w)
          else evaluation (accumulator (thread w) !!! Z.to_nat (ply (thread w)))
                 (sideToMove (board (thread w))),
          countNode InQuiescence w).
Proof.
  intros Hdraw Hno Hk. rewrite quiescenceSearch_S. cbv zeta. rewrite Hdraw.
  fold (standPat (thread w)).
  destruct (_ && _); [reflexivity|].
  apply (quiescenceLoop_noLegalMoves _ _ _ _ k); [exact Hno | exact Hk].
Qed.

(** ** The info line *)

(** X3: A mate in [d] plies is printed as [mate (d + 1) / 2], being mated in [d]
    plies as [mate -(d / 2)]. *)
Theorem mate_distance_rendering d :
  0 < GUARANTEE_CHECKMATE ->
  0 <= d <= CHECKMATE - GUARANTEE_CHECKMATE ->
  (scoreType (CHECKMATE - d) = "mate"%string
   /\ scoreValue (CHECKMATE - d) = (d + 1) ÷ 2)
  /\ (scoreType (- CHECKMATE + d) = "mate"%string
      /\ scoreValue (- CHECKMATE + d) = - (d ÷ 2)).
Proof.
  intros HG Hd. unfold scoreType, scoreValue. split.
  - destruct (Z.geb_spec (CHECKMATE - d) GUARANTEE_CHECKMATE); [|lia].
    split; [reflexivity|]. f_equal. lia.
  - destruct (Z.geb_spec (- CHECKMATE + d) GUARANTEE_CHECKMATE); [lia|].
    destruct (Z.leb_spec (- CHECKMATE + d) (- GUARANTEE_CHECKMATE)); [|lia].
    split; [reflexivity|].
    replace (- CHECKMATE - (- CHECKMATE + d)) with (- d) by lia.
    apply Z.quot_opp_l. lia.
Qed.

(** X4: [printSearch] reads the clock once and never divides by zero: the
    elapsed milliseconds plus one do not wrap, and the nodes per second are
    the quotient by them. *)
Theorem printSearch_rate depth score pvString w :
  exists time w',
    printSearch depth score pvString w = Some (Datatypes.tt, w')
    /\ ticks w' = S (ticks w)
    /\ 0 <= time < 2 ^ 64 - 1
    /\ time = wrap64 (wrap64 (clock (ticks w)) - startNs (thread w)) / 1000000
    /\ stdout w' = stdout w ++
         [InfoLine depth (scoreType score) (scoreValue score) (nodes (thread w))
            (wrap64 (nodes (thread w) * 1000) / (time + 1)) time pvString].
Proof.
  unfold printSearch, bind, getTimeNs, get, modify.
  pose proof (Z.mod_pos_bound (wrap64 (clock (ticks w)) - startNs (thread w)) (2 ^ 64)
                ltac:(lia)) as Hdiff.
  fold (wrap64 (wrap64 (clock (ticks w)) - startNs (thread w))) in Hdiff.
  set (elapsed := wrap64 (wrap64 (clock (ticks w)) - startNs (thread w))) in *.
  assert (Htime : 0 <= elapsed / 1000000 < 2 ^ 64 - 1).
  { split; [apply Z.div_pos; lia|].
    apply Z.div_lt_upper_bound; lia. }
  exists (elapsed / 1000000). eexists. split; [reflexivity|].
  split; [reflexivity|]. split; [exact Htime|]. split; [reflexivity|].
  simpl. f_equal. f_equal.
  fold elapsed.
  rewrite (Z.quot_div_nonneg elapsed) by lia.
  assert (Hw : wrap64 (elapsed / 1000000 + 1) = elapsed / 1000000 + 1)
    by (unfold wrap64; apply Z.mod_small; lia).
  rewrite Hw.
  pose proof (Z.mod_pos_bound (nodes (thread w) * 1000) (2 ^ 64) ltac:(lia)) as Hn.
  rewrite Z.quot_div_nonneg by (unfold wrap64; lia).
  reflexivity.
Qed.

(** ** The driver without time *)

Lemma zero_budget_expired w : maxSearchTimeNs (thread w) = 0 -> expiredAt w = true.
Proof.
  intros Hzero. unfold expiredAt. apply Z.leb_le.
  pose proof (Z.mod_pos_bound (wrap64 (clock (ticks w)) - startNs (thread w)) (2 ^ 64)
                ltac:(lia)) as Hdiff.
  unfold wrap64 at 1. lia.
Qed.

(** X5: With a budget of zero, or any budget (a [uint64_t]) used up at the
    first poll, [startSearch] searches nothing: it counts no node, leaves the
    board and the table alone, sets the stop flag, returns the best move the
    thread held before the call, and prints (if [print] is set) a bestmove
    line made of the buffers as they were at the entry. *)
Theorem startSearch_without_time f junkBest junkPonder w :
  0 <= maxSearchTimeNs (thread w) < 2 ^ 64 ->
  maxSearchTimeNs (thread w) = 0 \/ expiredAt (started w) = true ->
  exists w',
    startSearch (S f) junkBest junkPonder w = Some (bestMove (thread w), w')
    /\ nodes (thread w') = nodes (thread w)
    /\ board (thread w') = board (thread w)
    /\ tt (thread w') = tt (thread w)
    /\ stop (thread w') = true
    /\ stdout w' =
       stdout w ++
       (if print (thread w) then [bestMoveLine junkBest junkPonder] else []).
Proof.
  intros _ Hout.
  assert (Hx : expiredAt (started w) = true).
  { destruct Hout as [Hzero|Hx]; [|exact Hx]. apply zero_budget_expired. exact Hzero. }
  rewrite startSearch_eq.
  rewrite deepen_out_of_time by (discriminate || exact Hx).
  change (print (thread (afterPoll (started w)))) with (print (thread w)).
  destruct (print (thread w)); eexists; (split; [reflexivity|]); repeat split;
    try (simpl; rewrite Hx; reflexivity).
  simpl. symmetry. apply app_nil_r.
Qed.

(** ** What the driver prints *)

Lemma deepen_silent fuel n : forall l w l' w',
  print (thread w) = false ->
  deepen fuel n l w = Some (l', w') ->
  stdout w' = stdout w /\ print (thread w') = false.
Proof.
  induction n as [|n IH]; intros l w l' w' Hp H; [discriminate H|].
  destruct (Z.eq_dec (depthNow l) 0) as [Hd|Hd].
  { rewrite deepen_depth_overflow in H by exact Hd. injection H as _ <-. auto. }
  destruct (expiredAt w) eqn:Hx.
  { rewrite deepen_out_of_time in H by assumption. injection H as _ <-. auto. }
  rewrite deepen_in_time in H by assumption.
  apply bind_Some in H as (l1 & w1 & Hit & H).
  destruct (alphaBeta fuel (alphaNow l) (betaNow l) (depthNow l) ROOT 0 (afterPoll w))
    as [[score w0]|] eqn:Hrun;
    [|unfold iteration, bind in Hit; rewrite Hrun in Hit; discriminate Hit].
  pose proof (alphaBeta_keepsDriverState _ _ _ _ _ _ _ _ _ Hrun) as (Hout & Hpr & _).
  simpl in Hout, Hpr. rewrite Hp in Hpr.
  rewrite (iteration_eq _ _ _ _ _ Hrun) in Hit.
  assert (Hw1 : stdout w1 = stdout w /\ print (thread w1) = false).
  { destruct (accepts l score w0); injection Hit as _ <-.
    - unfold acceptedWorld. rewrite Hpr. simpl. auto.
    - auto. }
  destruct Hw1 as (Hout1 & Hpr1).
  apply (IH _ _ _ _ Hpr1) in H as (Hout' & Hpr').
  split; [congruence | exact Hpr'].
Qed.

Lemma playGame_S fuel n junkBest junkPonder previous w :
  playGame fuel (S n) junkBest junkPonder previous w =
  match startSearch fuel junkBest junkPonder w with
  | Some (best, w1) =>
      if isEndOfGame (board (thread w1)) best
      then Some (fst (writeGameData
                        (recordPosition previous (board (thread w1)) best)
                        (gameOutcome (board (thread w1)) best)), w1)
      else playGame fuel n junkBest junkPonder
             (recordPosition previous (board (thread w1)) best)
             (playMove (mo_move best) w1)
  | None => None
  end.
Proof.
  simpl. unfold bind at 1.
  destruct (startSearch fuel junkBest junkPonder w) as [[best w1]|]; [|reflexivity].
  unfold bind at 1. unfold get at 1. cbv beta iota zeta.
  destruct (isEndOfGame (board (thread w1)) best); reflexivity.
Qed.

Lemma startSearch_silent fuel junkBest junkPonder w r w' :
  print (thread w) = false ->
  startSearch fuel junkBest junkPonder w = Some (r, w') ->
  stdout w' = stdout w /\ print (thread w') = false.
Proof.
  intros Hp H. rewrite startSearch_eq in H.
  destruct (deepen fuel fuel _ (started w)) as [[l w1]|] eqn:Hd; [|discriminate H].
  apply deepen_silent in Hd as (Hout & Hpr); [|exact Hp].
  rewrite Hpr in H. injection H as _ <-. auto.
Qed.

Lemma playGame_silent fuel n junkBest junkPonder :
  forall previous w lines w',
    print (thread w) = false ->
    playGame fuel n junkBest junkPonder previous w = Some (lines, w') ->
    stdout w' = stdout w.
Proof.
  induction n as [|n IH]; intros previous w lines w' Hp H; [discriminate H|].
  rewrite playGame_S in H.
  destruct (startSearch fuel junkBest junkPonder w) as [[best w1]|] eqn:Hs;
    [|discriminate H].
  apply startSearch_silent in Hs as (Hout & Hpr); [|exact Hp].
  destruct (isEndOfGame (board (thread w1)) best).
  - injection H as _ <-. exact Hout.
  - apply IH in H; [|exact Hpr]. rewrite H. exact Hout.
Qed.

(** X6: With [print] clear, as the training driver sets it, neither
    [startSearch] nor a whole game of [playGame] writes anything to the
    standard output. *)
Theorem silent_without_print fuel n junkBest junkPonder previous w :
  print (thread w) = false ->
  (forall r w', startSearch fuel junkBest junkPonder w = Some (r, w') ->
                stdout w' = stdout w /\ print (thread w') = false)
  /\ (forall lines w', playGame fuel n junkBest junkPonder previous w = Some (lines, w') ->
                       stdout w' = stdout w).
Proof.
  intros Hp. split.
  - intros r w'. apply startSearch_silent. exact Hp.
  - intros lines w'. apply playGame_silent. exact Hp.
Qed.

Lemma depthsFrom_nil_or d o lines :
  depthsFrom d (o :: lines) = isInfoAtDepth d o && depthsFrom (d + 1) lines.
Proof. reflexivity. Qed.

Lemma last_cons_Some {A} (x : A) (l : list A) : exists y, last (x :: l) = Some y.
Proof.
  revert x. induction l as [|z l IH]; intros x; [exists x; reflexivity|].
  destruct (IH z) as (y & Hy). exists y. exact Hy.
Qed.

Lemma deepen_lines fuel n : forall l w l' w',
  0 <= depthNow l <= 255 ->
  print (thread w) = true ->
  deepen fuel n l w = Some (l', w') ->
  exists infos,
    stdout w' = stdout w ++ infos
    /\ depthsFrom (depthNow l) infos = true
    /\ (if depthNow l =? 0 then infos = []
        else Z.of_nat (length infos) <= 256 - depthNow l)
    /\ print (thread w') = true
    /\ match last infos with
       | Some line =>
           scoreFields line =
           Some (scoreType (mo_score (bestMove (thread w'))),
                 scoreValue (mo_score (bestMove (thread w'))))
       | None => bestMove (thread w') = bestMove (thread w)
       end.
Proof.
  induction n as [|n IH]; intros l w l' w' Hd Hp H; [discriminate H|].
  destruct (Z.eqb_spec (depthNow l) 0) as [Hd0|Hd0].
  { rewrite deepen_depth_overflow in H by exact Hd0. injection H as _ <-.
    exists []. rewrite app_nil_r. repeat split. exact Hp. }
  destruct (expiredAt w) eqn:Hx.
  { rewrite deepen_out_of_time in H by assumption. injection H as _ <-.
    exists []. simpl. rewrite app_nil_r. repeat split; [lia | exact Hp]. }
  destruct (alphaBeta fuel (alphaNow l) (betaNow l) (depthNow l) ROOT 0 (afterPoll w))
    as [[score w0]|] eqn:Hrun.
  2:{ rewrite deepen_in_time in H by assumption.
      unfold bind at 1 in H. unfold iteration, bind in H. rewrite Hrun in H.
      discriminate H. }
  pose proof (alphaBeta_keepsDriverState _ _ _ _ _ _ _ _ _ Hrun)
    as (Hout & Hpr & _ & _ & Hbest).
  simpl in Hout, Hpr, Hbest. rewrite Hp in Hpr.
  rewrite (deepen_iteration _ _ _ _ _ _ Hd0 Hx Hrun) in H.
  destruct (accepts l score w0).
  - (* accepted: one more line, one depth deeper *)
    assert (Hd' : 0 <= depthNow (nextDepth (acceptedLocals l score w0)) <= 255).
    { cbn [nextDepth acceptedLocals depthNow].
      pose proof (wrap8_range (depthNow l + 1)). lia. }
    assert (Hp' : print (thread (acceptedWorld l score w0)) = true).
    { unfold acceptedWorld. rewrite Hpr. exact Hpr. }
    destruct (IH _ _ _ _ Hd' Hp' H) as (infos & Hlines & Hdepths & Hlen & Hpw & Hlast).
    rewrite acceptedWorld_stdout, Hpr, Hout in Hlines.
    set (line := infoLine (depthNow l) score
                   (fst (fst (pvToString (pv (helpers w0 !!! 0%nat)))))
                   (committed score w0)) in *.
    exists (line :: infos). split; [|split; [|split; [|split]]].
    + rewrite Hlines, <- app_assoc. reflexivity.
    + rewrite depthsFrom_nil_or. apply andb_true_iff. split.
      * unfold line, infoLine. simpl. apply Z.eqb_refl.
      * cbn [nextDepth acceptedLocals depthNow] in Hdepths, Hlen.
        destruct (Z.eq_dec (depthNow l) 255) as [H255|H255].
        -- rewrite H255 in Hlen. change (wrap8 (255 + 1) =? 0) with true in Hlen.
           rewrite Hlen. reflexivity.
        -- unfold wrap8 in Hdepths. rewrite Z.mod_small in Hdepths by lia.
           exact Hdepths.
    + cbn [nextDepth acceptedLocals depthNow] in Hlen.
      destruct (Z.eq_dec (depthNow l) 255) as [H255|H255].
      * rewrite H255 in Hlen |- *. change (wrap8 (255 + 1) =? 0) with true in Hlen.
        rewrite Hlen. simpl. lia.
      * unfold wrap8 in Hlen. rewrite Z.mod_small in Hlen by lia.
        destruct (Z.eqb_spec (depthNow l + 1) 0); [lia|].
        cbn [length]. lia.
    + exact Hpw.
    + destruct infos as [|o infos].
      * cbn [last] in Hlast |- *. rewrite Hlast.
        unfold acceptedWorld. rewrite Hpr. reflexivity.
      * change (last (line :: o :: infos)) with (last (o :: infos)).
        destruct (last_cons_Some o infos) as (y & Hy). rewrite Hy in Hlast |- *.
        exact Hlast.
  - (* rejected: the same depth again *)
    assert (Hd' : 0 <= depthNow (nextDepth (rejectedLocals l score)) <= 255).
    { cbn [nextDepth rejectedLocals depthNow].
      pose proof (wrap8_range (wrap8 (depthNow l - 1) + 1)). lia. }
    destruct (IH _ _ _ _ Hd' Hpr H) as (infos & Hlines & Hdepths & Hlen & Hpw & Hlast).
    cbn [nextDepth rejectedLocals depthNow] in Hdepths, Hlen.
    rewrite wrap8_down_up in Hdepths, Hlen by lia.
    exists infos. split; [|split; [|split; [|split]]].
    + rewrite Hlines, Hout. reflexivity.
    + exact Hdepths.
    + rewrite (proj2 (Z.eqb_neq _ _) Hd0) in Hlen. exact Hlen.
    + exact Hpw.
    + destruct (last infos); [exact Hlast | rewrite Hlast; exact Hbest].
Qed.

(** X7: With [print] set, what a returning [startSearch] prints is: info lines
    of the depths 1, 2, 3, ... without a gap or a repetition, at most 255 of
    them, then one bestmove line.  The score of the last info line is the
    rendering of the score it returns; when no info line was printed it
    returns the best move the thread held before the call. *)
Theorem startSearch_output fuel junkBest junkPonder w r w' :
  print (thread w) = true ->
  startSearch fuel junkBest junkPonder w = Some (r, w') ->
  exists infos best ponder,
    stdout w' = stdout w ++ infos ++ [bestMoveLine best ponder]
    /\ depthsFrom 1 infos = true
    /\ (length infos <= 255)%nat
    /\ r = bestMove (thread w')
    /\ match last infos with
       | Some line => scoreFields line = Some (scoreType (mo_score r), scoreValue (mo_score r))
       | None => r = bestMove (thread w)
       end.
Proof.
  intros Hp H. rewrite startSearch_eq in H.
  destruct (deepen fuel fuel (firstIteration junkBest junkPonder) (started w))
    as [[l w1]|] eqn:Hd; [|discriminate H].
  apply deepen_lines in Hd as (infos & Hlines & Hdepths & Hlen & Hpw & Hlast);
    [|cbn; lia|exact Hp].
  rewrite Hpw in H. injection H as <- <-.
  exists infos, (bestMoveStr l), (ponderMoveStr l).
  split; [|split; [|split; [|split]]].
  - simpl. rewrite Hlines. simpl. rewrite <- app_assoc. reflexivity.
  - exact Hdepths.
  - cbn in Hlen. lia.
  - reflexivity.
  - exact Hlast.
Qed.

(** ** The training records *)

(** X8: The outcome written for a game that ends in a mate score is the sign of
    that score seen from White, the point of view of the recorded scores;
    any other end is a draw. *)
Theorem outcome_is_sign_of_final_score b best :
  0 < GUARANTEE_CHECKMATE ->
  gameOutcome b best =
  if isCheckmate (mo_score best)
  then (if whiteScore b (mo_score best) >? 0 then WhiteWon else BlackWon)
  else Drawn.
Proof.
  intros HG. unfold gameOutcome, isCheckmate, whiteScore.
  destruct (Z.leb_spec (mo_score best) (- GUARANTEE_CHECKMATE)) as [Hn|Hn];
    destruct (Z.geb_spec (mo_score best) GUARANTEE_CHECKMATE) as [Hq|Hq];
    cbn [orb]; try reflexivity; try lia;
    destruct (sideToMove b); cbn [opponent];
    destruct (Z.gtb_spec (mo_score best) 0);
    try destruct (Z.gtb_spec (- mo_score best) 0); try reflexivity; lia.
Qed.

Lemma recordPosition_newer previous b best :
  exists newer,
    recordPosition previous b best = newer ++ previous
    /\ Forall (fun d => Z.abs (recordedScore d) < GUARANTEE_CHECKMATE) newer.
Proof.
  unfold recordPosition, createGameData, isCheckmate.
  destruct (negb (getCheckers b)); cbn [andb]; [|exists []; split; [reflexivity|constructor]].
  destruct (Z.leb_spec (mo_score best) (- GUARANTEE_CHECKMATE));
    destruct (Z.geb_spec (mo_score best) GUARANTEE_CHECKMATE);
    cbn [orb negb andb]; try (exists []; split; [reflexivity|constructor]).
  destruct (negb (insufficientMaterial b));
    [|exists []; split; [reflexivity|constructor]].
  eexists [_]. split; [reflexivity|].
  constructor; [|constructor]. cbn [recordedScore].
  destruct (sideToMove b); lia.
Qed.

Lemma recordPosition_app previous b best :
  recordPosition previous b best = recordPosition [] b best ++ previous.
Proof.
  unfold recordPosition, createGameData.
  destruct (negb (getCheckers b) && negb (isCheckmate (mo_score best))
            && negb (insufficientMaterial b)); reflexivity.
Qed.

Lemma recordPosition_quiet b best :
  Forall (fun d => Z.abs (recordedScore d) < GUARANTEE_CHECKMATE)
    (recordPosition [] b best).
Proof.
  destruct (recordPosition_newer [] b best) as (newer & Hrec & Hquiet).
  rewrite Hrec, app_nil_r. exact Hquiet.
Qed.

(** What a game writes does not depend on the records it is entered with,
    which it only passes on. *)
Lemma playGame_newer fuel n junkBest junkPonder : forall previous w lines w',
  playGame fuel n junkBest junkPonder previous w = Some (lines, w') ->
  exists newer outcome,
    (forall earlier,
       playGame fuel n junkBest junkPonder earlier w
       = Some (map (toLine outcome) (newer ++ earlier), w'))
    /\ lines = map (toLine outcome) (newer ++ previous)
    /\ Forall (fun d => Z.abs (recordedScore d) < GUARANTEE_CHECKMATE) newer.
Proof.
  induction n as [|n IH]; intros previous w lines w' H; [discriminate H|].
  rewrite playGame_S in H.
  destruct (startSearch fuel junkBest junkPonder w) as [[best w1]|] eqn:Hsearch;
    [|discriminate H].
  rewrite recordPosition_app in H.
  pose proof (recordPosition_quiet (board (thread w1)) best) as Hhere.
  destruct (isEndOfGame (board (thread w1)) best) eqn:Hend.
  - injection H as <- <-.
    exists (recordPosition [] (board (thread w1)) best),
      (gameOutcome (board (thread w1)) best).
    split; [|split; [reflexivity | exact Hhere]].
    intros earlier. rewrite playGame_S, Hsearch, Hend, recordPosition_app. reflexivity.
  - apply IH in H as (later & outcome & Hany & Hlines & Hquiet).
    exists (later ++ recordPosition [] (board (thread w1)) best), outcome.
    split; [|split].
    + intros earlier.
      rewrite playGame_S, Hsearch, Hend, recordPosition_app, Hany, <- app_assoc.
      reflexivity.
    + rewrite Hlines, <- app_assoc. reflexivity.
    + apply Forall_app. split; assumption.
Qed.

(** X9: A game writes its file only when it ends, with one outcome on every
    line, and newest position first: the lines of the positions searched
    after the first move of the game, which are the lines the rest of the
    game writes when it is entered with no record; then the record of the
    position the game is entered at, if it is recorded; then the records the
    game was entered with, unchanged and in their order.  No record of the
    game carries a mate score. *)
Theorem playGame_lines fuel n junkBest junkPonder previous w lines w' :
  playGame fuel (S n) junkBest junkPonder previous w = Some (lines, w') ->
  exists best w1,
    startSearch fuel junkBest junkPonder w = Some (best, w1)
    /\ let b := board (thread w1) in
       let here := recordPosition [] b best in
       Forall (fun d => Z.abs (recordedScore d) < GUARANTEE_CHECKMATE) here
       /\ if isEndOfGame b best
          then w' = w1
               /\ lines = map (toLine (gameOutcome b best)) (here ++ previous)
          else exists later outcome,
              playGame fuel n junkBest junkPonder [] (playMove (mo_move best) w1)
              = Some (map (toLine outcome) later, w')
              /\ Forall (fun d => Z.abs (recordedScore d) < GUARANTEE_CHECKMATE) later
              /\ lines = map (toLine outcome) (later ++ here ++ previous).
Proof.
  intros H. rewrite playGame_S in H.
  destruct (startSearch fuel junkBest junkPonder w) as [[best w1]|]; [|discriminate H].
  exists best, w1. split; [reflexivity|]. cbv zeta.
  split; [apply recordPosition_quiet|].
  rewrite recordPosition_app in H.
  destruct (isEndOfGame (board (thread w1)) best).
  - injection H as <- <-. split; reflexivity.
  - apply playGame_newer in H as (later & outcome & Hany & Hlines & Hquiet).
    exists later, outcome. split; [|split; [exact Hquiet | exact Hlines]].
    rewrite Hany, app_nil_r. reflexivity.
Qed.

End FurtherProperties.

(** * The principal variation *)

Section PrincipalVariation.
Context {E : Engine}.

#[local] Existing Instance Accumulator_inhabited.
#[local] Existing Instance SearchHelper_inhabited.

(** ** The buffers *)

Lemma overwrite_length src dst : length (overwrite src dst) = length dst.
Proof.
  revert dst. induction src as [|s src IH]; intros [|d dst]; simpl; auto.
Qed.

Lemma overwrite_fits src dst :
  (length src <= length dst)%nat ->
  overwrite src dst = src ++ drop (length src) dst.
Proof.
  revert dst. induction src as [|s src IH]; intros [|d dst] Hlen; simpl in *;
    try reflexivity; try lia.
  f_equal. apply IH. lia.
Qed.

Lemma throughTerminator_line l :
  terminated l = true -> throughTerminator l = pvLine l ++ [NO_MOVE].
Proof.
  unfold terminated. induction l as [|m l IH]; simpl; [discriminate|].
  destruct (Z.eqb_spec m NO_MOVE) as [->|Hm]; simpl; [reflexivity|].
  intros H. rewrite IH by exact H. reflexivity.
Qed.

Lemma pvLine_moves l : Forall (fun m => m <> NO_MOVE) (pvLine l).
Proof.
  induction l as [|m l IH]; simpl; [constructor|].
  destruct (Z.eqb_spec m NO_MOVE); constructor; assumption.
Qed.

Lemma pvLine_app line rest :
  Forall (fun m => m <> NO_MOVE) line -> pvLine (line ++ NO_MOVE :: rest) = line.
Proof.
  induction 1 as [|m line Hm _ IH]; simpl; [reflexivity|].
  destruct (Z.eqb_spec m NO_MOVE); [contradiction|]. rewrite IH. reflexivity.
Qed.

Lemma terminated_app line rest : terminated (line ++ NO_MOVE :: rest) = true.
Proof.
  unfold terminated. rewrite existsb_app. simpl. apply orb_true_r.
Qed.

Lemma updatePV_cells move cur child :
  terminated child = true ->
  (length (pvLine child) + 2 <= length cur)%nat ->
  updatePV move cur child
  = (move :: pvLine child) ++ NO_MOVE :: drop (length (pvLine child) + 2) cur.
Proof.
  intros Hterm Hfits. unfold updatePV.
  rewrite throughTerminator_line by exact Hterm.
  rewrite overwrite_fits by (simpl; rewrite length_app; simpl; lia).
  simpl. rewrite length_app. simpl. rewrite <- app_assoc. simpl.
  replace (S (length (pvLine child) + 1)) with (length (pvLine child) + 2)%nat by lia.
  reflexivity.
Qed.

(** X10: [updatePV] on a terminated child line that fits: the buffer then holds the
    move, the child's line and a terminator, the cells behind are the ones it
    had; its line is the move followed by the child's line. *)
Theorem updatePV_line move cur child :
  move <> NO_MOVE ->
  terminated child = true ->
  (length (pvLine child) + 2 <= length cur)%nat ->
  updatePV move cur child
  = (move :: pvLine child) ++ NO_MOVE :: drop (length (pvLine child) + 2) cur
  /\ pvLine (updatePV move cur child) = move :: pvLine child
  /\ length (updatePV move cur child) = length cur.
Proof.
  intros Hmove Hterm Hfits. split; [apply updatePV_cells; assumption|]. split.
  - rewrite updatePV_cells by assumption.
    apply pvLine_app. constructor; [exact Hmove | apply pvLine_moves].
  - apply overwrite_length.
Qed.

(** ** The strings *)

Lemma append_empty s : String.append s EmptyString = s.
Proof. induction s as [|c s IH]; simpl; [reflexivity | rewrite IH; reflexivity]. Qed.

Lemma pvTail_names l :
  forall name,
    String.append name (pvTail l) = lineString (name :: map moveToString (pvLine l)).
Proof.
  unfold lineString.
  induction l as [|m l IH]; intros name; simpl pvTail; simpl pvLine.
  - apply append_empty.
  - destruct (m =? NO_MOVE); [apply append_empty|].
    rewrite IH. reflexivity.
Qed.

Lemma pvAt_0 l : pvAt l 0 = hd NO_MOVE l.
Proof. destruct l; reflexivity. Qed.

Lemma pvLine_take n l :
  (length (pvLine l) <= n)%nat -> pvLine (take n l) = pvLine l.
Proof.
  revert n. induction l as [|m l IH]; intros n; [destruct n; reflexivity|].
  simpl. destruct n as [|n]; simpl.
  - destruct (m =? NO_MOVE); simpl; [reflexivity | lia].
  - destruct (m =? NO_MOVE); [reflexivity|]. simpl. intros H.
    rewrite IH by lia. reflexivity.
Qed.

Lemma pvToString_cells l :
  pvToString l
  = (lineString (map moveToString
       (pvAt l 0 :: pvLine (drop 1 (take (Z.to_nat MAX_DEPTH) l)))),
     moveToString (pvAt l 0),
     match pvLine (drop 1 l) with
     | [] => EmptyString
     | m :: _ => moveToString m
     end).
Proof.
  unfold pvToString. rewrite pvTail_names. f_equal.
  destruct l as [|a [|b l]]; try reflexivity.
  unfold pvAt. simpl. destruct (b =? NO_MOVE); reflexivity.
Qed.

(** X11: [pvToString] on a buffer of at most [MAX_DEPTH] cells whose first move is
    not the terminator: the string is the names of the moves of the line, one
    space between two of them; the best move is the first of the line, the
    ponder move the second, or the empty string when the line has one
    move. *)
Theorem pvToString_line l :
  pvAt l 0 <> NO_MOVE ->
  (length l <= Z.to_nat MAX_DEPTH)%nat ->
  pvToString l
  = (lineString (map moveToString (pvLine l)),
     moveToString (hd NO_MOVE (pvLine l)),
     match pvLine l with
     | _ :: m :: _ => moveToString m
     | _ => EmptyString
     end).
Proof.
  intros Hfirst Hlen. rewrite pvToString_cells.
  rewrite take_ge by exact Hlen.
  destruct l as [|a l]; [exfalso; apply Hfirst; reflexivity|].
  unfold pvAt in *. simpl in *.
  destruct (Z.eqb_spec a NO_MOVE); [contradiction|].
  rewrite drop_0. simpl. destruct (pvLine l); reflexivity.
Qed.

(** X12: [pvToString] on a buffer whose line is empty: the name of the null move is
    still printed, and after it the moves that an earlier line has left behind
    the terminator. *)
Theorem pvToString_empty_line l stale :
  pvAt l 0 = NO_MOVE ->
  pvLine (drop 1 (take (Z.to_nat MAX_DEPTH) l)) = stale ->
  fst (fst (pvToString l))
  = lineString (moveToString NO_MOVE :: map moveToString stale)
  /\ snd (fst (pvToString l)) = moveToString NO_MOVE.
Proof.
  intros Hfirst Hstale. rewrite pvToString_cells. simpl.
  rewrite Hfirst, Hstale. split; reflexivity.
Qed.

(** ** The lines a search leaves *)

Lemma pvLine_app_le line rest :
  (length (pvLine (line ++ NO_MOVE :: rest)) <= length line)%nat.
Proof.
  induction line as [|m line IH]; simpl; [lia|].
  destruct (m =? NO_MOVE); simpl; lia.
Qed.

Lemma lineWithin_le d d' l : lineWithin d l = true -> d <= d' -> lineWithin d' l = true.
Proof.
  unfold lineWithin. intros H Hle. apply andb_true_iff in H as [Ht Hl].
  rewrite Ht. simpl. apply Z.leb_le. apply Z.leb_le in Hl. lia.
Qed.

Lemma updatePV_within d move cur child :
  lineWithin d child = true ->
  d + 2 <= Z.of_nat (length cur) ->
  lineWithin (d + 1) (updatePV move cur child) = true.
Proof.
  unfold lineWithin. intros H Hfits. apply andb_true_iff in H as [Ht Hl].
  apply Z.leb_le in Hl.
  rewrite updatePV_cells by (try exact Ht; lia).
  rewrite terminated_app. simpl andb. apply Z.leb_le.
  pose proof (pvLine_app_le (move :: pvLine child)
                (drop (length (pvLine child) + 2) cur)) as Hle.
  simpl length in Hle. lia.
Qed.

Lemma helpersSized_insert size hs i h :
  helpersSized size hs = true -> length (pv h) = size ->
  helpersSized size (<[i := h]> hs) = true.
Proof.
  unfold helpersSized. intros Hs Hh. revert i.
  induction hs as [|a hs IH]; intros i; [reflexivity|].
  simpl in Hs. apply andb_true_iff in Hs as [Ha Hs].
  destruct i as [|i]; simpl.
  - rewrite Hs. rewrite (proj2 (Nat.eqb_eq _ _) Hh). reflexivity.
  - rewrite Ha. simpl. apply IH. exact Hs.
Qed.

Lemma helpersSized_lookup size hs i :
  helpersSized size hs = true -> (i < length hs)%nat ->
  length (pv (hs !!! i)) = size.
Proof.
  unfold helpersSized. revert i.
  induction hs as [|a hs IH]; intros i Hs Hi; simpl in Hi; [lia|].
  simpl in Hs. apply andb_true_iff in Hs as [Ha Hs].
  destruct i as [|i]; simpl.
  - apply Nat.eqb_eq. exact Ha.
  - apply IH; [exact Hs | lia].
Qed.

Lemma keepsHelpers_refl size n w :
  helpersSized size (helpers w) = true -> keepsHelpers size n w w.
Proof. intros H. repeat split. exact H. Qed.

Lemma keepsHelpers_trans size n w1 w2 w3 :
  keepsHelpers size n w1 w2 -> keepsHelpers size n w2 w3 -> keepsHelpers size n w1 w3.
Proof.
  intros (A1 & B1 & C1) (A2 & B2 & C2).
  repeat split; [congruence | exact B2 | congruence].
Qed.

Lemma keepsHelpers_le size m n w w' :
  (m <= n)%nat -> keepsHelpers size n w w' -> keepsHelpers size m w w'.
Proof.
  intros Hle (A & B & C). repeat split; [exact A | exact B |].
  rewrite <- (Nat.min_l m n) by exact Hle.
  rewrite <- !take_take. rewrite C. reflexivity.
Qed.

Lemma keepsHelpers_lookup size n w w' :
  keepsHelpers size (S n) w w' -> helpers w' !!! n = helpers w !!! n.
Proof.
  intros (_ & _ & C). rewrite !list_lookup_total_alt.
  rewrite <- (lookup_take_lt (helpers w') (S n) n) by lia.
  rewrite <- (lookup_take_lt (helpers w) (S n) n) by lia.
  rewrite C. reflexivity.
Qed.

Lemma keepsHelpers_same size n w w' :
  helpers w' = helpers w -> helpersSized size (helpers w) = true ->
  keepsHelpers size n w w'.
Proof. intros H Hs. unfold keepsHelpers. rewrite H. repeat split. exact Hs. Qed.

Lemma resetPV_keeps size sh w :
  (0 < size)%nat ->
  (sh < length (helpers w))%nat ->
  helpersSized size (helpers w) = true ->
  keepsHelpers size sh w (resetPV sh w)
  /\ lineWithin 0 (pv (helpers (resetPV sh w) !!! sh)) = true.
Proof.
  intros Hpos Hsh Hs.
  pose proof (helpersSized_lookup size (helpers w) sh Hs Hsh) as Hcells.
  unfold resetPV, withHelpers, keepsHelpers. cbn [helpers]. split; [repeat split|].
  - apply length_insert.
  - apply helpersSized_insert; [exact Hs|]. cbn [pv]. rewrite length_insert. exact Hcells.
  - apply take_insert_ge. lia.
  - rewrite list_lookup_total_insert_eq by exact Hsh. cbn [pv].
    destruct (pv (helpers w !!! sh)) as [|a l]; [simpl in Hcells; lia|]. reflexivity.
Qed.

Lemma quiescenceSearch_helpers fuel alpha beta sh :
  respects (fun w w' => helpers w' = helpers w) (quiescenceSearch fuel alpha beta sh).
Proof.
  apply quiescenceSearch_respects.
  - reflexivity.
  - intros w1 w2 w3 H1 H2. congruence.
  - reflexivity.
  - intros current child move w w2 H. exact H.
Qed.

Lemma storeUnlessStopped_helpers slot key move depth bound s e :
  respects (fun w w' => helpers w' = helpers w)
    (storeUnlessStopped slot key move depth bound s e).
Proof.
  intros w a w' H. unfold storeUnlessStopped in H.
  apply bind_Some in H as (w0 & w1 & H1 & H).
  apply get_Some in H1. injection H1 as -> ->.
  destruct (negb (stop (thread w))).
  - apply modify_Some in H. injection H as _ ->. reflexivity.
  - apply ret_Some in H. injection H as _ ->. reflexivity.
Qed.

Lemma enterNode_helpers node :
  respects (fun w w' => helpers w' = helpers w) (enterNode node).
Proof.
  intros w a w' H. rewrite enterNode_eq in H. cbv zeta in H.
  destruct (_ && _); injection H as _ <-; reflexivity.
Qed.

Section Lines.
Variable size : nat.
Variable rec : Score -> Score -> Depth -> Node -> nat -> M Score.
Hypothesis rec_keeps : keepsLines size rec.

Lemma child_keeps a b d dmax nd sh w r w' :
  0 <= d <= dmax -> dmax <= 255 -> dmax < Z.of_nat size ->
  (S sh + Z.to_nat dmax < length (helpers w))%nat ->
  helpersSized size (helpers w) = true ->
  rec a b (wrap8 d) nd (S sh) w = Some (r, w') ->
  keepsHelpers size (S sh) w w'
  /\ lineWithin dmax (pv (helpers w' !!! S sh)) = true.
Proof using rec_keeps.
  intros Hd Hmax Hsize Hlen Hs H.
  assert (wrap8 d = d) as Hw by (unfold wrap8; apply Z.mod_small; lia).
  rewrite Hw in H.
  apply rec_keeps in H as [K L]; try assumption; try lia.
  split; [exact K|]. apply (lineWithin_le d); [exact L | lia].
Qed.

Lemma nullMovePruning_keeps beta depth node sh fr w r w' :
  0 <= depth <= 255 -> depth < Z.of_nat size ->
  (sh + Z.to_nat depth < length (helpers w))%nat ->
  helpersSized size (helpers w) = true ->
  nullMovePruning rec beta depth node sh fr w = Some (r, w') ->
  keepsHelpers size (S sh) w w'.
Proof using rec_keeps.
  intros Hd Hsize Hlen Hs H. unfold nullMovePruning in H.
  apply bind_Some in H as (w0 & w1 & Hget & H).
  apply get_Some in Hget. injection Hget as -> ->.
  destruct (_ && _ && (depth >? 3) && _ && _) eqn:Hcond.
  - apply andb_true_iff in Hcond as [Hcond _].
    apply andb_true_iff in Hcond as [Hcond _].
    apply andb_true_iff in Hcond as [_ Hdeep]. apply Z.gtb_lt in Hdeep.
    apply bind_Some in H as ([] & w2 & Hdown & H).
    apply modify_Some in Hdown. injection Hdown as ->.
    apply bind_Some in H as (s & w3 & Hcall & H).
    apply bind_Some in H as ([] & w4 & Hup & H).
    apply modify_Some in Hup. injection Hup as ->.
    apply ret_Some in H. injection H as _ ->.
    apply (child_keeps _ _ _ (depth - 4)) in Hcall as [K _];
      try exact Hs; try lia; [exact K|].
    cbn [descendNull withThread helpers]. lia.
  - apply ret_Some in H. injection H as _ ->. apply keepsHelpers_refl, Hs.
Qed.

Lemma alphaBetaPrelude_keeps beta depth node sh alpha w r w' :
  0 <= depth <= 255 -> depth < Z.of_nat size ->
  (sh + Z.to_nat depth < length (helpers w))%nat ->
  helpersSized size (helpers w) = true ->
  alphaBetaPrelude rec beta depth node sh alpha w = Some (r, w') ->
  keepsHelpers size (S sh) w w'.
Proof using rec_keeps.
  intros Hd Hsize Hlen Hs H. unfold alphaBetaPrelude in H.
  apply bind_Some in H as (out & w1 & Hin & H).
  apply enterNode_helpers in Hin.
  destruct out.
  { apply ret_Some in H. injection H as _ ->. apply keepsHelpers_same; assumption. }
  apply bind_Some in H as (w0 & w2 & Hget & H).
  apply get_Some in Hget. injection Hget as -> ->.
  destruct (tableHit _ _ _ _ _).
  { apply ret_Some in H. injection H as _ ->. apply keepsHelpers_same; assumption. }
  unfold pruning in H.
  apply bind_Some in H as (cut & w2 & Hnull & H).
  apply nullMovePruning_keeps in Hnull; try assumption; try (rewrite Hin; assumption).
  assert (w' = w2) as ->.
  { destruct cut; [|destruct (_ && _ && _)];
      apply ret_Some in H; injection H as _ <-; reflexivity. }
  eapply keepsHelpers_trans; [|exact Hnull]. apply keepsHelpers_same; assumption.
Qed.

Lemma moveLoop_keeps beta depth node sh fr :
  1 <= depth <= 255 -> depth < Z.of_nat size ->
  forall n ms legalMoves alpha bestScore best w exit w',
    (sh + Z.to_nat depth < length (helpers w))%nat ->
    helpersSized size (helpers w) = true ->
    lineWithin depth (pv (helpers w !!! sh)) = true ->
    moveLoop rec beta depth node sh fr n ms legalMoves alpha bestScore best w
      = Some (exit, w') ->
    keepsHelpers size sh w w' /\ lineWithin depth (pv (helpers w' !!! sh)) = true.
Proof using rec_keeps.
  intros Hd Hsize.
  induction n as [|n IH]; intros ms legalMoves alpha bestScore best w exit w'
    Hlen Hs Hline H; [discriminate H|].
  simpl in H. apply bind_Some in H as (w0 & w1 & Hget & H).
  apply get_Some in Hget. injection Hget as -> ->.
  destruct (fst (getNextBestMove (board (thread w)) ms) =? NO_MOVE).
  { apply ret_Some in H. injection H as _ ->.
    split; [apply keepsHelpers_refl, Hs | exact Hline]. }
  destruct (negb (isLegalMove (board (thread w)) _)); [eapply IH; eassumption|].
  destruct (_ && (depth <? 4) && _ && _ && _); [eapply IH; eassumption|].
  apply bind_Some in H as ([] & w2 & Hdown & H).
  apply modify_Some in Hdown. injection Hdown as ->.
  apply bind_Some in H as (nullWindow & w3 & Hfirst & H).
  apply bind_Some in H as (searched & w4 & Hsecond & H).
  apply bind_Some in H as ([] & w5 & Hup & H).
  apply modify_Some in Hup. injection Hup as ->.
  set (move := fst (getNextBestMove (board (thread w)) ms)) in *.
  assert (keepsHelpers size (S sh) w w3
          /\ (nullWindow = None
              \/ lineWithin (depth - 1) (pv (helpers w3 !!! S sh)) = true)) as [K3 L3].
  { destruct (negb _ || (legalMoves + 1 >? 1)).
    - apply bind_Some in Hfirst as (r & w6 & Hcall & Hret).
      apply ret_Some in Hret. injection Hret as _ ->.
      destruct ((legalMoves + 1 >? 1) && (depth >? 1)) eqn:Hred.
      + apply andb_true_iff in Hred as [_ Hdeep]. apply Z.gtb_lt in Hdeep.
        apply (child_keeps _ _ _ (depth - 1)) in Hcall as [K L];
          try exact Hs; try lia; [split; [exact K | right; exact L]|].
        cbn [descend withThread helpers]. lia.
      + apply (child_keeps _ _ _ (depth - 1)) in Hcall as [K L];
          try exact Hs; try lia; [split; [exact K | right; exact L]|].
        cbn [descend withThread helpers]. lia.
    - apply ret_Some in Hfirst. injection Hfirst as -> ->.
      split; [apply keepsHelpers_same; [reflexivity | exact Hs] | left; reflexivity]. }
  assert (keepsHelpers size (S sh) w w4
          /\ lineWithin (depth - 1) (pv (helpers w4 !!! S sh)) = true
          /\ exists score, searched = Some score) as (K4 & L4 & score & ->).
  { destruct K3 as (A3 & B3 & C3).
    destruct (_ && ((legalMoves + 1 =? 1) || above nullWindow alpha)).
    - apply bind_Some in Hsecond as (r & w6 & Hcall & Hret).
      apply ret_Some in Hret. injection Hret as -> ->.
      apply (child_keeps _ _ _ (depth - 1)) in Hcall as [K L];
        try exact B3; try lia.
      split; [|split; [exact L | eexists; reflexivity]].
      eapply keepsHelpers_trans; [|exact K]. repeat split; assumption.
    - apply ret_Some in Hsecond. injection Hsecond as -> ->.
      destruct L3 as [-> | L3]; [discriminate H|].
      destruct nullWindow as [score|]; [|discriminate H].
      split; [repeat split; assumption|]. split; [exact L3 | eexists; reflexivity]. }
  pose proof (keepsHelpers_lookup _ _ _ _ K4) as Hsame.
  pose proof (keepsHelpers_le size sh (S sh) _ _ ltac:(lia) K4) as Kdown.
  destruct K4 as (A4 & B4 & C4).
  assert (forall ms' lm a bs bm,
            moveLoop rec beta depth node sh fr n ms' lm a bs bm (ascend move w4)
              = Some (exit, w') ->
            keepsHelpers size sh w w'
            /\ lineWithin depth (pv (helpers w' !!! sh)) = true) as Hnext.
  { intros ms' lm a bs bm Hloop. apply IH in Hloop as [K L].
    - split; [|exact L]. eapply keepsHelpers_trans; [exact Kdown | exact K].
    - cbn [ascend withThread helpers]. lia.
    - exact B4.
    - cbn [ascend withThread helpers]. rewrite Hsame. exact Hline. }
  destruct (score >? bestScore); [|eapply Hnext, H].
  destruct (score >? alpha); [|eapply Hnext, H].
  destruct (score >=? beta).
  - apply bind_Some in H as (w0 & w6 & Hget & H).
    apply get_Some in Hget. injection Hget as -> ->.
    apply bind_Some in H as ([] & w6 & Hstore & H).
    apply storeUnlessStopped_helpers in Hstore.
    apply ret_Some in H. injection H as _ ->.
    cbn [ascend withThread helpers] in Hstore.
    split.
    + eapply keepsHelpers_trans; [exact Kdown|].
      apply keepsHelpers_same; assumption.
    + rewrite Hstore, Hsame. exact Hline.
  - apply bind_Some in H as ([] & w6 & Hext & H).
    apply modify_Some in Hext. injection Hext as ->.
    assert (sh < length (helpers w4))%nat as Hsh by lia.
    pose proof (helpersSized_lookup size (helpers w4) sh B4 Hsh) as Hcells.
    assert (keepsHelpers size sh (ascend move w4) (extendPV sh move (ascend move w4)))
      as Kext.
    { unfold extendPV, withHelpers, keepsHelpers. cbn [ascend withThread helpers].
      repeat split.
      - apply length_insert.
      - apply helpersSized_insert; [exact B4|]. cbn [pv].
        unfold updatePV. rewrite overwrite_length. exact Hcells.
      - apply take_insert_ge. lia. }
    apply IH in H as [K L].
    + split; [|exact L].
      eapply keepsHelpers_trans; [exact Kdown|].
      eapply keepsHelpers_trans; [exact Kext | exact K].
    + destruct Kext as (A & _ & _). rewrite A. cbn [ascend withThread helpers]. lia.
    + destruct Kext as (_ & B & _). exact B.
    + unfold extendPV, withHelpers. cbn [ascend withThread helpers].
      rewrite list_lookup_total_insert_eq by exact Hsh. cbn [pv].
      replace depth with (depth - 1 + 1) at 1 by lia.
      apply updatePV_within; [exact L4 | lia].
Qed.

Lemma alphaBetaMoves_keeps beta depth node sh fr n alpha w s w' :
  1 <= depth <= 255 -> depth < Z.of_nat size ->
  (sh + Z.to_nat depth < length (helpers w))%nat ->
  helpersSized size (helpers w) = true ->
  lineWithin depth (pv (helpers w !!! sh)) = true ->
  alphaBetaMoves rec beta depth node sh fr n alpha w = Some (s, w') ->
  keepsHelpers size sh w w' /\ lineWithin depth (pv (helpers w' !!! sh)) = true.
Proof using rec_keeps.
  intros Hd Hsize Hlen Hs Hline H. unfold alphaBetaMoves in H.
  apply bind_Some in H as (w0 & w1 & Hget & H).
  apply get_Some in Hget. injection Hget as -> ->.
  apply bind_Some in H as (exit & w2 & Hloop & H).
  apply moveLoop_keeps in Hloop as [K L]; try assumption.
  assert (helpers w' = helpers w2) as Hsame.
  { destruct exit.
    - apply ret_Some in H. injection H as _ ->. reflexivity.
    - apply bind_Some in H as (w0 & w3 & Hget & H).
      apply get_Some in Hget. injection Hget as -> ->.
      apply bind_Some in H as ([] & w3 & Hstore & H).
      apply storeUnlessStopped_helpers in Hstore.
      apply ret_Some in H. injection H as _ ->. exact Hstore. }
  split; [|rewrite Hsame; exact L].
  eapply keepsHelpers_trans; [exact K|].
  destruct K as (_ & B & _). apply keepsHelpers_same; assumption.
Qed.

End Lines.

Lemma alphaBeta_keepsLines size fuel : keepsLines size (alphaBeta fuel).
Proof.
  induction fuel as [|f IH]; intros alpha beta depth node sh w s w' Hd Hsize Hlen Hs H;
    [discriminate H|].
  simpl in H. apply bind_Some in H as ([] & w0 & Hreset & H).
  apply modify_Some in Hreset. injection Hreset as ->.
  destruct (resetPV_keeps size sh w) as [K0 L0]; [lia | lia | exact Hs|].
  pose proof K0 as (A0 & B0 & C0).
  destruct (Z.eqb_spec depth 0) as [->|Hdeep].
  - apply quiescenceSearch_helpers in H.
    split; [|rewrite H; exact L0].
    eapply keepsHelpers_trans; [exact K0|]. apply keepsHelpers_same; assumption.
  - apply bind_Some in H as (pre & w1 & Hpre & H).
    apply (alphaBetaPrelude_keeps size _ IH) in Hpre;
      try assumption; try (rewrite A0; assumption).
    pose proof (keepsHelpers_lookup _ _ _ _ Hpre) as Hsame.
    pose proof (keepsHelpers_le size sh (S sh) _ _ ltac:(lia) Hpre) as Kpre.
    assert (lineWithin depth (pv (helpers w1 !!! sh)) = true) as L1.
    { rewrite Hsame. apply (lineWithin_le 0); [exact L0 | lia]. }
    destruct pre as [score|fr].
    + apply ret_Some in H. injection H as _ ->.
      split; [|exact L1]. eapply keepsHelpers_trans; eassumption.
    + destruct Hpre as (A1 & B1 & C1).
      apply (alphaBetaMoves_keeps size _ IH) in H as [K L];
        try assumption; try lia.
      split; [|exact L].
      eapply keepsHelpers_trans; [exact K0|].
      eapply keepsHelpers_trans; [exact Kpre | exact K].
Qed.

(** X13: The principal variation stays inside its buffer.  [alphaBeta] entered
    with [depth] plies to go, smaller than the number of cells of a buffer,
    and with [depth] helpers behind its own: on return its helper holds a
    terminated line of at most [depth] moves, the helpers before it hold what
    they held, and no buffer has changed its size (nothing is written outside
    of one). *)
Theorem alphaBeta_line_within_depth size fuel alpha beta depth node sh w s w' :
  0 <= depth <= 255 ->
  depth < Z.of_nat size ->
  (sh + Z.to_nat depth < length (helpers w))%nat ->
  helpersSized size (helpers w) = true ->
  alphaBeta fuel alpha beta depth node sh w = Some (s, w') ->
  lineWithin depth (pv (helpers w' !!! sh)) = true
  /\ take sh (helpers w') = take sh (helpers w)
  /\ length (helpers w') = length (helpers w)
  /\ helpersSized size (helpers w') = true.
Proof.
  intros Hd Hsize Hlen Hs H.
  apply (alphaBeta_keepsLines size fuel) in H as [(A & B & C) L]; try assumption.
  repeat split; assumption.
Qed.

End PrincipalVariation.

(** * The board after a search *)

Section BoardRestored.
Context {E : Engine}.

#[local] Existing Instance Accumulator_inhabited.
#[local] Existing Instance SearchHelper_inhabited.

(** What the search asks of [chess_board.h]: undoing a legal move, or the
    null move, gives back the board the move was made on. *)
Hypothesis undo_make : forall b acc m,
  isLegalMove b m = true -> undoMove (fst (makeMove b acc m)) m = b.
Hypothesis undo_null : forall b, undoNullMove (makeNullMove b) = b.

Lemma boardKept_trans w1 w2 w3 : boardKept w1 w2 -> boardKept w2 w3 -> boardKept w1 w3.
Proof. unfold boardKept. congruence. Qed.

Lemma boardKept_move current child move w w2 :
  isLegalMove (board (thread w)) move = true ->
  boardKept (descend current child move w) w2 -> boardKept w (ascend move w2).
Proof using undo_make.
  unfold boardKept. simpl. intros Hlegal ->. apply undo_make, Hlegal.
Qed.

Lemma boardKept_null current child w w2 :
  boardKept (descendNull current child w) w2 -> boardKept w (ascendNull w2).
Proof using undo_null.
  unfold boardKept. simpl. intros ->. apply undo_null.
Qed.

Lemma quiescenceLoop_board rec beta current child :
  (forall a b, respects boardKept (rec a b)) ->
  forall n ms alpha bestScore,
    respects boardKept (quiescenceLoop rec beta current child n ms alpha bestScore).
Proof using undo_make.
  intros Hrec. induction n as [|n IH]; intros ms alpha bestScore w s w' H;
    [discriminate H|].
  simpl in H. apply bind_Some in H as (w0 & w1 & Hget & H).
  apply get_Some in Hget. injection Hget as -> ->.
  destruct (fst (getNextBestMove (board (thread w)) ms) =? NO_MOVE).
  { apply ret_Some in H. injection H as _ ->. reflexivity. }
  destruct (isLegalMove (board (thread w)) _) eqn:Hlegal; simpl in H;
    [|eapply IH, H].
  apply bind_Some in H as ([] & w2 & Hdown & H).
  apply modify_Some in Hdown. injection Hdown as ->.
  apply bind_Some in H as (r & w3 & Hcall & H).
  apply Hrec in Hcall. apply boardKept_move in Hcall; [|exact Hlegal].
  apply bind_Some in H as ([] & w4 & Hup & H).
  apply modify_Some in Hup. injection Hup as ->.
  apply (boardKept_trans _ _ _ Hcall).
  revert H. cbv beta zeta.
  repeat match goal with
         | |- context [if ?c then _ else _] => destruct c
         end;
    intros H; first [eapply IH, H | apply ret_Some in H; injection H as _ ->; reflexivity].
Qed.

Lemma quiescenceSearch_board fuel :
  forall alpha beta sh, respects boardKept (quiescenceSearch fuel alpha beta sh).
Proof using undo_make.
  induction fuel as [|f IH]; intros alpha beta sh w s w' H; [discriminate H|].
  rewrite quiescenceSearch_S in H. cbv zeta in H.
  destruct (isDraw (board (thread w))); [injection H as _ <-; reflexivity|].
  destruct (_ && _); [injection H as _ <-; reflexivity|].
  apply quiescenceLoop_board in H; [exact H|]. intros a b. apply IH.
Qed.

Lemma storeUnlessStopped_board slot key move depth bound s e :
  respects boardKept (storeUnlessStopped slot key move depth bound s e).
Proof.
  intros w a w' H. unfold storeUnlessStopped in H.
  apply bind_Some in H as (w0 & w1 & H1 & H).
  apply get_Some in H1. injection H1 as -> ->.
  destruct (negb (stop (thread w))).
  - apply modify_Some in H. injection H as _ ->. reflexivity.
  - apply ret_Some in H. injection H as _ ->. reflexivity.
Qed.

Lemma enterNode_board node : respects boardKept (enterNode node).
Proof.
  intros w a w' H. rewrite enterNode_eq in H. cbv zeta in H.
  destruct (_ && _); injection H as _ <-; reflexivity.
Qed.

Section Callee.
Variable rec : Score -> Score -> Depth -> Node -> nat -> M Score.
Hypothesis rec_board : forall a b d n sh, respects boardKept (rec a b d n sh).

Lemma alphaBetaPrelude_board beta depth node sh alpha :
  respects boardKept (alphaBetaPrelude rec beta depth node sh alpha).
Proof using rec_board undo_null.
  apply alphaBetaPrelude_respects.
  - reflexivity.
  - apply boardKept_trans.
  - apply enterNode_board.
  - apply boardKept_null.
  - exact rec_board.
Qed.

Lemma moveLoop_board beta depth node sh fr :
  forall n ms legalMoves alpha bestScore best,
    respects boardKept
      (moveLoop rec beta depth node sh fr n ms legalMoves alpha bestScore best).
Proof using rec_board undo_make.
  induction n as [|n IH]; intros ms legalMoves alpha bestScore best w exit w' H;
    [discriminate H|].
  simpl in H. apply bind_Some in H as (w0 & w1 & Hget & H).
  apply get_Some in Hget. injection Hget as -> ->.
  destruct (fst (getNextBestMove (board (thread w)) ms) =? NO_MOVE).
  { apply ret_Some in H. injection H as _ ->. reflexivity. }
  destruct (isLegalMove (board (thread w)) _) eqn:Hlegal; simpl in H;
    [|eapply IH, H].
  destruct (_ && (depth <? 4) && _ && _ && _); [eapply IH, H|].
  apply bind_Some in H as ([] & w2 & Hdown & H).
  apply modify_Some in Hdown. injection Hdown as ->.
  apply bind_Some in H as (nullWindow & w3 & Hfirst & H).
  apply bind_Some in H as (searched & w4 & Hsecond & H).
  apply bind_Some in H as ([] & w5 & Hup & H).
  apply modify_Some in Hup. injection Hup as ->.
  assert (boardKept w (ascend (fst (getNextBestMove (board (thread w)) ms)) w4)) as K.
  { apply (boardKept_move (currentAccumulator fr) (childAccumulator fr) _ _ _ Hlegal).
    eapply boardKept_trans.
    - destruct (negb _ || _).
      + apply bind_Some in Hfirst as (r & w6 & Hcall & Hret).
        apply ret_Some in Hret. injection Hret as _ ->.
        apply rec_board in Hcall. exact Hcall.
      + apply ret_Some in Hfirst. injection Hfirst as _ ->. reflexivity.
    - destruct (_ && (_ || _)).
      + apply bind_Some in Hsecond as (r & w6 & Hcall & Hret).
        apply ret_Some in Hret. injection Hret as _ ->.
        apply rec_board in Hcall. exact Hcall.
      + apply ret_Some in Hsecond. injection Hsecond as _ ->. reflexivity. }
  apply (boardKept_trans _ _ _ K).
  destruct searched as [score|]; [|discriminate H].
  destruct (score >? bestScore); [|eapply IH, H].
  destruct (score >? alpha); [|eapply IH, H].
  destruct (score >=? beta).
  - apply bind_Some in H as (w0 & w6 & Hget & H).
    apply get_Some in Hget. injection Hget as -> ->.
    apply bind_Some in H as ([] & w6 & Hstore & H).
    apply storeUnlessStopped_board in Hstore.
    apply ret_Some in H. injection H as _ ->. exact Hstore.
  - apply bind_Some in H as ([] & w6 & Hext & H).
    apply modify_Some in Hext. injection Hext as ->.
    apply IH in H. exact H.
Qed.

Lemma alphaBetaMoves_board beta depth node sh fr n alpha :
  respects boardKept (alphaBetaMoves rec beta depth node sh fr n alpha).
Proof using rec_board undo_make.
  intros w s w' H. unfold alphaBetaMoves in H.
  apply bind_Some in H as (w0 & w1 & Hget & H).
  apply get_Some in Hget. injection Hget as -> ->.
  apply bind_Some in H as (exit & w2 & Hloop & H).
  apply moveLoop_board in Hloop. apply (boardKept_trans _ _ _ Hloop).
  destruct exit.
  - apply ret_Some in H. injection H as _ ->. reflexivity.
  - apply bind_Some in H as (w0 & w3 & Hget & H).
    apply get_Some in Hget. injection Hget as -> ->.
    apply bind_Some in H as ([] & w3 & Hstore & H).
    apply storeUnlessStopped_board in Hstore.
    apply ret_Some in H. injection H as _ ->. exact Hstore.
Qed.

End Callee.

Lemma alphaBeta_board fuel :
  forall alpha beta depth node sh,
    respects boardKept (alphaBeta fuel alpha beta depth node sh).
Proof using undo_make undo_null.
  induction fuel as [|f IH]; intros alpha beta depth node sh w s w' H;
    [discriminate H|].
  simpl in H. apply bind_Some in H as ([] & w0 & Hreset & H).
  apply modify_Some in Hreset. injection Hreset as ->.
  destruct (depth =? 0).
  - apply quiescenceSearch_board in H. exact H.
  - apply bind_Some in H as (pre & w1 & Hpre & H).
    apply (alphaBetaPrelude_board _ IH) in Hpre.
    apply (boardKept_trans _ w1); [exact Hpre|].
    destruct pre as [score|fr].
    + apply ret_Some in H. injection H as _ ->. reflexivity.
    + apply (alphaBetaMoves_board _ IH) in H. exact H.
Qed.

End BoardRestored.

(** X14: The search gives the board back.  When undoing a legal move, and undoing
    the null move, give back the board the move was made on, [alphaBeta] and
    [quiescenceSearch] return with the board they were entered with, whatever
    the depth and however the run ends (cutoff, draw, out of time). *)
Theorem search_restores_board `{E : Engine} fuel alpha beta depth node sh w s w' :
  (forall b acc m,
     isLegalMove b m = true -> undoMove (fst (makeMove b acc m)) m = b) ->
  (forall b, undoNullMove (makeNullMove b) = b) ->
  alphaBeta fuel alpha beta depth node sh w = Some (s, w')
  \/ quiescenceSearch fuel alpha beta sh w = Some (s, w') ->
  board (thread w') = board (thread w).
Proof.
  intros Hmake Hnull [H|H].
  - apply (alphaBeta_board Hmake Hnull) in H. exact H.
  - apply (quiescenceSearch_board Hmake) in H. exact H.
Qed.

(** * Nodes that return at once *)

Section EarlyReturn.
Context {E : Engine}.

#[local] Existing Instance Accumulator_inhabited.
#[local] Existing Instance SearchHelper_inhabited.

(** X15: A node of [alphaBeta] with plies to go that is a draw and not the root,
    or at which the poll of the clock finds the budget used up, returns [DRAW]
    at once: one node is counted, the table and the board are untouched; in
    the first case the clock is not read and the stop flag keeps its value, in
    the second the clock is read once and the stop flag is set. *)
Theorem alphaBeta_returns_draw_at_once f alpha beta depth node sh w :
  depth <> 0 ->
  negb (Node_eqb node ROOT) && isDraw (board (thread w)) = true
  \/ expiredTick (thread w) (ticks w) = true ->
  exists w',
    alphaBeta (S f) alpha beta depth node sh w = Some (DRAW, w')
    /\ nodes (thread w') = wrap64 (nodes (thread w) + 1)
    /\ tt (thread w') = tt (thread w)
    /\ board (thread w') = board (thread w)
    /\ ticks w' = (if negb (Node_eqb node ROOT) && isDraw (board (thread w))
                   then ticks w else S (ticks w))
    /\ stop (thread w') = (if negb (Node_eqb node ROOT) && isDraw (board (thread w))
                           then stop (thread w) else true).
Proof.
  intros Hdepth Hcase. rewrite alphaBeta_S.
  destruct (Z.eqb_spec depth 0) as [H0|_]; [contradiction|].
  unfold bind. rewrite alphaBetaPrelude_eq.
  destruct (negb (Node_eqb node ROOT) && isDraw (board (thread w))) eqn:Hdraw.
  - rewrite enterNode_eq. cbv zeta.
    change (board (thread (resetPV sh w))) with (board (thread w)).
    rewrite Hdraw. eexists. split; [reflexivity|]. repeat split.
  - destruct Hcase as [Hcase | Hexpired]; [discriminate Hcase|].
    rewrite (enterNode_polled node sh w Hdraw), Hexpired.
    eexists. split; [reflexivity|]. repeat split.
    simpl. rewrite Hexpired. reflexivity.
Qed.

End EarlyReturn.

(** * The first iteration *)

Section FirstIteration.
Context {E : Engine}.

#[local] Existing Instance Accumulator_inhabited.
#[local] Existing Instance SearchHelper_inhabited.

(** What the search asks of [utility.h] and [nnue.h]: static evaluations and
    mate scores lie strictly between the infinite bounds. *)
Hypothesis INFINITE_positive : 0 < INFINITE.
Hypothesis evaluation_finite : forall acc colour, finiteScore (evaluation acc colour).
Hypothesis mate_finite : forall p, 0 <= p < 256 -> finiteScore (- CHECKMATE + p).

Lemma finiteScore_opp s : finiteScore s -> finiteScore (- s).
Proof. unfold finiteScore. lia. Qed.

Lemma standPat_finite st : 0 <= ply st < 256 -> finiteScore (standPat st).
Proof using evaluation_finite mate_finite.
  intros Hp. unfold standPat.
  destruct (getCheckers (board st)); [apply mate_finite, Hp | apply evaluation_finite].
Qed.

Lemma quiescenceLoop_finite rec beta current child :
  (forall a b w r w',
     0 <= ply (thread w) < 256 -> rec a b w = Some (r, w') -> finiteScore r) ->
  forall n ms alpha bestScore w s w',
    finiteScore bestScore ->
    quiescenceLoop rec beta current child n ms alpha bestScore w = Some (s, w') ->
    finiteScore s.
Proof.
  intros Hrec.
  induction n as [|n IH]; intros ms alpha bestScore w s w' Hbs H; [discriminate H|].
  simpl in H. apply bind_Some in H as (w0 & w1 & Hget & H).
  apply get_Some in Hget. injection Hget as -> ->.
  destruct (fst (getNextBestMove (board (thread w)) ms) =? NO_MOVE).
  { apply ret_Some in H. injection H as -> _. exact Hbs. }
  destruct (negb (isLegalMove (board (thread w)) _)); [eapply IH; eassumption|].
  apply bind_Some in H as ([] & w2 & Hdown & H).
  apply modify_Some in Hdown. injection Hdown as ->.
  apply bind_Some in H as (r & w3 & Hcall & H).
  apply Hrec in Hcall; [|simpl; apply wrap8_range].
  apply finiteScore_opp in Hcall.
  apply bind_Some in H as ([] & w4 & _ & H).
  revert H. cbv beta zeta.
  repeat match goal with
         | |- context [if ?c then _ else _] => destruct c
         end;
    intros H;
    first [ apply ret_Some in H; injection H as -> _; exact Hcall
          | eapply IH; [|exact H]; assumption ].
Qed.

Lemma quiescenceSearch_finite fuel :
  forall alpha beta sh w s w',
    0 <= ply (thread w) < 256 ->
    quiescenceSearch fuel alpha beta sh w = Some (s, w') ->
    finiteScore s.
Proof using INFINITE_positive evaluation_finite mate_finite.
  induction fuel as [|f IH]; intros alpha beta sh w s w' Hp H; [discriminate H|].
  rewrite quiescenceSearch_S in H. cbv zeta in H.
  pose proof (standPat_finite (thread w) Hp) as Hstand.
  destruct (isDraw (board (thread w))).
  { injection H as <- _. unfold finiteScore, DRAW. lia. }
  destruct (_ && _); [injection H as <- _; exact Hstand|].
  eapply quiescenceLoop_finite; [|exact Hstand | exact H].
  intros a b w2 r w3 Hp2 Hcall. exact (IH _ _ _ _ _ _ Hp2 Hcall).
Qed.

Lemma child_depth_0 f a b node sh w r w' :
  0 <= ply (thread w) < 256 ->
  alphaBeta f a b 0 node sh w = Some (r, w') ->
  finiteScore r
  /\ stop (thread w') = stop (thread w)
  /\ ply (thread w') = ply (thread w).
Proof using INFINITE_positive evaluation_finite mate_finite.
  intros Hp H. destruct f as [|f]; [discriminate H|].
  rewrite alphaBeta_S in H. change (0 =? 0) with true in H. cbv iota in H.
  split; [|split].
  - eapply quiescenceSearch_finite; [|exact H]. exact Hp.
  - apply quiescenceSearch_untouched in H as (_ & _ & Hstop). exact Hstop.
  - refine (quiescenceSearch_respects plyRestored plyRestored_refl plyRestored_trans
              _ plyRestored_move f a b sh (resetPV sh w) r w' H Hp).
    intros w0 _. reflexivity.
Qed.

Lemma storeUnlessStopped_stop slot key move depth bound s e w r w' :
  storeUnlessStopped slot key move depth bound s e w = Some (r, w') ->
  stop (thread w') = stop (thread w) /\ ply (thread w') = ply (thread w).
Proof.
  intros H. unfold storeUnlessStopped in H.
  apply bind_Some in H as (w0 & w1 & H1 & H).
  apply get_Some in H1. injection H1 as -> ->.
  destruct (negb (stop (thread w))).
  - apply modify_Some in H. injection H as _ ->. split; reflexivity.
  - apply ret_Some in H. injection H as _ ->. split; reflexivity.
Qed.

(** The loop over the moves of the root with one ply to go: the children are
    searched by [quiescenceSearch], the first legal move is never pruned. *)
Lemma moveLoop_root_depth_1 f beta sh fr :
  forall n ms legalMoves alpha bestScore best w exit w',
    0 <= legalMoves ->
    (if legalMoves =? 0 then bestScore = - INFINITE else finiteScore bestScore) ->
    0 <= ply (thread w) < 256 ->
    moveLoop (alphaBeta f) beta 1 ROOT sh fr n ms legalMoves alpha bestScore best w
      = Some (exit, w') ->
    stop (thread w') = stop (thread w)
    /\ 0 <= ply (thread w') < 256
    /\ match exit with
       | BetaCutoff score => finiteScore score
       | Exhausted legalMoves' bestScore' _ =>
           if legalMoves' =? 0 then True else finiteScore bestScore'
       end.
Proof using INFINITE_positive evaluation_finite mate_finite.
  induction n as [|n IH]; intros ms legalMoves alpha bestScore best w exit w'
    Hlm Hbs Hp H; [discriminate H|].
  simpl in H. apply bind_Some in H as (w0 & w1 & Hget & H).
  apply get_Some in Hget. injection Hget as -> ->.
  destruct (fst (getNextBestMove (board (thread w)) ms) =? NO_MOVE).
  { apply ret_Some in H. injection H as -> ->.
    split; [reflexivity|]. split; [exact Hp|].
    destruct (legalMoves =? 0); [exact I | exact Hbs]. }
  destruct (negb (isLegalMove (board (thread w)) _)); [eapply IH; eassumption|].
  set (move := fst (getNextBestMove (board (thread w)) ms)) in *.
  assert (Hnext : (legalMoves + 1 =? 0) = false) by (apply Z.eqb_neq; lia).
  change (1 >? 1) with false in H. rewrite andb_false_r in H.
  change (wrap8 (1 - 1)) with 0 in H.
  destruct ((legalMoves + 1 >? 1) && (1 <? 4) && _ && _ && _) eqn:Hfutile.
  { (* pruned: it is not the first legal move *)
    apply andb_true_iff in Hfutile as [Hfutile _].
    apply andb_true_iff in Hfutile as [Hfutile _].
    apply andb_true_iff in Hfutile as [Hfutile _].
    apply andb_true_iff in Hfutile as [Hlate _]. apply Z.gtb_lt in Hlate.
    eapply IH; [| |exact Hp|exact H]; [lia|]. rewrite Hnext.
    destruct (Z.eqb_spec legalMoves 0); [lia | exact Hbs]. }
  clear Hfutile.
  apply bind_Some in H as ([] & w2 & Hdown & H).
  apply modify_Some in Hdown. injection Hdown as ->.
  apply bind_Some in H as (nullWindow & w3 & Hfirst & H).
  apply bind_Some in H as (searched & w4 & Hsecond & H).
  apply bind_Some in H as ([] & w5 & Hup & H).
  apply modify_Some in Hup. injection Hup as ->.
  assert (Hdown : 0 <= ply (thread (descend (currentAccumulator fr)
                                      (childAccumulator fr) move w)) < 256)
    by (simpl; apply wrap8_range).
  assert (stop (thread w3) = stop (thread w)
          /\ 0 <= ply (thread w3) < 256
          /\ match nullWindow with
             | Some score => finiteScore score
             | None => legalMoves + 1 = 1
             end) as (Hstop3 & Hply3 & Hnull).
  { destruct (Z.gtb_spec (legalMoves + 1) 1) as [Hlate|Hfirst1].
    - apply bind_Some in Hfirst as (r & w6 & Hcall & Hret).
      apply ret_Some in Hret. injection Hret as -> ->.
      apply child_depth_0 in Hcall as (Hr & Hs & Hpl); [|exact Hdown].
      split; [exact Hs|]. split; [rewrite Hpl; exact Hdown|].
      apply finiteScore_opp, Hr.
    - apply ret_Some in Hfirst. injection Hfirst as -> ->.
      split; [reflexivity|]. split; [exact Hdown | lia]. }
  assert (exists score,
            searched = Some score /\ finiteScore score
            /\ stop (thread w4) = stop (thread w)) as (score & -> & Hscore & Hstop4).
  { destruct ((legalMoves + 1 =? 1) || above nullWindow alpha) eqn:Hagain.
    - apply bind_Some in Hsecond as (r & w6 & Hcall & Hret).
      apply ret_Some in Hret. injection Hret as -> ->.
      apply child_depth_0 in Hcall as (Hr & Hs & _); [|exact Hply3].
      exists (- r). split; [reflexivity|].
      split; [apply finiteScore_opp, Hr | congruence].
    - apply ret_Some in Hsecond. injection Hsecond as -> ->.
      destruct nullWindow as [score|].
      + exists score. split; [reflexivity|]. split; [exact Hnull | exact Hstop3].
      + rewrite Hnull in Hagain. discriminate Hagain. }
  assert (Hup : 0 <= ply (thread (ascend move w4)) < 256)
    by (simpl; apply wrap8_range).
  assert (Hbetter : (legalMoves + 1 =? 0) = false -> finiteScore score)
    by (intros _; exact Hscore).
  destruct (Z.gtb_spec score bestScore) as [Hgt|Hle].
  - destruct (score >? alpha).
    + destruct (score >=? beta).
      * apply bind_Some in H as (w0 & w6 & Hget & H).
        apply get_Some in Hget. injection Hget as -> ->.
        apply bind_Some in H as ([] & w6 & Hstore & H).
        apply storeUnlessStopped_stop in Hstore as [Hs Hpl].
        apply ret_Some in H. injection H as -> ->.
        split; [rewrite Hs; exact Hstop4|].
        split; [rewrite Hpl; exact Hup | exact Hscore].
      * apply bind_Some in H as ([] & w6 & Hext & H).
        apply modify_Some in Hext. injection Hext as ->.
        apply IH in H as (Hs & Hpl & Hexit);
          [| lia | rewrite Hnext; exact Hscore | exact Hup].
        split; [rewrite Hs; exact Hstop4|]. split; [exact Hpl | exact Hexit].
    + apply IH in H as (Hs & Hpl & Hexit);
        [| lia | rewrite Hnext; exact Hscore | exact Hup].
      split; [rewrite Hs; exact Hstop4|]. split; [exact Hpl | exact Hexit].
  - assert (Hfinite : finiteScore bestScore).
    { destruct (Z.eqb_spec legalMoves 0); [|exact Hbs].
      unfold finiteScore in Hscore. lia. }
    apply IH in H as (Hs & Hpl & Hexit);
      [| lia | rewrite Hnext; exact Hfinite | exact Hup].
    split; [rewrite Hs; exact Hstop4|]. split; [exact Hpl | exact Hexit].
Qed.

(** The root with one ply to go, entered in time: the stop flag is clear at
    the return and the score is finite. *)
Lemma root_depth_1 f alpha beta sh w score w1 :
  0 <= ply (thread w) < 256 ->
  expiredTick (thread w) (ticks w) = false ->
  alphaBeta (S f) alpha beta 1 ROOT sh w = Some (score, w1) ->
  stop (thread w1) = false /\ finiteScore score.
Proof using INFINITE_positive evaluation_finite mate_finite.
  intros Hp Hx H. rewrite alphaBeta_S in H.
  change (1 =? 0) with false in H. cbv iota in H.
  unfold bind at 1 in H.
  rewrite alphaBetaPrelude_eq, (enterNode_polled ROOT sh w eq_refl), Hx in H.
  assert (Htable : tableHit beta 1 ROOT (thread (polled ROOT sh w)) alpha = None).
  { unfold tableHit, tableCutoff. simpl. destruct (snd _); reflexivity. }
  rewrite Htable in H.
  change (pruning (alphaBeta f) beta 1 ROOT sh (frameOf (thread (polled ROOT sh w)))
            (polled ROOT sh w))
    with (Some (@inr Score Frame (frameOf (thread (polled ROOT sh w))),
                polled ROOT sh w)) in H.
  unfold alphaBetaMoves in H.
  apply bind_Some in H as (w0 & w2 & Hget & H).
  apply get_Some in Hget. injection Hget as -> ->.
  apply bind_Some in H as (exit & w2 & Hloop & H).
  apply moveLoop_root_depth_1 in Hloop as (Hs & Hpl & Hexit);
    [| lia | reflexivity | exact Hp].
  assert (Hstop : stop (thread (polled ROOT sh w)) = false)
    by (simpl; exact Hx).
  destruct exit as [cut|legalMoves bestScore best].
  - apply ret_Some in H. injection H as -> ->.
    split; [congruence | exact Hexit].
  - apply bind_Some in H as (w0 & w3 & Hget & H).
    apply get_Some in Hget. injection Hget as -> ->.
    apply bind_Some in H as ([] & w3 & Hstore & H).
    apply storeUnlessStopped_stop in Hstore as [Hs3 _].
    apply ret_Some in H. injection H as -> ->.
    split; [congruence|].
    destruct (legalMoves =? 0); [|exact Hexit].
    match goal with
    | |- context [if ?c then _ else _] => destruct c
    end; [apply mate_finite, Hpl|].
    unfold finiteScore, DRAW. lia.
Qed.

(** C5, as the code has it.  With [print] set, if the budget is not used up
    at the first two polls of the clock (the poll of the loop and the poll of
    the root of depth 1) and the search of depth 1 returns, it returns with
    the stop flag clear and a finite score, so that the first iteration is
    accepted and prints the line of depth 1.  If the next poll of the loop
    finds the budget used up, [startSearch] returns the root move and the
    score of that iteration, having printed this line and the bestmove line;
    in any case the line is the first one of every search that returns.  The
    stop flag at the entry plays no part: the first poll overwrites it. *)
Theorem info_depth_1_when_in_time fuel junkBest junkPonder w score w1 :
  print (thread w) = true ->
  0 <= ply (thread w) < 256 ->
  expiredTick (thread (started w)) (S (ticks w)) = false ->
  expiredTick (thread (started w)) (S (S (ticks w))) = false ->
  alphaBeta fuel (- INFINITE) INFINITE 1 ROOT 0 (afterPoll (started w))
    = Some (score, w1) ->
  let rootPV := pv (helpers w1 !!! 0%nat) in
  let line := infoLine 1 score (fst (fst (pvToString rootPV))) (committed score w1) in
  let w' := acceptedWorld (firstIteration junkBest junkPonder) score w1 in
  (stop (thread w1) = false /\ - INFINITE < score < INFINITE)
  /\ (isInfoAtDepth 1 line = true /\ stdout w' = stdout w ++ [line])
  /\ (expiredAt w' = true ->
      (2 <= fuel)%nat ->
      exists wf,
        startSearch fuel junkBest junkPonder w
        = Some ({| mo_move := pvAt rootPV 0; mo_score := score |}, wf)
        /\ stdout wf =
           stdout w ++
           [line; bestMoveLine (snd (fst (pvToString rootPV)))
                    (snd (pvToString rootPV))])
  /\ (forall r wf,
        startSearch fuel junkBest junkPonder w = Some (r, wf) ->
        exists rest, stdout wf = stdout w ++ line :: rest).
Proof using INFINITE_positive evaluation_finite mate_finite.
  intros Hprint Hp Hx0 Hx1 Hrun. cbv zeta.
  destruct fuel as [|f]; [discriminate Hrun|].
  destruct (root_depth_1 f (- INFINITE) INFINITE 0%nat (afterPoll (started w))
              score w1 Hp Hx1 Hrun) as [Hstop Hfinite].
  pose proof (alphaBeta_keepsDriverState _ _ _ _ _ _ _ _ _ Hrun)
    as (Hout & Hpr & _).
  simpl in Hout, Hpr. rewrite Hprint in Hpr.
  assert (Hacc : accepts (firstIteration junkBest junkPonder) score w1 = true).
  { unfold accepts. simpl. rewrite Hstop. unfold finiteScore in Hfinite.
    destruct (Z.gtb_spec score (- INFINITE)); [|lia].
    destruct (Z.ltb_spec score INFINITE); [reflexivity|lia]. }
  assert (Hline : stdout (acceptedWorld (firstIteration junkBest junkPonder) score w1) =
                  stdout w ++
                  [infoLine 1 score
                     (fst (fst (pvToString (pv (helpers w1 !!! 0%nat)))))
                     (committed score w1)]).
  { rewrite acceptedWorld_stdout, Hpr, Hout. reflexivity. }
  pose proof (deepen_iteration (S f) f (firstIteration junkBest junkPonder)
                (started w) score w1 ltac:(discriminate) Hx0 Hrun) as Hstep.
  rewrite Hacc in Hstep.
  split; [split; [exact Hstop | exact Hfinite]|].
  split; [split; [reflexivity | exact Hline]|].
  split.
  - intros Hexpired Hfuel. destruct f as [|f]; [lia|].
    rewrite startSearch_eq, Hstep.
    rewrite deepen_out_of_time; [| |exact Hexpired].
    2:{ cbn [depthNow nextDepth acceptedLocals firstIteration].
        change (wrap8 (1 + 1)) with 2. lia. }
    assert (Hpr' : print (thread (afterPoll
                     (acceptedWorld (firstIteration junkBest junkPonder) score w1)))
                   = true).
    { unfold acceptedWorld. rewrite Hpr. exact Hpr. }
    rewrite Hpr'. eexists. split.
    + f_equal. f_equal. unfold acceptedWorld. rewrite Hpr. reflexivity.
    + cbn [stdout emit afterPoll]. rewrite Hline, <- app_assoc. reflexivity.
  - intros r wf H. rewrite startSearch_eq, Hstep in H.
    destruct (deepen (S f) f _ _) as [[l2 w3]|] eqn:Hrest; [|discriminate H].
    apply deepen_extends in Hrest as (more & Hmore).
    rewrite Hline, <- app_assoc in Hmore.
    injection H as _ <-.
    destruct (print (thread w3)).
    + eexists. cbn [stdout emit]. rewrite Hmore, <- app_assoc. reflexivity.
    + eexists. exact Hmore.
Qed.

End FirstIteration.

(** * The random opening of a training game *)

Section RandomOpeningProperties.
Context {E : Engine}.

#[local] Existing Instance Accumulator_inhabited.

Variable random64BitNumber : Z -> Z * Z.
Variable createMoveList : Board -> MoveGeneration -> list MoveObject.

Lemma swap_out idx (window : list MoveObject) :
  (idx < length window)%nat ->
  Permutation window (window !!! idx :: tail (swap 0 idx window)).
Proof.
  destruct window as [|first rest]; simpl; [lia|]. intros Hidx.
  destruct idx as [|i]; [reflexivity|].
  unfold swap. simpl.
  assert (rest !! i = Some (rest !!! i)) as Hc
    by (apply list_lookup_lookup_total_lt; lia).
  rewrite insert_take_drop by lia.
  rewrite <- (take_drop_middle rest i _ Hc) at 1.
  rewrite <- !Permutation_middle. apply perm_swap.
Qed.

Lemma swap_out_length idx (window : list MoveObject) :
  length (tail (swap 0 idx window)) = pred (length window).
Proof.
  unfold swap. destruct window as [|first rest]; [destruct idx; reflexivity|].
  destruct idx as [|i]; simpl; [reflexivity|]. apply length_insert.
Qed.

Lemma drawn_index x size : (Z.to_nat (x mod Z.of_nat (S size)) < S size)%nat.
Proof. pose proof (Z.mod_pos_bound x (Z.of_nat (S size))). lia. Qed.

Lemma pickMove_S b size window seed :
  pickMove random64BitNumber b (S size) window seed
  = let idx :=
      Z.to_nat (wrap64 (fst (random64BitNumber seed)) mod Z.of_nat (S size)) in
    if isLegalMove b (mo_move (window !!! idx))
    then (Some (mo_move (window !!! idx)), snd (random64BitNumber seed))
    else pickMove random64BitNumber b size (tail (swap 0 idx window))
           (snd (random64BitNumber seed)).
Proof. reflexivity. Qed.

Lemma pickMove_Some b :
  forall size window seed m seed',
    size = length window ->
    pickMove random64BitNumber b size window seed = (Some m, seed') ->
    isLegalMove b m = true /\ exists mo, In mo window /\ mo_move mo = m.
Proof.
  induction size as [|size IH]; intros window seed m seed' Hsize H; [discriminate H|].
  rewrite pickMove_S in H. cbv zeta in H.
  pose proof (drawn_index (wrap64 (fst (random64BitNumber seed))) size) as Hidx.
  set (idx := Z.to_nat _) in *.
  pose proof (swap_out idx window ltac:(lia)) as Hperm.
  destruct (isLegalMove b (mo_move (window !!! idx))) eqn:Hlegal.
  - injection H as <- _. split; [exact Hlegal|].
    exists (window !!! idx). split; [|reflexivity].
    eapply Permutation_in; [symmetry; exact Hperm | left; reflexivity].
  - apply IH in H as [Hm (mo & Hin & Hmo)]; [|rewrite swap_out_length; lia].
    split; [exact Hm|]. exists mo. split; [|exact Hmo].
    eapply Permutation_in; [symmetry; exact Hperm | right; exact Hin].
Qed.

Lemma pickMove_None b :
  forall size window seed seed',
    size = length window ->
    pickMove random64BitNumber b size window seed = (None, seed') ->
    Forall (fun mo => isLegalMove b (mo_move mo) = false) window.
Proof.
  induction size as [|size IH]; intros window seed seed' Hsize H.
  { destruct window; [constructor | discriminate Hsize]. }
  rewrite pickMove_S in H. cbv zeta in H.
  pose proof (drawn_index (wrap64 (fst (random64BitNumber seed))) size) as Hidx.
  set (idx := Z.to_nat _) in *.
  pose proof (swap_out idx window ltac:(lia)) as Hperm.
  destruct (isLegalMove b (mo_move (window !!! idx))) eqn:Hlegal; [discriminate H|].
  apply IH in H; [|rewrite swap_out_length; lia].
  eapply Permutation_Forall; [symmetry; exact Hperm|].
  constructor; assumption.
Qed.

Lemma stuck_Forall b :
  stuck createMoveList b = true
  <-> Forall (fun mo => isLegalMove b (mo_move mo) = false) (moveList createMoveList b).
Proof.
  unfold stuck. rewrite forallb_forall, List.Forall_forall.
  split; intros H mo Hin; specialize (H mo Hin);
    destruct (isLegalMove b (mo_move mo)); auto; discriminate.
Qed.

Lemma randomMove_step b acc seed :
  if stuck createMoveList b
  then fst (randomMove random64BitNumber createMoveList (b, acc, seed)) = (b, acc)
  else exists m,
      isLegalMove b m = true
      /\ existsb (fun mo => mo_move mo =? m) (moveList createMoveList b) = true
      /\ fst (randomMove random64BitNumber createMoveList (b, acc, seed))
         = replay b acc [m].
Proof.
  unfold randomMove.
  destruct (pickMove random64BitNumber b (length (moveList createMoveList b))
              (moveList createMoveList b) seed) as [[m|] seed'] eqn:Hpick; cbn [fst snd].
  - apply pickMove_Some in Hpick as [Hlegal (mo & Hin & Hmo)]; [|reflexivity].
    destruct (stuck createMoveList b) eqn:Hstuck.
    + apply stuck_Forall in Hstuck. rewrite List.Forall_forall in Hstuck.
      specialize (Hstuck mo Hin). rewrite Hmo in Hstuck. congruence.
    + exists m. split; [exact Hlegal|]. split; [|reflexivity].
      apply existsb_exists. exists mo. split; [exact Hin|].
      apply Z.eqb_eq. exact Hmo.
  - apply pickMove_None in Hpick; [|reflexivity].
    apply stuck_Forall in Hpick. rewrite Hpick. reflexivity.
Qed.

(** X16: One turn of the random opening: where a generated move is legal, a legal
    generated move is made, whatever the numbers drawn; where none is, the
    position and the accumulator are left as they are. *)
Theorem randomMove_plays_legal_move b acc seed :
  if stuck createMoveList b
  then fst (randomMove random64BitNumber createMoveList (b, acc, seed)) = (b, acc)
  else exists m,
      isLegalMove b m = true
      /\ In m (map mo_move (moveList createMoveList b))
      /\ fst (randomMove random64BitNumber createMoveList (b, acc, seed))
         = (fst (makeMove b acc m), snd (makeMove b acc m)).
Proof.
  pose proof (randomMove_step b acc seed) as H.
  destruct (stuck createMoveList b); [exact H|].
  destruct H as (m & Hlegal & Hin & Hr). exists m.
  split; [exact Hlegal|]. split; [|exact Hr].
  apply existsb_exists in Hin as (mo & Hin & Hmo). apply Z.eqb_eq in Hmo.
  rewrite <- Hmo. apply in_map. exact Hin.
Qed.

Lemma replay_app moves more : forall b acc,
  replay b acc (moves ++ more)
  = replay (fst (replay b acc moves)) (snd (replay b acc moves)) more.
Proof.
  induction moves as [|m moves IH]; intros b acc; [reflexivity|].
  simpl. apply IH.
Qed.

Lemma legalLine_app moves more : forall b acc,
  legalLine createMoveList b acc (moves ++ more)
  = legalLine createMoveList b acc moves
    && legalLine createMoveList (fst (replay b acc moves)) (snd (replay b acc moves)) more.
Proof.
  induction moves as [|m moves IH]; intros b acc; [reflexivity|].
  simpl. rewrite IH. rewrite andb_assoc. reflexivity.
Qed.

Lemma randomMoves_line n b acc seed :
  exists moves,
    legalLine createMoveList b acc moves = true
    /\ fst (Nat.iter n (randomMove random64BitNumber createMoveList) (b, acc, seed))
       = replay b acc moves
    /\ (length moves = n
        \/ (length moves < n)%nat
           /\ stuck createMoveList (fst (replay b acc moves)) = true).
Proof.
  induction n as [|n IH].
  { exists []. repeat split. left. reflexivity. }
  destruct IH as (moves & Hlegal & Hstate & Hcount).
  simpl Nat.iter.
  destruct (Nat.iter n (randomMove random64BitNumber createMoveList) (b, acc, seed))
    as [[b1 acc1] seed1].
  cbn [fst] in Hstate.
  pose proof (randomMove_step b1 acc1 seed1) as Hstep.
  assert (b1 = fst (replay b acc moves)) as Hb by (rewrite <- Hstate; reflexivity).
  assert (acc1 = snd (replay b acc moves)) as Ha by (rewrite <- Hstate; reflexivity).
  destruct (stuck createMoveList b1) eqn:Hstuck.
  - exists moves. split; [exact Hlegal|]. split; [congruence|].
    right. rewrite <- Hb. split; [lia | exact Hstuck].
  - destruct Hstep as (m & Hm & Hin & Hr).
    exists (moves ++ [m]). split; [|split].
    + rewrite legalLine_app, Hlegal, <- Hb, <- Ha. simpl.
      rewrite Hm, Hin. reflexivity.
    + rewrite replay_app, <- Hb, <- Ha. exact Hr.
    + left. rewrite length_app. simpl.
      destruct Hcount as [Hn | [_ Hs]]; [lia|]. congruence.
Qed.

(** X17: The random opening: the position it leaves is reached from the one it is
    given by legal generated moves, at most [MAX_RANDOM_MOVES] of them, and
    fewer than five only where no generated move is legal any more. *)
Theorem playRandomMoves_opening b acc seed :
  exists moves,
    legalLine createMoveList b acc moves = true
    /\ fst (playRandomMoves random64BitNumber createMoveList b acc seed)
       = replay b acc moves
    /\ Z.of_nat (length moves) <= MAX_RANDOM_MOVES
    /\ (5 <= Z.of_nat (length moves)
        \/ stuck createMoveList (fst (replay b acc moves)) = true).
Proof.
  unfold playRandomMoves, numberOfRandomMoves, MAX_RANDOM_MOVES.
  set (drawn := random64BitNumber seed).
  pose proof (Z.mod_pos_bound (wrap64 (fst drawn)) 6 ltac:(lia)) as Hn.
  destruct (randomMoves_line (Z.to_nat (wrap64 (fst drawn) mod 6 + 5)) b acc (snd drawn))
    as (moves & Hlegal & Hstate & Hcount).
  exists moves. split; [exact Hlegal|]. split; [exact Hstate|].
  split; [lia|]. destruct Hcount as [Hc | [_ Hs]]; [left; lia | right; exact Hs].
Qed.

Variables (startBoard : Board) (startAccumulator : Accumulator).

(** X18: A random game: nothing is written to the standard output, and the lines
    written to the file carry one outcome and no mate score. *)
Theorem playRandomGame_file fuel n junkBest junkPonder seed w lines seed' w' :
  playRandomGame random64BitNumber createMoveList startBoard startAccumulator
    fuel n junkBest junkPonder seed w = Some ((lines, seed'), w') ->
  stdout w' = stdout w
  /\ exists outcome,
       Forall (fun line => lineOutcome line = outcome
                           /\ Z.abs (lineScore line) < GUARANTEE_CHECKMATE) lines.
Proof.
  unfold playRandomGame. cbv zeta.
  destruct (playGame fuel n junkBest junkPonder [] _) as [[lines0 w0]|] eqn:Hgame;
    [|discriminate].
  intros H. injection H as -> _ ->. split.
  - apply playGame_silent in Hgame; [exact Hgame | reflexivity].
  - apply playGame_newer in Hgame as (newer & outcome & _ & -> & Hquiet).
    exists outcome. rewrite app_nil_r.
    induction Hquiet as [|d newer Hd _ IH]; constructor; [|exact IH].
    split; [reflexivity | exact Hd].
Qed.

End RandomOpeningProperties.

(** * Runs on the small engine *)

#[local] Existing Instance Toy.engine.
#[local] Existing Instance SearchHelper_inhabited.

Lemma ply_restored_on_return_witness :
  match alphaBeta 10 (-32001) 32001 2 ROOT 0 (Toy.toyWorld [] 1000 true) with
  | Some (_, w') => ply (thread w') = 0
  | None => False
  end.
Proof.
  destruct (alphaBeta 10 (-32001) 32001 2 ROOT 0 (Toy.toyWorld [] 1000 true))
    as [[s w']|] eqn:Hrun.
  - refine (proj1 (ply_restored_on_return 10 (-32001) 32001 2 ROOT 0%nat
                     (Toy.toyWorld [] 1000 true) _) s w' Hrun).
    cbn [ply thread Toy.toyWorld Toy.toyThread]. lia.
  - apply (f_equal returns) in Hrun. vm_compute in Hrun. discriminate Hrun.
Defined.

Lemma no_store_while_stopped_witness :
  match alphaBeta 10 (-32001) 32001 3 ROOT 0 (Toy.toyWorld [] 1000000 true) with
  | Some (_, w') => never storedWhileStopped (journal w') = true
  | None => False
  end.
Proof.
  destruct (alphaBeta 10 (-32001) 32001 3 ROOT 0 (Toy.toyWorld [] 1000000 true))
    as [[s w']|] eqn:Hrun.
  - destruct (proj1 (no_store_while_stopped 10 (-32001) 32001 3 ROOT 0%nat
                       (Toy.toyWorld [] 1000000 true) s w') Hrun)
      as (new & Hnew & Hnever).
    rewrite Hnew. cbn [journal Toy.toyWorld]. rewrite app_nil_r. exact Hnever.
  - apply (f_equal returns) in Hrun. vm_compute in Hrun. discriminate Hrun.
Defined.




Lemma some_eq {A} (a b : A) : Some a = Some b -> a = b.
Proof. intros H. injection H as ->. reflexivity. Qed.

Lemma aspiration_window_step_witness :
  match alphaBeta 20 (- 32001) 32001 1 ROOT 0
          (afterPoll (started (Toy.toyWorld [] 1000 true))) with
  | Some (score, w1) =>
      let next := {| depthNow := 2; alphaNow := -23; betaNow := 27;
                     bestMoveStr := "b2b3"; ponderMoveStr := "" |} in
      deepen 20 20 (firstIteration "" "") (started (Toy.toyWorld [] 1000 true)) =
      match alphaBeta 20 (-23) 27 2 ROOT 0
              (afterPoll (acceptedWorld (firstIteration "" "") score w1)) with
      | Some (score2, w2) =>
          deepen 20 18 (nextDepth (fst (afterIteration next score2 w2)))
            (snd (afterIteration next score2 w2))
      | None => None
      end
  | None => False
  end
  /\ returns (deepen 20 20 (firstIteration "" "")
                (started (Toy.toyWorld [] 1000 true))) = true.
Proof.
  split; [|vm_compute; reflexivity].
  assert (Hscore :
    match alphaBeta 20 (- 32001) 32001 1 ROOT 0
            (afterPoll (started (Toy.toyWorld [] 1000 true))) with
    | Some (score, w1) => Some score
    | None => None
    end = Some 2) by (vm_compute; reflexivity).
  assert (Hstop :
    match alphaBeta 20 (- 32001) 32001 1 ROOT 0
            (afterPoll (started (Toy.toyWorld [] 1000 true))) with
    | Some (score, w1) => Some (stop (thread w1))
    | None => None
    end = Some false) by (vm_compute; reflexivity).
  assert (Hpv :
    match alphaBeta 20 (- 32001) 32001 1 ROOT 0
            (afterPoll (started (Toy.toyWorld [] 1000 true))) with
    | Some (score, w1) => Some (pvToString (pv (helpers w1 !!! 0%nat)))
    | None => None
    end = Some ("b2b3", "b2b3", "")%string) by (vm_compute; reflexivity).
  assert (Hnext :
    match alphaBeta 20 (- 32001) 32001 1 ROOT 0
            (afterPoll (started (Toy.toyWorld [] 1000 true))) with
    | Some (score, w1) =>
        Some (expiredAt (acceptedWorld (firstIteration "" "") score w1))
    | None => None
    end = Some false) by (vm_compute; reflexivity).
  destruct (alphaBeta 20 (- 32001) 32001 1 ROOT 0
              (afterPoll (started (Toy.toyWorld [] 1000 true))))
    as [[score w1]|] eqn:Hrun; [|discriminate Hscore].
  apply some_eq in Hscore, Hstop, Hpv, Hnext.
  assert (Hd : 1 <= depthNow (firstIteration "" "") <= 255)
    by (cbn [depthNow firstIteration]; lia).
  assert (Hx : expiredAt (started (Toy.toyWorld [] 1000 true)) = false)
    by (vm_compute; reflexivity).
  pose proof (proj2 (aspiration_window_step 20 18 (firstIteration "" "")
                       (started (Toy.toyWorld [] 1000 true)) score w1 "" ""
                       (Toy.toyWorld [] 1000 true) Hd Hx Hrun)) as Hstep.
  rewrite Hstop in Hstep. cbv zeta in Hstep. rewrite Hpv, Hnext in Hstep.
  cbv zeta. subst score.
  cbn [firstIteration alphaNow betaNow depthNow andb negb fst snd] in Hstep.
  change (2 >? - INFINITE) with true in Hstep.
  change (2 <? INFINITE) with true in Hstep.
  cbn [andb] in Hstep.
  destruct Hstep as (_ & _ & Hstep).
  change (wrap8 (1 + 1)) with 2 in Hstep.
  change (2 - 25) with (-23) in Hstep.
  change (2 + 25) with 27 in Hstep.
  assert (Hdeeper : (2 =? 0) = false) by reflexivity.
  rewrite Hdeeper in Hstep.
  exact Hstep.
Defined.

(** C1 as the specification words it fails: the budget runs out at the poll
    of the root of the first iteration; the score that comes back is inside
    the window and only the stop flag rejects it; the next poll of the loop
    ends it, and the root is entered once in the whole search: depth 1 is
    not searched again. *)
Lemma rejected_by_stop_not_searched_again :
  match alphaBeta 20 (- INFINITE) INFINITE 1 ROOT 0
          (afterPoll (started (Toy.toyWorld [] 100 true))) with
  | Some (score, w1) =>
      Some ((score >? - INFINITE) && (score <? INFINITE), stop (thread w1))
  | None => None
  end = Some (true, true)
  /\ match startSearch 20 "" "" (Toy.toyWorld [] 100 true) with
     | Some (_, w') => Some (tally isRootVisit (journal w'))
     | None => None
     end = Some 1%nat.
Proof. vm_compute. split; reflexivity. Defined.

Lemma table_hit_cutoff_witness :
  alphaBeta 5 (-50) 50 2 NON_PV 0 Toy.toyHit = Some (7, polled NON_PV 0 Toy.toyHit)
  /\ ttMove (frameOf (thread (polled PV 0 Toy.toyHit)))
     = pe_bestMove (readSlot (tt (thread Toy.toyHit)) 0)
  /\ pe_bestMove (readSlot (tt (thread Toy.toyHit)) 0) = 2
  /\ match alphaBeta 6 (-50) 50 2 PV 0 Toy.toyHit with
     | Some (score, _) => Some score
     | None => None
     end = Some 4.
Proof.
  assert (Hdepth : 2 <> 0) by lia.
  assert (Hdraw : negb (Node_eqb NON_PV ROOT) && isDraw (board (thread Toy.toyHit)) = false)
    by (vm_compute; reflexivity).
  assert (Hdraw' : negb (Node_eqb PV ROOT) && isDraw (board (thread Toy.toyHit)) = false)
    by (vm_compute; reflexivity).
  assert (Hclock : expiredTick (thread Toy.toyHit) (ticks Toy.toyHit) = false)
    by (vm_compute; reflexivity).
  assert (Hprobe : probeTranspositionTable (tt (thread Toy.toyHit))
                     (getPositionKey (board (thread Toy.toyHit))) = (0, true))
    by (vm_compute; reflexivity).
  split; [|split; [|split]].
  - exact (proj2 (table_hit_cutoff 4 (-50) 50 2 NON_PV 0%nat Toy.toyHit 0
                    Hdepth Hdraw Hclock Hprobe)).
  - exact (proj1 (table_hit_cutoff 5 (-50) 50 2 PV 0%nat Toy.toyHit 0
                    Hdepth Hdraw' Hclock Hprobe)).
  - vm_compute. reflexivity.
  - vm_compute. reflexivity.
Defined.

(** C4 as the specification words it fails: a score two plies from being
    mated is printed as [mate -1], the value with the [+ 1] is 0. *)
Lemma mate_value_not_symmetric :
  (Z.abs (-31998) >=? GUARANTEE_CHECKMATE) = true
  /\ match printSearch 1 (-31998) "" (Toy.toyWorld [] 1000 true) with
     | Some (_, w') => option_map scoreFields (last (stdout w'))
     | None => None
     end = Some (Some ("mate"%string, -1))
  /\ specMateValue (-31998) = 0.
Proof. vm_compute. repeat split. Defined.

(** C5 as the specification words it fails: the stop flag is clear at the
    entry and [print] is set, the budget runs out between the poll of the
    loop and the poll of the root node, and no line of depth 1 is printed. *)
Lemma no_info_line_when_time_runs_out :
  print (thread (Toy.toyWorld [] 100 true)) = true
  /\ stop (thread (Toy.toyWorld [] 100 true)) = false
  /\ match startSearch 20 "" "" (Toy.toyWorld [] 100 true) with
     | Some (_, w') => Some (existsb (isInfoAtDepth 1) (stdout w'))
     | None => None
     end = Some false.
Proof. vm_compute. repeat split. Defined.

Lemma bounded_evaluation_finite :
  forall (acc : @Accumulator BoundedToy.engine) colour,
    @finiteScore BoundedToy.engine (@evaluation BoundedToy.engine acc colour).
Proof. intros acc colour. unfold finiteScore. destruct colour; simpl; lia. Qed.

Lemma bounded_mate_finite :
  forall p, 0 <= p < 256 ->
    @finiteScore BoundedToy.engine (- @CHECKMATE BoundedToy.engine + p).
Proof. intros p Hp. unfold finiteScore. simpl. lia. Qed.

Lemma info_depth_1_when_in_time_witness :
  exists wf,
    @startSearch BoundedToy.engine 20 "" "" (BoundedToy.world 200)
    = Some ({| mo_move := 2; mo_score := 2 |}, wf)
    /\ exists line more,
         stdout wf = line :: more /\ isInfoAtDepth 1 line = true.
Proof.
  assert (Hscore :
    match @alphaBeta BoundedToy.engine 20 (-32001) 32001 1 ROOT 0
            (afterPoll (started (BoundedToy.world 200))) with
    | Some (score, w1) => Some score
    | None => None
    end = Some 2) by (vm_compute; reflexivity).
  assert (Hmove :
    match @alphaBeta BoundedToy.engine 20 (-32001) 32001 1 ROOT 0
            (afterPoll (started (BoundedToy.world 200))) with
    | Some (score, w1) => Some (pvAt (pv (helpers w1 !!! 0%nat)) 0)
    | None => None
    end = Some 2) by (vm_compute; reflexivity).
  assert (Hexpired :
    match @alphaBeta BoundedToy.engine 20 (-32001) 32001 1 ROOT 0
            (afterPoll (started (BoundedToy.world 200))) with
    | Some (score, w1) =>
        Some (expiredAt (acceptedWorld (firstIteration "" "") score w1))
    | None => None
    end = Some true) by (vm_compute; reflexivity).
  destruct (@alphaBeta BoundedToy.engine 20 (-32001) 32001 1 ROOT 0
              (afterPoll (started (BoundedToy.world 200))))
    as [[score w1]|] eqn:Hrun; [|discriminate Hscore].
  apply some_eq in Hscore, Hmove, Hexpired.
  assert (Hinf : 0 < @INFINITE BoundedToy.engine) by (simpl; lia).
  assert (Hprint : print (thread (BoundedToy.world 200)) = true) by reflexivity.
  assert (Hply : 0 <= ply (thread (BoundedToy.world 200)) < 256) by (simpl; lia).
  assert (Hx0 : expiredTick (thread (started (BoundedToy.world 200)))
                  (S (ticks (BoundedToy.world 200))) = false)
    by (vm_compute; reflexivity).
  assert (Hx1 : expiredTick (thread (started (BoundedToy.world 200)))
                  (S (S (ticks (BoundedToy.world 200)))) = false)
    by (vm_compute; reflexivity).
  assert (Hfuel : (2 <= 20)%nat) by lia.
  pose proof (@info_depth_1_when_in_time BoundedToy.engine Hinf
                bounded_evaluation_finite bounded_mate_finite
                20 "" "" (BoundedToy.world 200) score w1
                Hprint Hply Hx0 Hx1 Hrun) as Hfirst.
  cbv zeta in Hfirst. destruct Hfirst as (_ & (Hinfo & _) & Hsearch & _).
  destruct (Hsearch Hexpired Hfuel) as (wf & Hret & Hout).
  rewrite Hmove, Hscore in Hret.
  exists wf. split; [exact Hret|].
  do 2 eexists. split; [exact Hout | exact Hinfo].
Defined.

Lemma no_legal_moves_score_witness :
  match alphaBetaPrelude (alphaBeta 4) 32001 1 ROOT 0 (- 32001)
          (resetPV 0 (Toy.toyWorld Toy.stalemate 1000 true)) with
  | Some (inr _, _) =>
      exists w', alphaBeta 5 (- 32001) 32001 1 ROOT 0
                   (Toy.toyWorld Toy.stalemate 1000 true) = Some (DRAW, w')
  | _ => False
  end.
Proof.
  assert (Hno :
    match alphaBetaPrelude (alphaBeta 4) 32001 1 ROOT 0 (- 32001)
            (resetPV 0 (Toy.toyWorld Toy.stalemate 1000 true)) with
    | Some (inr fr, w1) =>
        Some (noLegalMoves 1 (board (thread w1))
                (createMoveSelector (board (thread w1)) TT_MOVE (ttMove fr)))
    | _ => None
    end = Some true) by (vm_compute; reflexivity).
  destruct (alphaBetaPrelude (alphaBeta 4) 32001 1 ROOT 0 (- 32001)
              (resetPV 0 (Toy.toyWorld Toy.stalemate 1000 true)))
    as [[[score|fr] w1]|] eqn:Hpre; try discriminate Hno.
  apply some_eq in Hno.
  assert (Hdepth : 1 <> 0) by lia.
  assert (Hply : 0 <= ply (thread (Toy.toyWorld Toy.stalemate 1000 true)) < 256)
    by (cbn [ply thread Toy.toyWorld Toy.toyThread]; lia).
  assert (Hk : (1 < 4)%nat) by lia.
  exact (no_legal_moves_score 4 1 (- 32001) 32001 1 ROOT 0%nat
           (Toy.toyWorld Toy.stalemate 1000 true) fr w1 Hdepth Hply Hpre Hno Hk).
Defined.

Lemma playGame_records_witness :
  match startSearch 20 "" "" (Toy.toyWorld Toy.stalemate 1000 false) with
  | Some (best, w1) =>
      playGame 20 1 "" "" [] (Toy.toyWorld Toy.stalemate 1000 false) =
      Some ([{| lineFen := "b2b3 a2a3"; lineScore := 0; lineOutcome := Drawn |}], w1)
  | None => False
  end.
Proof.
  assert (Hbest :
    match startSearch 20 "" "" (Toy.toyWorld Toy.stalemate 1000 false) with
    | Some (best, w1) => Some best
    | None => None
    end = Some stalemateResult) by (vm_compute; reflexivity).
  assert (Hboard :
    match startSearch 20 "" "" (Toy.toyWorld Toy.stalemate 1000 false) with
    | Some (best, w1) => Some (board (thread w1))
    | None => None
    end = Some Toy.stalemate) by (vm_compute; reflexivity).
  destruct (startSearch 20 "" "" (Toy.toyWorld Toy.stalemate 1000 false))
    as [[best w1]|] eqn:Hrun; [|discriminate Hbest].
  apply some_eq in Hbest, Hboard.
  rewrite (playGame_records 20 0 "" "" [] _ best w1 Hrun).
  cbv zeta. rewrite Hboard, Hbest. reflexivity.
Defined.



(** ** Further runs *)

Lemma quiescence_at_least_stand_pat_witness :
  match quiescenceSearch 5 (-32001) 32001 0 (Toy.toyWorld [] 1000 true) with
  | Some (s, _) => standPat (thread (Toy.toyWorld [] 1000 true)) <= s
  | None => False
  end.
Proof.
  destruct (quiescenceSearch 5 (-32001) 32001 0 (Toy.toyWorld [] 1000 true))
    as [[s w']|] eqn:Hrun.
  - exact (quiescence_at_least_stand_pat 5 (-32001) 32001 0%nat
             (Toy.toyWorld [] 1000 true) s w' Hrun).
  - apply (f_equal returns) in Hrun. vm_compute in Hrun. discriminate Hrun.
Defined.

Lemma quiescence_without_moves_witness :
  quiescenceSearch 2 (-32001) 32001 0 (Toy.toyWorld [] 1000 true)
  = Some (standPat (thread (Toy.toyWorld [] 1000 true)),
          countNode InQuiescence (Toy.toyWorld [] 1000 true)).
Proof.
  assert (Hk : (0 < 1)%nat) by lia.
  exact (quiescence_without_moves 1 0 (-32001) 32001 0%nat
           (Toy.toyWorld [] 1000 true) eq_refl eq_refl Hk).
Defined.

Lemma mate_distance_rendering_witness :
  (scoreType (CHECKMATE - 3) = "mate"%string /\ scoreValue (CHECKMATE - 3) = 2)
  /\ (scoreType (- CHECKMATE + 3) = "mate"%string /\ scoreValue (- CHECKMATE + 3) = -1).
Proof.
  apply (mate_distance_rendering 3);
    change GUARANTEE_CHECKMATE with 31000; change CHECKMATE with 32000; lia.
Defined.

Lemma startSearch_without_time_witness :
  exists w',
    startSearch 1 "e2e4" "" (Toy.toyWorld [] 0 true)
    = Some (bestMove (thread (Toy.toyWorld [] 0 true)), w')
    /\ stop (thread w') = true
    /\ stdout w' = [bestMoveLine "e2e4" ""].
Proof.
  assert (Hrange : 0 <= maxSearchTimeNs (thread (Toy.toyWorld [] 0 true)) < 2 ^ 64)
    by (cbn [maxSearchTimeNs thread Toy.toyWorld Toy.toyThread]; lia).
  assert (H0 : maxSearchTimeNs (thread (Toy.toyWorld [] 0 true)) = 0) by reflexivity.
  destruct (startSearch_without_time 0 "e2e4" "" (Toy.toyWorld [] 0 true)
              Hrange (or_introl H0))
    as (w' & Hrun & _ & _ & _ & Hstop & Hout).
  exists w'. split; [exact Hrun|]. split; [exact Hstop | exact Hout].
Defined.

Lemma silent_without_print_witness :
  match playGame 20 1 "" "" [] (Toy.toyWorld Toy.stalemate 1000 false) with
  | Some (_, w') => stdout w' = []
  | None => False
  end.
Proof.
  destruct (playGame 20 1 "" "" [] (Toy.toyWorld Toy.stalemate 1000 false))
    as [[lines w']|] eqn:Hrun.
  - exact (proj2 (silent_without_print 20 1 "" "" []
                    (Toy.toyWorld Toy.stalemate 1000 false) eq_refl) lines w' Hrun).
  - apply (f_equal returns) in Hrun. vm_compute in Hrun. discriminate Hrun.
Defined.

Lemma startSearch_output_witness :
  match startSearch 20 "" "" (Toy.toyWorld [] 1000 true) with
  | Some (r, w') =>
      exists infos best ponder,
        stdout w' = infos ++ [bestMoveLine best ponder]
        /\ depthsFrom 1 infos = true
        /\ r = bestMove (thread w')
  | None => False
  end.
Proof.
  destruct (startSearch 20 "" "" (Toy.toyWorld [] 1000 true)) as [[r w']|] eqn:Hrun.
  - destruct (startSearch_output 20 "" "" (Toy.toyWorld [] 1000 true) r w' eq_refl Hrun)
      as (infos & best & ponder & Hout & Hdepths & _ & Hbest & _).
    exists infos, best, ponder. split; [exact Hout|]. split; [exact Hdepths | exact Hbest].
  - apply (f_equal returns) in Hrun. vm_compute in Hrun. discriminate Hrun.
Defined.

Lemma outcome_is_sign_of_final_score_witness :
  @gameOutcome Toy.engine [1] {| mo_move := NO_MOVE; mo_score := 31999 |} = BlackWon.
Proof.
  assert (H0 : 0 < GUARANTEE_CHECKMATE) by (change GUARANTEE_CHECKMATE with 31000; lia).
  exact (@outcome_is_sign_of_final_score Toy.engine [1]
           {| mo_move := NO_MOVE; mo_score := 31999 |} H0).
Defined.

Lemma playGame_lines_witness :
  match playGame 20 5 "" "" [] (Toy.toyWorld [] 1000 false) with
  | Some (lines, w') =>
      exists best w1,
        startSearch 20 "" "" (Toy.toyWorld [] 1000 false) = Some (best, w1)
        /\ isEndOfGame (board (thread w1)) best = false
        /\ exists later outcome,
             playGame 20 4 "" "" [] (playMove (mo_move best) w1)
             = Some (map (toLine outcome) later, w')
             /\ lines = map (toLine outcome)
                          (later ++ recordPosition [] (board (thread w1)) best ++ [])
  | None => False
  end.
Proof.
  assert (Hend :
    match startSearch 20 "" "" (Toy.toyWorld [] 1000 false) with
    | Some (best, w1) => Some (isEndOfGame (board (thread w1)) best)
    | None => None
    end = Some false) by (vm_compute; reflexivity).
  destruct (playGame 20 5 "" "" [] (Toy.toyWorld [] 1000 false))
    as [[lines w']|] eqn:Hrun.
  - destruct (playGame_lines 20 4 "" "" [] (Toy.toyWorld [] 1000 false) lines w' Hrun)
      as (best & w1 & Hsearch & _ & Hlines).
    rewrite Hsearch in Hend. apply some_eq in Hend.
    rewrite Hend in Hlines. destruct Hlines as (later & outcome & Hrest & _ & Hlines).
    exists best, w1. split; [exact Hsearch|]. split; [exact Hend|].
    exists later, outcome. split; [exact Hrest | exact Hlines].
  - apply (f_equal returns) in Hrun. vm_compute in Hrun. discriminate Hrun.
Defined.

Lemma updatePV_line_witness :
  pvLine (updatePV 7 [0; 0; 0; 0; 0] [3; 4; 0; 9]) = [7; 3; 4]
  /\ updatePV 7 [0; 0; 0; 0; 0] [3; 4; 0; 9] = [7; 3; 4; 0; 0].
Proof.
  assert (Hmove : 7 <> NO_MOVE) by (unfold NO_MOVE; lia).
  assert (Hfits : Nat.le (length (pvLine [3; 4; 0; 9]) + 2) (length [0; 0; 0; 0; 0]))
    by (simpl; lia).
  destruct (updatePV_line 7 [0; 0; 0; 0; 0] [3; 4; 0; 9] Hmove eq_refl Hfits)
    as (Hcells & Hline & _).
  split; [exact Hline | exact Hcells].
Defined.

Lemma pvToString_line_witness :
  pvToString [2; 3; 0; 0] = ("b2b3 a7a6", "b2b3", "a7a6")%string.
Proof.
  assert (Hfirst : pvAt [2; 3; 0; 0] 0 <> NO_MOVE) by (unfold NO_MOVE, pvAt; simpl; lia).
  assert (Hlen : Nat.le (length [2; 3; 0; 0]) (Z.to_nat MAX_DEPTH))
    by (unfold MAX_DEPTH; simpl length; lia).
  exact (pvToString_line [2; 3; 0; 0] Hfirst Hlen).
Defined.

Lemma pvToString_empty_line_witness :
  fst (fst (pvToString [0; 3; 0])) = "0000 a7a6"%string
  /\ snd (fst (pvToString [0; 3; 0])) = "0000"%string.
Proof. exact (pvToString_empty_line [0; 3; 0] [3] eq_refl eq_refl). Defined.

Lemma alphaBeta_line_within_depth_witness :
  match alphaBeta 10 (-32001) 32001 2 ROOT 0 (Toy.toyWorld [] 1000000 true) with
  | Some (_, w') => lineWithin 2 (pv (helpers w' !!! 0%nat)) = true
  | None => False
  end.
Proof.
  assert (Hdepth : 0 <= 2 <= 255) by lia.
  assert (Hsize : 2 < Z.of_nat 255) by lia.
  assert (Hlen : (0 + Z.to_nat 2 < length (helpers (Toy.toyWorld [] 1000000 true)))%nat)
    by (cbn [helpers Toy.toyWorld]; rewrite length_replicate; lia).
  assert (Hsized : helpersSized 255 (helpers (Toy.toyWorld [] 1000000 true)) = true)
    by (vm_compute; reflexivity).
  destruct (alphaBeta 10 (-32001) 32001 2 ROOT 0 (Toy.toyWorld [] 1000000 true))
    as [[s w']|] eqn:Hrun.
  - exact (proj1 (alphaBeta_line_within_depth 255 10 (-32001) 32001 2 ROOT 0%nat
                    (Toy.toyWorld [] 1000000 true) s w'
                    Hdepth Hsize Hlen Hsized Hrun)).
  - apply (f_equal returns) in Hrun. vm_compute in Hrun. discriminate Hrun.
Defined.

Lemma search_restores_board_witness :
  match alphaBeta 10 (-32001) 32001 2 ROOT 0 (Toy.toyWorld [] 1000000 true) with
  | Some (_, w') => board (thread w') = []
  | None => False
  end.
Proof.
  assert (Hmake : forall (b : Board) (acc : Accumulator) (m : Move),
            isLegalMove b m = true -> undoMove (fst (makeMove b acc m)) m = b)
    by (intros b acc m _; reflexivity).
  assert (Hnull : forall b : Board, undoNullMove (makeNullMove b) = b)
    by (intros b; reflexivity).
  destruct (alphaBeta 10 (-32001) 32001 2 ROOT 0 (Toy.toyWorld [] 1000000 true))
    as [[s w']|] eqn:Hrun.
  - exact (search_restores_board 10 (-32001) 32001 2 ROOT 0%nat
             (Toy.toyWorld [] 1000000 true) s w' Hmake Hnull (or_introl Hrun)).
  - apply (f_equal returns) in Hrun. vm_compute in Hrun. discriminate Hrun.
Defined.

(** A generator that counts, and the pseudo-legal moves of the small engine
    as moves that capture nothing. *)
Definition toyRandom (seed : Z) : Z * Z := (seed, seed + 1).

Definition toyMoveList (b : @Board Toy.engine) (generation : MoveGeneration)
    : list MoveObject :=
  match generation with
  | CAPTURES => []
  | NON_CAPTURES => map (fun m => {| mo_move := m; mo_score := 0 |}) (Toy.pseudoLegal b)
  end.

Lemma playRandomGame_file_witness :
  match playRandomGame toyRandom toyMoveList [] 0 300 1 "" "" 1
          (Toy.toyWorld [] 1000 true) with
  | Some ((lines, _), w') =>
      stdout w' = []
      /\ exists outcome,
           Forall (fun line => lineOutcome line = outcome
                               /\ Z.abs (lineScore line) < GUARANTEE_CHECKMATE) lines
  | None => False
  end.
Proof.
  destruct (playRandomGame toyRandom toyMoveList [] 0 300 1 "" "" 1
              (Toy.toyWorld [] 1000 true)) as [[[lines seed'] w']|] eqn:Hrun.
  - exact (playRandomGame_file toyRandom toyMoveList [] 0 300 1 "" "" 1
             (Toy.toyWorld [] 1000 true) lines seed' w' Hrun).
  - apply (f_equal returns) in Hrun. vm_compute in Hrun. discriminate Hrun.
Defined.

Lemma alphaBeta_returns_draw_at_once_witness :
  exists w',
    alphaBeta 1 (-32001) 32001 1 ROOT 0 (Toy.toyWorld [] 0 true) = Some (DRAW, w')
    /\ nodes (thread w') = 1
    /\ stop (thread w') = true.
Proof.
  assert (Hdepth : 1 <> 0) by lia.
  assert (Hexpired : expiredTick (thread (Toy.toyWorld [] 0 true))
                       (ticks (Toy.toyWorld [] 0 true)) = true)
    by (vm_compute; reflexivity).
  destruct (alphaBeta_returns_draw_at_once 0 (-32001) 32001 1 ROOT 0%nat
              (Toy.toyWorld [] 0 true) Hdepth (or_intror Hexpired))
    as (w' & Hrun & Hnodes & _ & _ & _ & Hstop).
  exists w'. split; [exact Hrun|]. split; [exact Hnodes | exact Hstop].
Defined.
